(** * nexus-ai: the MCP client, the SSE decoder and the tool-call loop

    A shallow embedding of
    - the streaming decoder, [streamSSEResponse] and the text extractors
      (lib/streaming.ts; in this tree the code is in
      [src/lib/chat-export.ts], lines 392-552),
    - the MCP service: stdio / HTTP sessions, request correlation, the
      active-server registry, [callTool], [findToolServer]
      ([src/services/mcp.ts]),
    - the chat hook: [executeToolCalls], [handleChatCompletion],
      [sendMessage], [stopGeneration], [regenerateLastResponse]
      (hooks/use-chat-actions.ts; in this tree in
      [src/lib/validation.test.ts], lines 216-615),
    - what these use of the LLM service ([sendChatRequestWithTools], in
      [src/components/layout/MainWindowContent.tsx]), of [src/lib/errors.ts]
      and of the stores ([src/store/chat-store.ts], and the MCP store in
      [src/unnamed/part_000]).

    Conventions.  A JavaScript string is the list of its UTF-16 code units
    ([list N]); a [Uint8Array] is a [list byte].  Platform functions that are
    not code of the repository ([JSON.parse], [JSON.stringify]) are Section
    variables or fields of the environment; [MiniJSON] gives one concrete
    reader for the closed examples.  Pending asynchronous work (promises,
    timers, transmissions) is explicit state; what arrives during an await
    is given by the environment, and so is what the user and the other
    turns of the hook do during it. *)

From Stdlib Require Import ZArith NArith List String Ascii Lia.
From Stdlib.Strings Require Import Byte.
From stdpp Require Import gmap strings list.

Local Open Scope N_scope.

(* ===================================================================== *)
(** ** JavaScript strings *)
(* ===================================================================== *)

Module JS.

Abbreviation jsstring := (list N).

(** A string literal of the source: the code units of an ASCII literal. *)
Definition lit (s : string) : jsstring :=
  map N_of_ascii (list_ascii_of_string s).

(** Literals that contain double quotes are written with an apostrophe for
    each double quote. *)
Definition unquote (a : ascii) : ascii :=
  if Ascii.eqb a "'"%char then ascii_of_N 34 else a.

Definition qlit (s : string) : jsstring :=
  map (fun a => N_of_ascii (unquote a)) (list_ascii_of_string s).

(** The bytes a [TextEncoder] gives for an ASCII literal (written as for
    [qlit]), and the byte of a line feed. *)
Definition bytes (s : string) : list byte :=
  map (fun a => byte_of_ascii (unquote a)) (list_ascii_of_string s).

Definition NL : byte := x0a.

Definition LF : N := 10.

Definition str_eqb (a b : jsstring) : bool := bool_decide (a = b).

(** [s.split(sep)] for a one-unit separator: never the empty array. *)
Fixpoint split (sep : N) (s : jsstring) : list jsstring :=
  match s with
  | [] => [[]]
  | c :: s' =>
      if N.eqb c sep then [] :: split sep s'
      else match split sep s' with
           | l :: ls => (c :: l) :: ls
           | [] => [[c]]
           end
  end.

(** [arr.pop()]: the array without its last element, and that element
    ([None] is [undefined], for the empty array). *)
Definition pop {A} (arr : list A) : list A * option A :=
  (removelast arr, last arr).

(** [x || ''] for [x] a string or [undefined]. *)
Definition or_empty (x : option jsstring) : jsstring := default [] x.

Fixpoint startsWith (p s : jsstring) : bool :=
  match p, s with
  | [], _ => true
  | _ :: _, [] => false
  | a :: p', b :: s' => N.eqb a b && startsWith p' s'
  end.

(** [s.slice(n)] for [n >= 0]. *)
Definition slice (n : nat) (s : jsstring) : jsstring := drop n s.

(** ECMAScript WhiteSpace and LineTerminator code points: what [trim] strips. *)
Definition is_space (c : N) : bool :=
  (c =? 0x09) || (c =? 0x0A) || (c =? 0x0B) || (c =? 0x0C) || (c =? 0x0D)
  || (c =? 0x20) || (c =? 0xA0) || (c =? 0x1680)
  || ((0x2000 <=? c) && (c <=? 0x200A))
  || (c =? 0x2028) || (c =? 0x2029) || (c =? 0x202F) || (c =? 0x205F)
  || (c =? 0x3000) || (c =? 0xFEFF).

Fixpoint trimStart (s : jsstring) : jsstring :=
  match s with
  | c :: s' => if is_space c then trimStart s' else s
  | [] => []
  end.

Definition trimEnd (s : jsstring) : jsstring := rev (trimStart (rev s)).

Definition trim (s : jsstring) : jsstring := trimEnd (trimStart s).

(** Truthiness of a string: non-empty. *)
Definition truthy_str (s : jsstring) : bool :=
  match s with [] => false | _ => true end.

End JS.

Import JS.

(* ===================================================================== *)
(** ** [TextDecoder] (UTF-8, replacement mode, [stream: true]) *)
(* ===================================================================== *)

(** The WHATWG UTF-8 decoder, one byte at a time.  With [stream: true] the
    end of a chunk is not the end of the input: the decoder keeps its state
    for the next call, and [streamSSEResponse] never makes the final flushing
    call. *)
Module TextDecoder.

Record utf8_state := {
  code_point : N;
  bytes_seen : N;
  bytes_needed : N;
  lower_boundary : N;
  upper_boundary : N
}.

Definition utf8_init : utf8_state :=
  {| code_point := 0; bytes_seen := 0; bytes_needed := 0;
     lower_boundary := 0x80; upper_boundary := 0xBF |}.

Definition REPLACEMENT : N := 0xFFFD.

(** A byte read while no sequence is open. *)
Definition utf8_lead (b : N) : utf8_state * list N :=
  if b <=? 0x7F then (utf8_init, [b])
  else if (0xC2 <=? b) && (b <=? 0xDF) then
    ({| code_point := N.land b 0x1F; bytes_seen := 0; bytes_needed := 1;
        lower_boundary := 0x80; upper_boundary := 0xBF |}, [])
  else if (0xE0 <=? b) && (b <=? 0xEF) then
    ({| code_point := N.land b 0xF; bytes_seen := 0; bytes_needed := 2;
        lower_boundary := if b =? 0xE0 then 0xA0 else 0x80;
        upper_boundary := if b =? 0xED then 0x9F else 0xBF |}, [])
  else if (0xF0 <=? b) && (b <=? 0xF4) then
    ({| code_point := N.land b 0x7; bytes_seen := 0; bytes_needed := 3;
        lower_boundary := if b =? 0xF0 then 0x90 else 0x80;
        upper_boundary := if b =? 0xF4 then 0x8F else 0xBF |}, [])
  else (utf8_init, [REPLACEMENT]).

(** The handler: the new state and the scalar values emitted (an error
    emits U+FFFD; a bad continuation byte is put back and read as a lead). *)
Definition utf8_handler (s : utf8_state) (b : N) : utf8_state * list N :=
  if bytes_needed s =? 0 then utf8_lead b
  else if negb ((lower_boundary s <=? b) && (b <=? upper_boundary s)) then
    let '(s', out) := utf8_lead b in (s', REPLACEMENT :: out)
  else
    let cp := N.lor (N.shiftl (code_point s) 6) (N.land b 0x3F) in
    let seen := bytes_seen s + 1 in
    if negb (seen =? bytes_needed s) then
      ({| code_point := cp; bytes_seen := seen;
          bytes_needed := bytes_needed s;
          lower_boundary := 0x80; upper_boundary := 0xBF |}, [])
    else (utf8_init, [cp]).

(** A scalar value as UTF-16 code units. *)
Definition code_units (cp : N) : jsstring :=
  if cp <? 0x10000 then [cp]
  else let c := cp - 0x10000 in
       [0xD800 + N.shiftr c 10; 0xDC00 + N.land c 0x3FF].

Record t := { utf8 : utf8_state; BOM_seen : bool }.

Definition create : t := {| utf8 := utf8_init; BOM_seen := false |}.

(** Serializing the emitted scalars: the first one is dropped when it is
    the byte order mark. *)
Fixpoint serialize (bom : bool) (items : list N) : bool * jsstring :=
  match items with
  | [] => (bom, [])
  | item :: rest =>
      if negb bom && (item =? 0xFEFF) then serialize true rest
      else let '(bom', out) := serialize true rest in
           (bom', code_units item ++ out)
  end.

Definition push (d : t) (b : byte) : t * jsstring :=
  let '(u, items) := utf8_handler (utf8 d) (Byte.to_N b) in
  let '(bom, out) := serialize (BOM_seen d) items in
  ({| utf8 := u; BOM_seen := bom |}, out).

(** [decoder.decode(value, { stream: true })]. *)
Fixpoint decode (d : t) (value : list byte) : t * jsstring :=
  match value with
  | [] => (d, [])
  | b :: rest =>
      let '(d1, o1) := push d b in
      let '(d2, o2) := decode d1 rest in
      (d2, o1 ++ o2)
  end.

End TextDecoder.

(* ===================================================================== *)
(** ** streaming.ts *)
(* ===================================================================== *)

Module Streaming.

(** What the caller observes: the accumulated [fullText] and the arguments
    of the [onChunk] calls, oldest first. *)
Record sink := { fullText : jsstring; onChunk : list jsstring }.

Definition sink_empty : sink := {| fullText := []; onChunk := [] |}.

(** How the body ends: [reader.read()] reports [done], or rejects. *)
Inductive ending (E : Type) := Done | ReadFails (e : E).
Arguments Done {E}.
Arguments ReadFails {E} e.

Inductive outcome (E A : Type) := Returns (a : A) | Throws (e : E).
Arguments Returns {E A} a.
Arguments Throws {E A} e.

Section Generic.

Context {T E : Type}.
(** [JSON.parse(jsonStr) as T]; [None] when it throws. *)
Variable JSON_parse : jsstring -> option T.
(** The [extractText] argument; [None] when it throws. *)
Variable extractText : T -> option jsstring.

(** The body of [if (line.startsWith('data: ')) { ... }], which the source
    has twice: for every complete line, and for the buffer left at the end. *)
Definition process_line (line : jsstring) (s : sink) : sink :=
  if startsWith (lit "data: ") line then
    let jsonStr := trim (slice 6 line) in
    if truthy_str jsonStr && negb (str_eqb jsonStr (lit "[DONE]")) then
      match JSON_parse jsonStr with
      | Some data =>
          match extractText data with
          | Some text =>
              if truthy_str text then
                {| fullText := fullText s ++ text;
                   onChunk := onChunk s ++ [text] |}
              else s
          | None => s
          end
      | None => s
      end
    else s
  else s.

Definition process_lines (lines : list jsstring) (s : sink) : sink :=
  fold_left (fun acc line => process_line line acc) lines s.

Record loop_state := {
  decoder : TextDecoder.t;
  buffer : jsstring;
  out : sink
}.

Definition loop_init : loop_state :=
  {| decoder := TextDecoder.create; buffer := []; out := sink_empty |}.

(** One turn of [while (true)] for a chunk [value]. *)
Definition read_chunk (st : loop_state) (value : list byte) : loop_state :=
  let '(d, text) := TextDecoder.decode (decoder st) value in
  let buffer1 := buffer st ++ text in
  let '(lines, popped) := pop (split LF buffer1) in
  {| decoder := d;
     buffer := or_empty popped;
     out := process_lines lines (out st) |}.

Definition read_loop (chunks : list (list byte)) : loop_state :=
  fold_left read_chunk chunks loop_init.

(** [streamSSEResponse(body, onChunk, extractText)]: the value returned (or
    the rejection of [reader.read()], which passes through [finally]), with
    the [onChunk] calls made. *)
Definition streamSSEResponse (chunks : list (list byte)) (fin : ending E)
  : outcome E jsstring * list jsstring :=
  let st := read_loop chunks in
  match fin with
  | Done =>
      let s := process_line (buffer st) (out st) in
      (Returns (fullText s), onChunk s)
  | ReadFails e => (Throws e, onChunk (out st))
  end.

End Generic.

(** The declared shapes of the provider events. *)
Record GooglePart := { part_text : option jsstring }.
Record GoogleContent := { parts : option (list GooglePart) }.
Record GoogleCandidate := { content : option GoogleContent }.
Record GoogleStreamData := { candidates : option (list GoogleCandidate) }.

Record OpenAIDelta := { delta_content : option jsstring }.
Record OpenAIChoice := { delta : option OpenAIDelta }.
Record OpenAIStreamData := { choices : option (list OpenAIChoice) }.

(** [data.candidates?.[0]?.content?.parts?.[0]?.text || ''] *)
Definition extractGoogleText (data : GoogleStreamData) : jsstring :=
  or_empty (c ← (cs ← candidates data; head cs);
            ct ← content c;
            p ← (ps ← parts ct; head ps);
            part_text p).

(** [data.choices?.[0]?.delta?.content || ''] *)
Definition extractOpenAIText (data : OpenAIStreamData) : jsstring :=
  or_empty (c ← (cs ← choices data; head cs);
            d ← delta c;
            delta_content d).

Definition extractGroqText := extractOpenAIText.

End Streaming.


(* ===================================================================== *)
(** ** JSON values *)
(* ===================================================================== *)

Module Json.

#[local] Set Warnings "-register-all".

(** A parsed JSON value.  A number is kept as the exact decimal of its
    literal, [m * 10^e]. *)
Inductive json :=
| JNull
| JBool (b : bool)
| JNum (m e : Z)
| JStr (s : jsstring)
| JArr (items : list json)
| JObj (fields : list (jsstring * json)).

(** A value of type [unknown]: a JSON value or [undefined] ([None]). *)
Abbreviation unknown := (option json).

(** The own property [k] of an object ([JSON.parse] keeps the last of
    duplicate keys); [None] is [undefined]. *)
Fixpoint field (k : jsstring) (fields : list (jsstring * json)) : unknown :=
  match fields with
  | [] => None
  | (k', v) :: rest =>
      match field k rest with
      | Some v' => Some v'
      | None => if str_eqb k k' then Some v else None
      end
  end.

(** [v?.k], and [v.k] for a [v] that is neither [null] nor [undefined].
    None of the property names the source reads on parsed values is a
    property of an array, a string, a number or a boolean. *)
Definition opt_get (v : unknown) (k : jsstring) : unknown :=
  match v with
  | Some (JObj fields) => field k fields
  | _ => None
  end.

Definition truthy (v : unknown) : bool :=
  match v with
  | None | Some JNull => false
  | Some (JBool b) => b
  | Some (JNum m _) => negb (Z.eqb m 0)
  | Some (JStr s) => truthy_str s
  | Some (JArr _) | Some (JObj _) => true
  end.

(** [a || b] *)
Definition or_else (a : unknown) (b : json) : json :=
  if truthy a then default b a else b.

(** [v === s] for a string [s], and [v === n] for an integer [n]. *)
Definition is_string (v : unknown) (s : jsstring) : bool :=
  match v with Some (JStr s') => str_eqb s' s | _ => false end.

(** The integer a number denotes, when it denotes one. *)
Definition as_integer (m e : Z) : option Z :=
  if (0 <=? e)%Z then Some (m * 10 ^ e)%Z
  else if (m mod 10 ^ (- e) =? 0)%Z then Some (m / 10 ^ (- e))%Z
  else None.

Definition is_number (v : unknown) (n : Z) : bool :=
  match v with
  | Some (JNum m e) => bool_decide (as_integer m e = Some n)
  | _ => false
  end.

End Json.

Import Json.

(* ===================================================================== *)
(** ** A JSON reader for the closed examples *)
(* ===================================================================== *)

(** [JSON.parse] is a platform function: the development is stated for any
    reader.  This one follows the JSON grammar and instantiates the reader in
    the examples, witnesses and counterexamples. *)
Module MiniJSON.

Fixpoint skip_ws (s : jsstring) : jsstring :=
  match s with
  | c :: s' =>
      if (c =? 0x20) || (c =? 0x09) || (c =? 0x0A) || (c =? 0x0D)
      then skip_ws s' else s
  | [] => []
  end.

Definition is_digit (c : N) : bool := (0x30 <=? c) && (c <=? 0x39).

Definition hexval (c : N) : option N :=
  if is_digit c then Some (c - 0x30)
  else if (0x41 <=? c) && (c <=? 0x46) then Some (c - 0x41 + 10)
  else if (0x61 <=? c) && (c <=? 0x66) then Some (c - 0x61 + 10)
  else None.

Definition escape (e : N) : option N :=
  if e =? 0x22 then Some 0x22          (* quote *)
  else if e =? 0x5C then Some 0x5C     (* backslash *)
  else if e =? 0x2F then Some 0x2F     (* slash *)
  else if e =? 0x62 then Some 0x08     (* b *)
  else if e =? 0x66 then Some 0x0C     (* f *)
  else if e =? 0x6E then Some 0x0A     (* n *)
  else if e =? 0x72 then Some 0x0D     (* r *)
  else if e =? 0x74 then Some 0x09     (* t *)
  else None.

(** The characters of a string after its opening quote, and the rest. *)
Fixpoint string_body (s : jsstring) : option (jsstring * jsstring) :=
  match s with
  | [] => None
  | c :: s1 =>
      if c =? 0x22 then Some ([], s1)
      else if c =? 0x5C then
        match s1 with
        | e :: s2 =>
            if e =? 0x75 then
              match s2 with
              | h1 :: h2 :: h3 :: h4 :: s3 =>
                  a ← hexval h1; b ← hexval h2; c' ← hexval h3; d ← hexval h4;
                  '(str, r) ← string_body s3;
                  Some ((((a * 16 + b) * 16 + c') * 16 + d) :: str, r)
              | _ => None
              end
            else
              x ← escape e;
              '(str, r) ← string_body s2;
              Some (x :: str, r)
        | [] => None
        end
      else if c <? 0x20 then None
      else '(str, r) ← string_body s1; Some (c :: str, r)
  end.

Fixpoint digits (s : jsstring) : list N * jsstring :=
  match s with
  | c :: s' =>
      if is_digit c then let '(ds, r) := digits s' in (c :: ds, r)
      else ([], s)
  | [] => ([], [])
  end.

Definition decimal (ds : list N) : Z :=
  fold_left (fun acc d => (acc * 10 + Z.of_N (d - 0x30))%Z) ds 0%Z.

(** [-? int frac? exp?] *)
Definition number (s : jsstring) : option (json * jsstring) :=
  let '(neg, s1) :=
    match s with
    | c :: s' => if c =? 0x2D then (true, s') else (false, s)
    | [] => (false, s)
    end in
  let '(int, s2) := digits s1 in
  match int with
  | [] => None
  | d :: more =>
      if (d =? 0x30) && negb (bool_decide (more = [])) then None
      else
        frac_part ←
          (match s2 with
           | c :: s' =>
               if c =? 0x2E then
                 let '(fr, r) := digits s' in
                 if bool_decide (fr = []) then None else Some (fr, r)
               else Some ([], s2)
           | [] => Some ([], s2)
           end);
        let '(frac, s3) := frac_part in
        exp_part ←
          (match s3 with
           | c :: s' =>
               if (c =? 0x65) || (c =? 0x45) then
                 let '(eneg, s'') :=
                   match s' with
                   | sg :: r => if sg =? 0x2D then (true, r)
                                else if sg =? 0x2B then (false, r)
                                else (false, s')
                   | [] => (false, s')
                   end in
                 let '(ex, r) := digits s'' in
                 if bool_decide (ex = []) then None
                 else Some (if eneg then (- decimal ex)%Z else decimal ex, r)
               else Some (0%Z, s3)
           | [] => Some (0%Z, s3)
           end);
        let '(ex, s4) := exp_part in
        let m := decimal (int ++ frac) in
        Some (JNum (if neg then (- m)%Z else m)
                   (ex - Z.of_nat (length frac))%Z, s4)
  end.

Definition expect (p s : jsstring) : option jsstring :=
  if startsWith p s then Some (drop (length p) s) else None.

Fixpoint value (fuel : nat) (s : jsstring) : option (json * jsstring) :=
  match fuel with
  | O => None
  | S fuel =>
      match skip_ws s with
      | [] => None
      | c :: rest =>
          if c =? 0x22 then
            '(str, r) ← string_body rest; Some (JStr str, r)
          else if c =? 0x7B then
            match skip_ws rest with
            | c2 :: r2 =>
                if c2 =? 0x7D then Some (JObj [], r2)
                else '(kvs, r) ← members fuel (c2 :: r2); Some (JObj kvs, r)
            | [] => None
            end
          else if c =? 0x5B then
            match skip_ws rest with
            | c2 :: r2 =>
                if c2 =? 0x5D then Some (JArr [], r2)
                else '(vs, r) ← elements fuel (c2 :: r2); Some (JArr vs, r)
            | [] => None
            end
          else if c =? 0x6E then r ← expect (lit "null") (c :: rest); Some (JNull, r)
          else if c =? 0x74 then r ← expect (lit "true") (c :: rest); Some (JBool true, r)
          else if c =? 0x66 then r ← expect (lit "false") (c :: rest); Some (JBool false, r)
          else number (c :: rest)
      end
  end
with members (fuel : nat) (s : jsstring)
  : option (list (jsstring * json) * jsstring) :=
  match fuel with
  | O => None
  | S fuel =>
      match skip_ws s with
      | c :: rest =>
          if c =? 0x22 then
            '(k, r1) ← string_body rest;
            match skip_ws r1 with
            | colon :: r2 =>
                if colon =? 0x3A then
                  '(v, r3) ← value fuel r2;
                  match skip_ws r3 with
                  | c3 :: r4 =>
                      if c3 =? 0x7D then Some ([(k, v)], r4)
                      else if c3 =? 0x2C then
                        '(kvs, r5) ← members fuel r4; Some ((k, v) :: kvs, r5)
                      else None
                  | [] => None
                  end
                else None
            | [] => None
            end
          else None
      | [] => None
      end
  end
with elements (fuel : nat) (s : jsstring) : option (list json * jsstring) :=
  match fuel with
  | O => None
  | S fuel =>
      '(v, r1) ← value fuel s;
      match skip_ws r1 with
      | c :: r2 =>
          if c =? 0x5D then Some ([v], r2)
          else if c =? 0x2C then
            '(vs, r3) ← elements fuel r2; Some (v :: vs, r3)
          else None
      | [] => None
      end
  end.

(** The reader: a whole text is one value between optional white space. *)
Definition parse (s : jsstring) : option json :=
  '(v, r) ← value (2 * length s + 2) s;
  match skip_ws r with [] => Some v | _ => None end.

(** An event of the declared shape [{ text?: string }] of the streaming
    tests; other values are outside the declared type and get no reading. *)
Record TextEvent := { text : option jsstring }.

Definition read_TextEvent (s : jsstring) : option TextEvent :=
  v ← parse s;
  match v with
  | JObj fields =>
      match field (lit "text") fields with
      | None => Some {| text := None |}
      | Some (JStr t) => Some {| text := Some t |}
      | Some _ => None
      end
  | _ => None
  end.

(** [(data) => data.text || ''] *)
Definition text_or_empty (data : TextEvent) : option jsstring :=
  Some (or_empty (text data)).

End MiniJSON.

(* ===================================================================== *)
(** ** The host: thrown values, observable actions, the environment *)
(* ===================================================================== *)

Module Host.

(** A thrown or rejected value. *)
Inductive thrown :=
| JsError (name message : jsstring)
    (** an [Error] with its [name] ([Error], [TypeError], [AbortError]) *)
| JsAppError (message code userMessage : jsstring)
    (** [AppError] of [lib/errors.ts] *)
| JsOther (text : jsstring)
    (** any other value, with its [String(value)] *).

(** [new Error(message)] *)
Definition Error (message : jsstring) : thrown := JsError (lit "Error") message.

Definition TypeError : thrown := JsError (lit "TypeError") [].

Definition AbortError : thrown :=
  JsError (lit "AbortError") (lit "The operation was aborted.").

(** [error instanceof Error ? error.message : String(error)] *)
Definition error_message (e : thrown) : jsstring :=
  match e with
  | JsError _ m => m
  | JsAppError m _ _ => m
  | JsOther t => t
  end.

(** What the program does to the outside, in order. *)
Inductive io :=
| Listen (channel : jsstring) (handle : nat)
| Unlisten (handle : nat)
| SpawnMcpServer (server_id : jsstring)
| KillMcpServer (server_id : jsstring)
| WriteMcpStdin (server_id : jsstring) (data : jsstring)
| HttpPost (url : jsstring) (body : jsstring)
| OpenEventSource (url : jsstring) (handle : nat)
| CloseEventSource (handle : nat)
| LlmRequest
| SignalAborted.


Inductive completion (A : Type) :=
| Returned (a : A)
| Threw (e : thrown)
| Hung.
Arguments Returned {A} a.
Arguments Threw {A} e.
Arguments Hung {A}.

(** *** Programs: environment, state, exceptions *)

Definition Prog (R S A : Type) : Type := R -> S -> completion A * S.

Definition ret {R S A} (a : A) : Prog R S A := fun _ w => (Returned a, w).

Definition bind {R S A B} (m : Prog R S A) (k : A -> Prog R S B)
  : Prog R S B :=
  fun env w =>
    match m env w with
    | (Returned a, w') => k a env w'
    | (Threw e, w') => (Threw e, w')
    | (Hung, w') => (Hung, w')
    end.

Definition throw {R S A} (e : thrown) : Prog R S A := fun _ w => (Threw e, w).

(** [try { m } catch (error) { h error }] *)
Definition try_catch {R S A} (m : Prog R S A) (h : thrown -> Prog R S A)
  : Prog R S A :=
  fun env w =>
    match m env w with
    | (Threw e, w') => h e env w'
    | r => r
    end.

(** [try { m } finally { f }], for an [f] that does not throw. *)
Definition try_finally {R S A} (m : Prog R S A) (f : S -> S) : Prog R S A :=
  fun env w => let '(r, w') := m env w in (r, f w').

Definition modify {R S} (f : S -> S) : Prog R S unit :=
  fun _ w => (Returned tt, f w).

Definition gets {R S A} (f : S -> A) : Prog R S A :=
  fun _ w => (Returned (f w), w).

Definition asks {R S A} (f : R -> A) : Prog R S A :=
  fun env w => (Returned (f env), w).

(** A call of a function that reads the state and may throw. *)
Definition call {R S A} (f : S -> completion A) : Prog R S A :=
  fun _ w => (f w, w).

Notation "'let!' x ':=' m 'in' k" := (bind m (fun x => k))
  (at level 10, x name, m at level 100, k at level 200).
Notation "m ';;' k" := (bind m (fun _ => k))
  (at level 100, k at level 200, right associativity).

(** [for (const x of l) { f x }] *)
Fixpoint for_each {R S A} (f : A -> Prog R S unit) (l : list A)
  : Prog R S unit :=
  match l with
  | [] => ret tt
  | x :: rest => f x;; for_each f rest
  end.

End Host.

Import Host.

(* ===================================================================== *)
(** ** services/mcp.ts and store/mcp-store.ts *)
(* ===================================================================== *)

Module Mcp.

(** *** Types of types/mcp.ts *)

(** A key of [pendingRequests]: [number | string]. *)
Inductive rpc_id := IdNum (n : Z) | IdStr (s : jsstring).

#[global] Instance rpc_id_eq_dec : EqDecision rpc_id.
Proof. solve_decision. Defined.

Definition rpc_id_to_sum (i : rpc_id) : Z + jsstring :=
  match i with IdNum n => inl n | IdStr s => inr s end.

Definition rpc_id_of_sum (s : Z + jsstring) : rpc_id :=
  match s with inl n => IdNum n | inr s => IdStr s end.

#[global] Instance rpc_id_countable : Countable rpc_id.
Proof.
  apply (inj_countable' rpc_id_to_sum rpc_id_of_sum).
  intros []; reflexivity.
Defined.

(** A value as a key of the map; [None] for a value that no key the code
    sets can equal (the keys set are the integers of the counter). *)
Definition key_of (v : unknown) : option rpc_id :=
  match v with
  | Some (JNum m e) => IdNum <$> as_integer m e
  | Some (JStr s) => Some (IdStr s)
  | _ => None
  end.

(** [MCPTool]: a descriptor as it came from the server. *)
Abbreviation MCPTool := json.

Inductive Status := disconnected | connecting | connected | error.

Record MCPServerState := {
  state_id : jsstring;
  status : Status;
  tools : json;
    (* declared [MCPTool[]]; what is stored is the value the server sent *)
  state_error : option jsstring
}.

Inductive Transport := stdio | http.

Record MCPServerConfig := {
  id : jsstring;
  name : jsstring;
  enabled : bool;
  transport : Transport;
  command : jsstring;                           (* stdio *)
  args : list jsstring;
  env : option (list (jsstring * jsstring));
  config_url : jsstring;                        (* http *)
  config_headers : option (list (jsstring * jsstring))
}.

(** *** Runtime state *)

(** An entry of [pendingRequests].  [resolve] and [reject] settle the
    promise [promise]; the wrapped pair first clears [timeout]. *)
Record PendingRequest := {
  promise : nat;
  timeout : option nat
}.

Record ServerState := {
  server_transport : Transport;
  requestId : Z;
  pendingRequests : gmap rpc_id PendingRequest;
  buffer : jsstring;                            (* StdioServerState *)
  unlistenStdout : option nat;
  unlistenStderr : option nat;
  sessionId : unknown;                          (* HttpServerState *)
  eventSource : option nat;
  url : jsstring;
  headers : option (list (jsstring * jsstring))
}.

Inductive PromiseState :=
| Pending
| Fulfilled (value : unknown)
| Rejected (reason : thrown).

(** A [setTimeout] callback that has neither run nor been cleared. *)
Inductive Timer :=
| RequestTimeout (server : nat) (req : Z) (p : nat) (method : jsstring)
| SseConnectionTimeout (es : nat) (p : nat).

(** A registered [listen] handler: the closure holds [config.id] and the
    [serverState] object. *)
Inductive Listener :=
| StdoutListener (config_id : jsstring) (server : nat)
| StderrListener (config_id : jsstring).

(** A request whose transmission has not settled: the [.catch] of
    [invoke('write_mcp_stdin')], or the [.then().then().catch()] of [fetch]. *)
Inductive Transmission :=
| StdinWrite (server : nat) (req : Z) (p : nat)
| Post (server_id : jsstring) (server : nat) (req : Z) (p : nat).

Inductive ReadyState := CONNECTING | OPEN | CLOSED.

(** An [EventSource] with the closures of [connectHttpSSE]. *)
Record EventSource := {
  es_serverId : jsstring;
  es_server : nat;
  es_promise : nat;
  readyState : ReadyState
}.

(** Who invoked [resolve] or [reject] of a request. *)
Inductive source := ByResponse | ByTimeout | ByTransmission.

Record World := {
  activeServers : gmap jsstring nat;      (* the module-level Map, by reference *)
  heap : gmap nat ServerState;            (* the ServerState objects *)
  promises : gmap nat PromiseState;
  timers : gmap nat Timer;
  listeners : list (nat * Listener);     (* in registration order *)
  transmissions : gmap nat Transmission;
  eventSources : gmap nat EventSource;
  servers : list MCPServerConfig;         (* useMCPStore: servers *)
  serverStates : gmap jsstring MCPServerState;   (* useMCPStore: serverStates *)
  trace : list io;                        (* oldest first *)
  settlements : list (nat * source);      (* resolve/reject calls, oldest first *)
  fresh : nat;                            (* next handle *)
  awaited : nat;                          (* awaits passed so far *)
}.

Definition empty_world : World :=
  {| activeServers := ∅; heap := ∅; promises := ∅; timers := ∅;
     listeners := []; transmissions := ∅; eventSources := ∅;
     servers := []; serverStates := ∅; trace := []; settlements := [];
     fresh := 0%nat; awaited := 0%nat |}.

(** Field updates. *)
Definition set_activeServers f (w : World) : World :=
  {| activeServers := f (activeServers w); heap := heap w; promises := promises w;
     timers := timers w; listeners := listeners w;
     transmissions := transmissions w; eventSources := eventSources w;
     servers := servers w; serverStates := serverStates w; trace := trace w;
     settlements := settlements w; fresh := fresh w; awaited := awaited w |}.
Definition set_heap f (w : World) : World :=
  {| activeServers := activeServers w; heap := f (heap w); promises := promises w;
     timers := timers w; listeners := listeners w;
     transmissions := transmissions w; eventSources := eventSources w;
     servers := servers w; serverStates := serverStates w; trace := trace w;
     settlements := settlements w; fresh := fresh w; awaited := awaited w |}.
Definition set_promises f (w : World) : World :=
  {| activeServers := activeServers w; heap := heap w; promises := f (promises w);
     timers := timers w; listeners := listeners w;
     transmissions := transmissions w; eventSources := eventSources w;
     servers := servers w; serverStates := serverStates w; trace := trace w;
     settlements := settlements w; fresh := fresh w; awaited := awaited w |}.
Definition set_timers f (w : World) : World :=
  {| activeServers := activeServers w; heap := heap w; promises := promises w;
     timers := f (timers w); listeners := listeners w;
     transmissions := transmissions w; eventSources := eventSources w;
     servers := servers w; serverStates := serverStates w; trace := trace w;
     settlements := settlements w; fresh := fresh w; awaited := awaited w |}.
Definition set_listeners f (w : World) : World :=
  {| activeServers := activeServers w; heap := heap w; promises := promises w;
     timers := timers w; listeners := f (listeners w);
     transmissions := transmissions w; eventSources := eventSources w;
     servers := servers w; serverStates := serverStates w; trace := trace w;
     settlements := settlements w; fresh := fresh w; awaited := awaited w |}.
Definition set_transmissions f (w : World) : World :=
  {| activeServers := activeServers w; heap := heap w; promises := promises w;
     timers := timers w; listeners := listeners w;
     transmissions := f (transmissions w); eventSources := eventSources w;
     servers := servers w; serverStates := serverStates w; trace := trace w;
     settlements := settlements w; fresh := fresh w; awaited := awaited w |}.
Definition set_eventSources f (w : World) : World :=
  {| activeServers := activeServers w; heap := heap w; promises := promises w;
     timers := timers w; listeners := listeners w;
     transmissions := transmissions w; eventSources := f (eventSources w);
     servers := servers w; serverStates := serverStates w; trace := trace w;
     settlements := settlements w; fresh := fresh w; awaited := awaited w |}.
Definition set_serverStates f (w : World) : World :=
  {| activeServers := activeServers w; heap := heap w; promises := promises w;
     timers := timers w; listeners := listeners w;
     transmissions := transmissions w; eventSources := eventSources w;
     servers := servers w; serverStates := f (serverStates w); trace := trace w;
     settlements := settlements w; fresh := fresh w; awaited := awaited w |}.
Definition set_trace f (w : World) : World :=
  {| activeServers := activeServers w; heap := heap w; promises := promises w;
     timers := timers w; listeners := listeners w;
     transmissions := transmissions w; eventSources := eventSources w;
     servers := servers w; serverStates := serverStates w; trace := f (trace w);
     settlements := settlements w; fresh := fresh w; awaited := awaited w |}.
Definition set_settlements f (w : World) : World :=
  {| activeServers := activeServers w; heap := heap w; promises := promises w;
     timers := timers w; listeners := listeners w;
     transmissions := transmissions w; eventSources := eventSources w;
     servers := servers w; serverStates := serverStates w; trace := trace w;
     settlements := f (settlements w); fresh := fresh w; awaited := awaited w |}.
Definition set_fresh f (w : World) : World :=
  {| activeServers := activeServers w; heap := heap w; promises := promises w;
     timers := timers w; listeners := listeners w;
     transmissions := transmissions w; eventSources := eventSources w;
     servers := servers w; serverStates := serverStates w; trace := trace w;
     settlements := settlements w; fresh := f (fresh w); awaited := awaited w |}.
Definition set_awaited f (w : World) : World :=
  {| activeServers := activeServers w; heap := heap w; promises := promises w;
     timers := timers w; listeners := listeners w;
     transmissions := transmissions w; eventSources := eventSources w;
     servers := servers w; serverStates := serverStates w; trace := trace w;
     settlements := settlements w; fresh := fresh w; awaited := f (awaited w) |}.

Definition set_server_pending f (s : ServerState) : ServerState :=
  {| server_transport := server_transport s; requestId := requestId s;
     pendingRequests := f (pendingRequests s); buffer := buffer s;
     unlistenStdout := unlistenStdout s; unlistenStderr := unlistenStderr s;
     sessionId := sessionId s; eventSource := eventSource s;
     url := url s; headers := headers s |}.
Definition set_server_requestId n (s : ServerState) : ServerState :=
  {| server_transport := server_transport s; requestId := n;
     pendingRequests := pendingRequests s; buffer := buffer s;
     unlistenStdout := unlistenStdout s; unlistenStderr := unlistenStderr s;
     sessionId := sessionId s; eventSource := eventSource s;
     url := url s; headers := headers s |}.
Definition set_server_buffer b (s : ServerState) : ServerState :=
  {| server_transport := server_transport s; requestId := requestId s;
     pendingRequests := pendingRequests s; buffer := b;
     unlistenStdout := unlistenStdout s; unlistenStderr := unlistenStderr s;
     sessionId := sessionId s; eventSource := eventSource s;
     url := url s; headers := headers s |}.
Definition set_server_unlistenStdout h (s : ServerState) : ServerState :=
  {| server_transport := server_transport s; requestId := requestId s;
     pendingRequests := pendingRequests s; buffer := buffer s;
     unlistenStdout := h; unlistenStderr := unlistenStderr s;
     sessionId := sessionId s; eventSource := eventSource s;
     url := url s; headers := headers s |}.
Definition set_server_unlistenStderr h (s : ServerState) : ServerState :=
  {| server_transport := server_transport s; requestId := requestId s;
     pendingRequests := pendingRequests s; buffer := buffer s;
     unlistenStdout := unlistenStdout s; unlistenStderr := h;
     sessionId := sessionId s; eventSource := eventSource s;
     url := url s; headers := headers s |}.
Definition set_server_sessionId v (s : ServerState) : ServerState :=
  {| server_transport := server_transport s; requestId := requestId s;
     pendingRequests := pendingRequests s; buffer := buffer s;
     unlistenStdout := unlistenStdout s; unlistenStderr := unlistenStderr s;
     sessionId := v; eventSource := eventSource s;
     url := url s; headers := headers s |}.
Definition set_server_eventSource h (s : ServerState) : ServerState :=
  {| server_transport := server_transport s; requestId := requestId s;
     pendingRequests := pendingRequests s; buffer := buffer s;
     unlistenStdout := unlistenStdout s; unlistenStderr := unlistenStderr s;
     sessionId := sessionId s; eventSource := h;
     url := url s; headers := headers s |}.

(** *** What the environment does *)

(** Something that happens between two steps of the program. *)
Inductive event :=
| McpStdout (server_id data : jsstring)      (* the host emits mcp-stdout *)
| McpStderr (server_id data : jsstring)
| TimerFires (t : nat)
| TransmissionFails (h : nat) (e : thrown)   (* the write or the POST rejects *)
| PostNotOk (h : nat) (status_line : jsstring)
| PostReplies (h : nat) (body : jsstring)    (* a 2xx reply, with its body *)
| SseOpens (es : nat)
| SseErrors (es : nat) (closed : bool)
| SseMessage (es : nat) (data : jsstring).

(** The result of a call into the host or the network that the program
    awaits directly. *)
Inductive host_result := HostOk | HostFails (e : thrown).

(** The environment of a run.  The platform functions, and for the n-th
    await of the run: what happens while the program waits, and how the
    awaited host call ends. *)
Record Env := {
  JSON_parse : jsstring -> option json;
  JSON_stringify : json -> jsstring;
  ToString : json -> jsstring;
  sseUrl : jsstring -> option (list (jsstring * jsstring)) -> option jsstring;
  during : nat -> list event;
  host : nat -> host_result
}.


(** *** Programs over the MCP state *)

Definition M : Type -> Type := Prog Env World.

Definition perform (a : io) : M unit :=
  modify (set_trace (fun t => t ++ [a])).

(** A fresh handle (for an object, a promise, a timer, a listener). *)
Definition alloc : M nat :=
  fun _ w => (Returned (fresh w), set_fresh S w).

(** *** store/mcp-store.ts *)

Record StateUpdate := {
  upd_status : option Status;
  upd_tools : option json;
  upd_error : option (option jsstring)
}.

(** [setServerState(id, stateUpdate)]: the update is spread over the
    current state, or over a disconnected state without tools. *)
Definition setServerState (server_id : jsstring) (u : StateUpdate) : M unit :=
  modify (set_serverStates (fun states =>
    let currentState :=
      default {| state_id := server_id; status := disconnected;
                 tools := JArr []; state_error := None |}
              (states !! server_id) in
    <[server_id :=
        {| state_id := state_id currentState;
           status := default (status currentState) (upd_status u);
           tools := default (tools currentState) (upd_tools u);
           state_error := default (state_error currentState) (upd_error u) |}]>
      states)).

Definition clearServerState (server_id : jsstring) : M unit :=
  modify (set_serverStates (delete server_id)).

(** *** Promises, timers *)

(** Settling a promise: only the first call has an effect. *)
Definition settle (p : nat) (s : PromiseState) (w : World) : World :=
  match promises w !! p with
  | Some Pending => set_promises <[p := s]> w
  | _ => w
  end.

Definition record_settlement (p : nat) (src : source) (w : World) : World :=
  set_settlements (fun l => l ++ [(p, src)]) w.

Definition clearTimeout (t : nat) (w : World) : World :=
  set_timers (delete t) w.

(** Calling [pending.resolve] / [pending.reject]: the wrapped closure
    clears its timer, then settles the promise. *)
Definition call_pending (src : source) (pending : PendingRequest)
    (s : PromiseState) (w : World) : World :=
  let w1 := match timeout pending with
            | Some t => clearTimeout t w
            | None => w
            end in
  settle (promise pending) s (record_settlement (promise pending) src w1).

Definition update_server (server : nat) (f : ServerState -> ServerState)
    (w : World) : World :=
  set_heap (fun h => match h !! server with
                     | Some s => <[server := f s]> h
                     | None => h
                     end) w.

(** [server.pendingRequests.delete(id)] on the object [server]. *)
Definition delete_pending (server : nat) (k : rpc_id) (w : World) : World :=
  update_server server (set_server_pending (delete k)) w.

(** The object [activeServers.get(serverId)]. *)
Definition active_server (serverId : jsstring) (w : World)
  : option (nat * ServerState) :=
  server ← activeServers w !! serverId;
  s ← heap w !! server;
  Some (server, s).

(** *** The shared response handler *)

(** The argument of [new Error(...)] as a message. *)
Definition Error_message (env : Env) (v : unknown) : jsstring :=
  match v with
  | None => []
  | Some (JStr s) => s
  | Some v => ToString env v
  end.

(** [handleResponse(serverId, response)] *)
Definition handleResponse (serverId : jsstring) (response : unknown) : M unit :=
  fun env w =>
    match active_server serverId w with
    | None => (Returned tt, w)
    | Some (server, s) =>
        match response with
        | None | Some JNull => (Threw TypeError, w)
        | Some _ =>
            match (k ← key_of (opt_get response (lit "id"));
                   pending ← pendingRequests s !! k;
                   Some (k, pending)) with
            | None => (Returned tt, w)
            | Some (k, pending) =>
                let w1 := delete_pending server k w in
                let err := opt_get response (lit "error") in
                if truthy err then
                  (Returned tt,
                   call_pending ByResponse pending
                     (Rejected (Error (Error_message env
                                         (opt_get err (lit "message")))))
                     w1)
                else
                  (Returned tt,
                   call_pending ByResponse pending
                     (Fulfilled (opt_get response (lit "result"))) w1)
            end
        end
    end.

(** *** Requests *)

Definition MCP_PROTOCOL_VERSION : jsstring := lit "2024-11-05".
Definition MCP_CLIENT_INFO : json :=
  JObj [(lit "name", JStr (lit "ai-playground"));
        (lit "version", JStr (lit "0.1.0-beta.1"))].

(** [++server.requestId] on a double: exact below 2^53, where it stays. *)
Definition increment (n : Z) : Z :=
  if (n <? 2 ^ 53)%Z then (n + 1)%Z else n.

Definition JsonRpcRequest (req : Z) (method : jsstring) (params : unknown)
  : json :=
  JObj ([(lit "jsonrpc", JStr (lit "2.0")); (lit "id", JNum req 0);
         (lit "method", JStr method)]
        ++ match params with
           | Some p => [(lit "params", p)]
           | None => []
           end).

(** The executor of [new Promise((resolve, reject) => ...)] in both
    [sendStdioRequest] and [sendHttpRequest], up to the transmission:
    the entry is set, the timer is started, and the entry is set again
    with the closures that clear the timer.  Gives the promise and the
    timer. *)
Definition register_request (server : nat) (req : Z) (method : jsstring)
  : M (nat * nat) :=
  let! p := alloc in
  modify (set_promises <[p := Pending]>);;
  modify (update_server server (set_server_pending
            <[IdNum req := {| promise := p; timeout := None |}]>));;
  let! t := alloc in
  modify (set_timers <[t := RequestTimeout server req p method]>);;
  modify (update_server server (set_server_pending
            <[IdNum req := {| promise := p; timeout := Some t |}]>));;
  ret (p, t).

(** [sendStdioRequest(serverId, method, params)], to the point where the
    promise is returned. *)
Definition sendStdioRequest (serverId method : jsstring) (params : unknown)
  : M (nat * nat) :=
  let! found := gets (active_server serverId) in
  match found with
  | Some (server, s) =>
      match server_transport s with
      | stdio =>
          let req := increment (requestId s) in
          modify (update_server server (set_server_requestId req));;
          let! pt := register_request server req method in
          let '(p, t) := pt in
          let! stringify := asks JSON_stringify in
          let message := stringify (JsonRpcRequest req method params) ++ [LF] in
          let! h := alloc in
          perform (WriteMcpStdin serverId message);;
          modify (set_transmissions <[h := StdinWrite server req p]>);;
          ret (p, t)
      | http =>
          throw (Error (lit "Stdio MCP server " ++ serverId
                        ++ lit " is not running"))
      end
  | None =>
      throw (Error (lit "Stdio MCP server " ++ serverId
                    ++ lit " is not running"))
  end.

(** [sendHttpRequest(serverId, method, params)], likewise. *)
Definition sendHttpRequest (serverId method : jsstring) (params : unknown)
  : M (nat * nat) :=
  let! found := gets (active_server serverId) in
  match found with
  | Some (server, s) =>
      match server_transport s with
      | http =>
          let req := increment (requestId s) in
          modify (update_server server (set_server_requestId req));;
          let! pt := register_request server req method in
          let '(p, t) := pt in
          let! stringify := asks JSON_stringify in
          let! h := alloc in
          perform (HttpPost (url s)
                     (stringify (JsonRpcRequest req method params)));;
          modify (set_transmissions <[h := Post serverId server req p]>);;
          ret (p, t)
      | stdio =>
          throw (Error (lit "HTTP MCP server " ++ serverId
                        ++ lit " is not running"))
      end
  | None =>
      throw (Error (lit "HTTP MCP server " ++ serverId
                    ++ lit " is not running"))
  end.

(** *** Event handlers *)

(** The callback of the request timer. *)
Definition request_timeout (server : nat) (req : Z) (p : nat)
    (method : jsstring) (w : World) : World :=
  settle p (Rejected (Error (lit "Request timeout for " ++ method)))
    (record_settlement p ByTimeout (delete_pending server (IdNum req) w)).

(** The [.catch] of a transmission. *)
Definition transmission_failed (server : nat) (req : Z) (p : nat)
    (e : thrown) (w : World) : World :=
  settle p (Rejected e)
    (record_settlement p ByTransmission
       (delete_pending server (IdNum req) w)).

(** One line of the stdout buffer. *)
Definition stdout_line (config_id : jsstring) (line : jsstring) : M unit :=
  if truthy_str (trim line) then
    try_catch
      (let! parse := asks JSON_parse in
       match parse line return M unit with
       | Some response => handleResponse config_id (Some response)
       | None => throw (JsError (lit "SyntaxError") [])
       end)
      (fun _ => ret tt)
  else ret tt.

(** The handler registered for [mcp-stdout]. *)
Definition on_stdout (config_id : jsstring) (server : nat)
    (server_id data : jsstring) : M unit :=
  if negb (str_eqb server_id config_id) then ret tt
  else
    let! h := gets heap in
    match h !! server with
    | None => ret tt
    | Some serverState =>
        let buffer1 := buffer serverState ++ data ++ [LF] in
        let '(lines, popped) := pop (split LF buffer1) in
        modify (update_server server (set_server_buffer (or_empty popped)));;
        for_each (stdout_line config_id) lines
    end.

Definition set_readyState (es : nat) (r : ReadyState) (w : World) : World :=
  set_eventSources (fun m =>
    match m !! es with
    | Some e => <[es := {| es_serverId := es_serverId e;
                          es_server := es_server e;
                          es_promise := es_promise e;
                          readyState := r |}]> m
    | None => m
    end) w.

(** [eventSource.close()] *)
Definition close_eventSource (es : nat) : M unit :=
  perform (CloseEventSource es);;
  modify (set_readyState es CLOSED).

(** [eventSource.onmessage] *)
Definition on_sse_message (e : EventSource) (data : jsstring) : M unit :=
  try_catch
    (let! parse := asks JSON_parse in
     match parse data return M unit with
     | None => throw (JsError (lit "SyntaxError") [])
     | Some JNull => throw TypeError
     | Some d =>
         if truthy (opt_get (Some d) (lit "endpoint")) then
           modify (update_server (es_server e)
                     (set_server_sessionId (opt_get (Some d) (lit "sessionId"))))
         else if is_string (opt_get (Some d) (lit "jsonrpc")) (lit "2.0")
                 && bool_decide (is_Some (opt_get (Some d) (lit "id"))) then
           handleResponse (es_serverId e) (Some d)
         else ret tt
     end)
    (fun _ => ret tt).

(** The direct reply to a POST: [data?.jsonrpc === '2.0' && data.id === id]. *)
Definition on_post_reply (server_id : jsstring) (req : Z) (body : jsstring)
  : M unit :=
  let! parse := asks JSON_parse in
  let data := parse body in
  if is_string (opt_get data (lit "jsonrpc")) (lit "2.0")
     && is_number (opt_get data (lit "id")) req
  then handleResponse server_id data
  else ret tt.

Definition dispatch (ev : event) : M unit :=
  match ev with
  | McpStdout server_id data =>
      let! ls := gets listeners in
      for_each (fun '(_, l) =>
                  match l with
                  | StdoutListener config_id server =>
                      on_stdout config_id server server_id data
                  | StderrListener _ => ret tt
                  end) ls
  | McpStderr _ _ => ret tt
  | TimerFires t =>
      let! ts := gets timers in
      match ts !! t with
      | Some (RequestTimeout server req p method) =>
          modify (clearTimeout t);;
          modify (request_timeout server req p method)
      | Some (SseConnectionTimeout es p) =>
          modify (clearTimeout t);;
          let! sources := gets eventSources in
          match sources !! es with
          | Some e =>
              match readyState e with
              | OPEN => ret tt
              | _ =>
                  close_eventSource es;;
                  modify (settle p (Rejected (Error (lit "SSE connection timeout"))))
              end
          | None => ret tt
          end
      | None => ret tt
      end
  | TransmissionFails h e =>
      let! tr := gets transmissions in
      match tr !! h with
      | Some (StdinWrite server req p) | Some (Post _ server req p) =>
          modify (set_transmissions (delete h));;
          modify (transmission_failed server req p e)
      | None => ret tt
      end
  | PostNotOk h status_line =>
      let! tr := gets transmissions in
      match tr !! h with
      | Some (Post _ server req p) =>
          modify (set_transmissions (delete h));;
          modify (transmission_failed server req p
                    (Error (lit "HTTP " ++ status_line)))
      | _ => ret tt
      end
  | PostReplies h body =>
      let! tr := gets transmissions in
      match tr !! h with
      | Some (Post server_id server req p) =>
          modify (set_transmissions (delete h));;
          on_post_reply server_id req body
      | _ => ret tt
      end
  | SseOpens es =>
      let! sources := gets eventSources in
      match sources !! es with
      | Some e =>
          match readyState e with
          | CLOSED => ret tt
          | _ =>
              modify (set_readyState es OPEN);;
              modify (settle (es_promise e) (Fulfilled None))
          end
      | None => ret tt
      end
  | SseErrors es closed =>
      let! sources := gets eventSources in
      match sources !! es with
      | Some e =>
          match readyState e with
          | CLOSED => ret tt
          | _ =>
              modify (set_readyState es (if closed then CLOSED else CONNECTING));;
              modify (settle (es_promise e)
                        (Rejected (Error (lit "Failed to connect to SSE endpoint"))))
          end
      | None => ret tt
      end
  | SseMessage es data =>
      let! sources := gets eventSources in
      match sources !! es with
      | Some e =>
          match readyState e with
          | CLOSED => ret tt
          | _ => on_sse_message e data
          end
      | None => ret tt
      end
  end.

(** An event runs in a task of its own: what it throws is not seen by the
    program. *)
Definition run_event (env : Env) (w : World) (ev : event) : World :=
  snd (dispatch ev env w).

Definition run_events (env : Env) (evs : list event) (w : World) : World :=
  fold_left (run_event env) evs w.

(** *** Awaiting *)

(** What happens while the program waits at its next await. *)
Definition wait : M unit :=
  fun env w =>
    (Returned tt, run_events env (during env (awaited w)) (set_awaited S w)).

(** [await] of a call into the host. *)
Definition await_host : M unit :=
  let! n := gets awaited in
  wait;;
  let! r := asks (fun env => host env n) in
  match r with
  | HostOk => ret tt
  | HostFails e => throw e
  end.

(** [await] of a promise guarded by the timer [t]: when the events of the
    wait leave it pending, the timer, if still set, fires in the end. *)
Definition await_promise (pt : nat * nat) : M unknown :=
  let '(p, t) := pt in
  wait;;
  let! ps := gets promises in
  (match ps !! p with
   | Some Pending => fun env w => (Returned tt, run_event env w (TimerFires t))
   | _ => ret tt
   end);;
  let! ps := gets promises in
  match ps !! p with
  | Some (Fulfilled v) => ret v
  | Some (Rejected e) => throw e
  | _ => fun _ w => (Hung, w)
  end.

(** *** Stdio transport *)

Definition initializeStdioServer (serverId : jsstring) : M unit :=
  let! pt := sendStdioRequest serverId (lit "initialize")
               (Some (JObj [(lit "protocolVersion", JStr MCP_PROTOCOL_VERSION);
                            (lit "capabilities", JObj [(lit "tools", JObj [])]);
                            (lit "clientInfo", MCP_CLIENT_INFO)])) in
  let! _ := await_promise pt in
  let! stringify := asks JSON_stringify in
  let notification :=
    stringify (JObj [(lit "jsonrpc", JStr (lit "2.0"));
                     (lit "method", JStr (lit "notifications/initialized"))])
    ++ [LF] in
  perform (WriteMcpStdin serverId notification);;
  await_host.

(** [result?.tools || []]: declared [MCPTool[]], it is the value of the
    field when that is truthy, an array or not. *)
Definition tools_of_result (result : unknown) : json :=
  or_else (opt_get result (lit "tools")) (JArr []).

Definition listToolsStdio (serverId : jsstring) : M json :=
  let! pt := sendStdioRequest serverId (lit "tools/list") None in
  let! result := await_promise pt in
  ret (tools_of_result result).

(** [await listen(channel, handler)] *)
Definition listen (channel : jsstring) (l : Listener) : M nat :=
  let! h := alloc in
  perform (Listen channel h);;
  await_host;;
  modify (set_listeners (fun ls => ls ++ [(h, l)]));;
  ret h.

(** [unlisten?.()] *)
Definition unlisten (h : option nat) : M unit :=
  match h with
  | Some h =>
      perform (Unlisten h);;
      modify (set_listeners (filter (fun '(h', _) => h' <> h)))
  | None => ret tt
  end.

Definition startStdioServer (config : MCPServerConfig) : M unit :=
  let! active := gets activeServers in
  if bool_decide (is_Some (active !! id config)) then ret tt
  else
    setServerState (id config)
      {| upd_status := Some connecting; upd_tools := None;
         upd_error := Some None |};;
    try_catch
      (let! serverState := alloc in
       modify (set_heap <[serverState :=
                 {| server_transport := stdio; requestId := 0;
                    pendingRequests := ∅; buffer := [];
                    unlistenStdout := None; unlistenStderr := None;
                    sessionId := None; eventSource := None;
                    url := []; headers := None |}]>);;
       let! h1 := listen (lit "mcp-stdout")
                    (StdoutListener (id config) serverState) in
       modify (update_server serverState (set_server_unlistenStdout (Some h1)));;
       let! h2 := listen (lit "mcp-stderr") (StderrListener (id config)) in
       modify (update_server serverState (set_server_unlistenStderr (Some h2)));;
       modify (set_activeServers <[id config := serverState]>);;
       perform (SpawnMcpServer (id config));;
       await_host;;
       initializeStdioServer (id config);;
       let! tools := listToolsStdio (id config) in
       setServerState (id config)
         {| upd_status := Some connected; upd_tools := Some tools;
            upd_error := None |})
      (fun error =>
         setServerState (id config)
           {| upd_status := Some Mcp.error; upd_tools := None;
              upd_error := Some (Some (error_message error)) |};;
         let! found := gets (active_server (id config)) in
         match found with
         | Some (_, server) =>
             unlisten (unlistenStdout server);;
             unlisten (unlistenStderr server);;
             modify (set_activeServers (delete (id config)))
         | None => ret tt
         end;;
         throw error).

Definition stopStdioServer (serverId : jsstring) (server : ServerState)
  : M unit :=
  try_catch
    (unlisten (unlistenStdout server);;
     unlisten (unlistenStderr server);;
     perform (KillMcpServer serverId);;
     await_host;;
     modify (set_activeServers (delete serverId));;
     clearServerState serverId)
    (fun error =>
       setServerState serverId
         {| upd_status := Some Mcp.error; upd_tools := None;
            upd_error := Some (Some (error_message error)) |}).

(** *** HTTP/SSE transport *)

(** [connectHttpSSE(serverId, server)], to the point where the promise is
    returned; with the promise, the timer of the connection timeout. *)
Definition connectHttpSSE (serverId : jsstring) (server : nat)
  : M (nat * nat) :=
  let! p := alloc in
  modify (set_promises <[p := Pending]>);;
  let! h := gets heap in
  let! mkUrl := asks sseUrl in
  match (s ← h !! server; mkUrl (url s) (headers s)) with
  | None => modify (settle p (Rejected TypeError));; ret (p, p)
  | Some sse =>
      let! es := alloc in
      perform (OpenEventSource sse es);;
      modify (set_eventSources <[es := {| es_serverId := serverId;
                                          es_server := server;
                                          es_promise := p;
                                          readyState := CONNECTING |}]>);;
      modify (update_server server (set_server_eventSource (Some es)));;
      let! t := alloc in
      modify (set_timers <[t := SseConnectionTimeout es p]>);;
      ret (p, t)
  end.

Definition initializeHttpServer (serverId : jsstring) : M unit :=
  let! pt := sendHttpRequest serverId (lit "initialize")
               (Some (JObj [(lit "protocolVersion", JStr MCP_PROTOCOL_VERSION);
                            (lit "capabilities", JObj [(lit "tools", JObj [])]);
                            (lit "clientInfo", MCP_CLIENT_INFO)])) in
  let! _ := await_promise pt in
  let! found := gets (active_server serverId) in
  match found with
  | Some (_, server) =>
      let! stringify := asks JSON_stringify in
      perform (HttpPost (url server)
                 (stringify
                    (JObj [(lit "jsonrpc", JStr (lit "2.0"));
                           (lit "method",
                            JStr (lit "notifications/initialized"))])));;
      await_host
  | None => ret tt
  end.

Definition listToolsHttp (serverId : jsstring) : M json :=
  let! pt := sendHttpRequest serverId (lit "tools/list") None in
  let! result := await_promise pt in
  ret (tools_of_result result).

Definition startHttpServer (config : MCPServerConfig) : M unit :=
  let! active := gets activeServers in
  if bool_decide (is_Some (active !! id config)) then ret tt
  else
    setServerState (id config)
      {| upd_status := Some connecting; upd_tools := None;
         upd_error := Some None |};;
    try_catch
      (let! serverState := alloc in
       modify (set_heap <[serverState :=
                 {| server_transport := http; requestId := 0;
                    pendingRequests := ∅; buffer := [];
                    unlistenStdout := None; unlistenStderr := None;
                    sessionId := None; eventSource := None;
                    url := config_url config;
                    headers := config_headers config |}]>);;
       modify (set_activeServers <[id config := serverState]>);;
       let! pt := connectHttpSSE (id config) serverState in
       let! _ := await_promise pt in
       initializeHttpServer (id config);;
       let! tools := listToolsHttp (id config) in
       setServerState (id config)
         {| upd_status := Some connected; upd_tools := Some tools;
            upd_error := None |})
      (fun error =>
         setServerState (id config)
           {| upd_status := Some Mcp.error; upd_tools := None;
              upd_error := Some (Some (error_message error)) |};;
         let! found := gets (active_server (id config)) in
         match found ≫= (fun '(_, server) => eventSource server) with
         | Some es => close_eventSource es
         | None => ret tt
         end;;
         modify (set_activeServers (delete (id config)));;
         throw error).

Definition stopHttpServer (serverId : jsstring) (server : ServerState)
  : M unit :=
  match eventSource server with
  | Some es => close_eventSource es
  | None => ret tt
  end;;
  modify (set_activeServers (delete serverId));;
  clearServerState serverId.

(** *** Server lifecycle *)

Definition startMCPServer (config : MCPServerConfig) : M unit :=
  match transport config with
  | stdio => startStdioServer config
  | http => startHttpServer config
  end.

Definition stopMCPServer (serverId : jsstring) : M unit :=
  let! found := gets (active_server serverId) in
  match found with
  | None => ret tt
  | Some (_, server) =>
      match server_transport server with
      | stdio => stopStdioServer serverId server
      | http => stopHttpServer serverId server
      end
  end.

(** *** Public API *)

(** [{ content: [{ type: 'text', text }], isError: true }] *)
Definition error_result (text : jsstring) : json :=
  JObj [(lit "content",
         JArr [JObj [(lit "type", JStr (lit "text"));
                     (lit "text", JStr text)]]);
        (lit "isError", JBool true)].

Definition callTool (serverId toolName : jsstring) (args : json) : M unknown :=
  let! found := gets (active_server serverId) in
  match found with
  | None =>
      ret (Some (error_result (lit "Error: Server " ++ serverId
                               ++ lit " not running")))
  | Some (_, server) =>
      try_catch
        (let sendFn := match server_transport server with
                       | stdio => sendStdioRequest
                       | http => sendHttpRequest
                       end in
         let! pt := sendFn serverId (lit "tools/call")
                      (Some (JObj [(lit "name", JStr toolName);
                                   (lit "arguments", args)])) in
         await_promise pt)
        (fun error =>
           ret (Some (error_result (lit "Error: " ++ error_message error))))
  end.

(** [t.name === toolName] for an entry [t] of the list: [null] has no
    properties, and reading one throws. *)
Definition tool_named (toolName : jsstring) (t : MCPTool) : completion bool :=
  match t with
  | JNull => Threw TypeError
  | _ => Returned (is_string (opt_get (Some t) (lit "name")) toolName)
  end.

(** [items.some((t) => t.name === toolName)] *)
Fixpoint some_named (toolName : jsstring) (items : list MCPTool)
  : completion bool :=
  match items with
  | [] => Returned false
  | t :: rest =>
      match tool_named toolName t with
      | Returned false => some_named toolName rest
      | r => r
      end
  end.

(** [state.tools?.some((t) => t.name === toolName)]: [undefined] for
    [null]; a value that is not an array has no method [some]. *)
Definition hasTool (toolName : jsstring) (tools : json) : completion bool :=
  match tools with
  | JNull => Returned false
  | JArr items => some_named toolName items
  | _ => Threw TypeError
  end.

(** [findToolServer(toolName)] on the store. *)
Fixpoint find_in (states : gmap jsstring MCPServerState)
    (toolName : jsstring) (configs : list MCPServerConfig)
  : completion (option jsstring) :=
  match configs with
  | [] => Returned None
  | server :: rest =>
      if negb (enabled server) then find_in states toolName rest
      else
        match states !! id server with
        | Some state =>
            match status state with
            | connected =>
                match hasTool toolName (tools state) with
                | Returned true => Returned (Some (id server))
                | Returned false => find_in states toolName rest
                | Threw e => Threw e
                | Hung => Hung
                end
            | _ => find_in states toolName rest
            end
        | None => find_in states toolName rest
        end
  end.

Definition findToolServer (toolName : jsstring) (w : World)
  : completion (option jsstring) :=
  find_in (serverStates w) toolName (servers w).

End Mcp.

(* ===================================================================== *)
(** ** hooks/use-chat-actions.ts, with the store and the services it uses *)
(* ===================================================================== *)

Module Chat.

(** *** store/chat-store.ts *)

Inductive MessageRole := user | assistant | system | tool.

Inductive ToolStatus := pending | executing | success | error.

Record ToolCall := {
  call_id : jsstring;
  call_name : jsstring;
  call_arguments : json
}.

Record ToolCallData := {
  data_id : jsstring;
  data_name : jsstring;
  data_arguments : json;
  status : ToolStatus;
  result : option jsstring
}.

Inductive ContentPart :=
| TextPart (text : jsstring)
| ImagePart (data mimeType : jsstring)
| OtherPart.

(** [string | ContentPart[]] *)
Inductive MessageContent :=
| Text (s : jsstring)
| Parts (parts : list ContentPart).

(** A message; ids stand for the strings of [generateId], time stamps are
    left out. *)
Record ChatMessage := {
  message_id : nat;
  role : MessageRole;
  content : MessageContent;
  isStreaming : option bool;
  toolCalls : option (list ToolCallData);
  toolCallId : option jsstring;
  toolName : option jsstring
}.

(** The conversations of the store, seen from [activeConversationId]: there
    is no active id, or it names a conversation (whose messages are kept),
    or it names none.  Titles and other conversations are left out; a
    message id occurs in one conversation. *)
Inductive Conversations :=
| NoActiveId
| Active (messages : list ChatMessage)
| UnknownId.

(** What the LLM service is told to do at its n-th call: a failure before
    any request (unknown model, no API key), or a request that fails, or
    one that streams [chunks] and gives [response]; when the user stops
    the turn during the request, only the first [delivered] chunks have
    been passed on. *)
Record LLMResponse := {
  response_content : jsstring;
  response_toolCalls : option (list ToolCall);
  finishReason : option jsstring
}.

Inductive LlmOutcome :=
| FailsBeforeRequest (e : thrown)
| RequestFails (e : thrown)
| Responds (response : LLMResponse).

Record LlmScript := {
  outcome : LlmOutcome;
  chunks : list jsstring;
  delivered : nat
}.

Record GeneratedImage := {
  image_data : jsstring;
  image_mimeType : jsstring;
  revisedPrompt : option jsstring
}.

Inductive ImageOutcome :=
| ImageFailsBeforeRequest (e : thrown)
| ImageRequestFails (e : thrown)
| Generates (images : list GeneratedImage).

Record World := {
  mcp : Mcp.World;
  conversations : Conversations;
  isGenerating : bool;
  store_error : option jsstring;          (* useChatStore: error *)
  controllers : list bool;
    (* the AbortControllers made so far, with signal.aborted *)
  abortController : option nat;
    (* abortControllerRef.current: one of them, or null *)
  others : list nat;
    (* the assistant messages of the other turns in progress *)
  onError : list jsstring;                (* the calls of options.onError *)
  generated : nat;                        (* ids given by generateId *)
  llm_calls : nat               (* calls of the LLM service by the turn *)
}.

(** What happens in the hook while a turn awaits: the user presses Stop;
    the user presses Regenerate, which starts another turn; such another
    turn comes to its end ([failure] is what its [try] block threw, if it
    threw).  Of another turn the model keeps what it does at its start and
    at its end to the state that the turns share (the store and
    [abortControllerRef]); its own requests, which are not in the trace and
    the count of the turn, and what it writes into its own messages
    meanwhile are left out. *)
Inductive interruption :=
| Stops
| Regenerates
| OtherTurnEnds (failure : option thrown).

Record Env := {
  mcp_env : Mcp.Env;
  llm : nat -> LlmScript;
  image : nat -> ImageOutcome;
  interruptions : nat -> list interruption
    (* what happens during the n-th await, in order, after what the
       services do in it *)
}.

Definition M : Type -> Type := Prog Env World.

Definition set_mcp f (w : World) : World :=
  {| mcp := f (mcp w); conversations := conversations w;
     isGenerating := isGenerating w; store_error := store_error w;
     controllers := controllers w; abortController := abortController w;
     others := others w; onError := onError w; generated := generated w;
     llm_calls := llm_calls w |}.
Definition set_conversations f (w : World) : World :=
  {| mcp := mcp w; conversations := f (conversations w);
     isGenerating := isGenerating w; store_error := store_error w;
     controllers := controllers w; abortController := abortController w;
     others := others w; onError := onError w; generated := generated w;
     llm_calls := llm_calls w |}.
Definition setIsGenerating (b : bool) (w : World) : World :=
  {| mcp := mcp w; conversations := conversations w; isGenerating := b;
     store_error := store_error w; controllers := controllers w;
     abortController := abortController w; others := others w;
     onError := onError w; generated := generated w;
     llm_calls := llm_calls w |}.
Definition setError (e : option jsstring) (w : World) : World :=
  {| mcp := mcp w; conversations := conversations w;
     isGenerating := isGenerating w; store_error := e;
     controllers := controllers w; abortController := abortController w;
     others := others w; onError := onError w; generated := generated w;
     llm_calls := llm_calls w |}.
Definition set_controllers f (w : World) : World :=
  {| mcp := mcp w; conversations := conversations w;
     isGenerating := isGenerating w; store_error := store_error w;
     controllers := f (controllers w);
     abortController := abortController w; others := others w;
     onError := onError w; generated := generated w;
     llm_calls := llm_calls w |}.
Definition set_abortController (c : option nat) (w : World) : World :=
  {| mcp := mcp w; conversations := conversations w;
     isGenerating := isGenerating w; store_error := store_error w;
     controllers := controllers w; abortController := c;
     others := others w; onError := onError w; generated := generated w;
     llm_calls := llm_calls w |}.
Definition set_others f (w : World) : World :=
  {| mcp := mcp w; conversations := conversations w;
     isGenerating := isGenerating w; store_error := store_error w;
     controllers := controllers w; abortController := abortController w;
     others := f (others w); onError := onError w;
     generated := generated w; llm_calls := llm_calls w |}.
Definition call_onError (m : jsstring) (w : World) : World :=
  {| mcp := mcp w; conversations := conversations w;
     isGenerating := isGenerating w; store_error := store_error w;
     controllers := controllers w; abortController := abortController w;
     others := others w; onError := onError w ++ [m];
     generated := generated w; llm_calls := llm_calls w |}.
Definition set_generated f (w : World) : World :=
  {| mcp := mcp w; conversations := conversations w;
     isGenerating := isGenerating w; store_error := store_error w;
     controllers := controllers w; abortController := abortController w;
     others := others w; onError := onError w;
     generated := f (generated w); llm_calls := llm_calls w |}.
Definition set_llm_calls f (w : World) : World :=
  {| mcp := mcp w; conversations := conversations w;
     isGenerating := isGenerating w; store_error := store_error w;
     controllers := controllers w; abortController := abortController w;
     others := others w; onError := onError w; generated := generated w;
     llm_calls := f (llm_calls w) |}.

Definition map_messages (f : ChatMessage -> ChatMessage) (c : Conversations)
  : Conversations :=
  match c with
  | Active messages => Active (map f messages)
  | _ => c
  end.

Definition selectActiveMessages (w : World) : list ChatMessage :=
  match conversations w with
  | Active messages => messages
  | _ => []
  end.

(** [addMessage(message)]: a conversation is created when there is no
    active id; the message gets a new id. *)
Definition addMessage (role : MessageRole) (content : MessageContent)
    (isStreaming : option bool) (toolCallId toolName : option jsstring)
  : M unit :=
  let! n := gets generated in
  modify (set_generated S);;
  let newMessage :=
    {| message_id := n; role := role; content := content;
       isStreaming := isStreaming; toolCalls := None;
       toolCallId := toolCallId; toolName := toolName |} in
  modify (set_conversations (fun c =>
    match c with
    | NoActiveId => Active [newMessage]
    | Active messages => Active (messages ++ [newMessage])
    | UnknownId => UnknownId
    end)).

Definition updateMessage (id : nat) (content : MessageContent) : M unit :=
  modify (set_conversations (map_messages (fun m =>
    if bool_decide (message_id m = id) then
      {| message_id := message_id m; role := role m; content := content;
         isStreaming := isStreaming m; toolCalls := toolCalls m;
         toolCallId := toolCallId m; toolName := toolName m |}
    else m))).

Definition updateMessageToolCalls (id : nat) (calls : list ToolCallData)
  : M unit :=
  modify (set_conversations (map_messages (fun m =>
    if bool_decide (message_id m = id) then
      {| message_id := message_id m; role := role m; content := content m;
         isStreaming := isStreaming m; toolCalls := Some calls;
         toolCallId := toolCallId m; toolName := toolName m |}
    else m))).

(** [result: result ?? tc.result] *)
Definition updateToolCallStatus (messageId : nat) (toolCallId : jsstring)
    (st : ToolStatus) (res : option jsstring) : M unit :=
  modify (set_conversations (map_messages (fun m =>
    match toolCalls m with
    | Some calls =>
        if bool_decide (message_id m = messageId) then
          {| message_id := message_id m; role := role m; content := content m;
             isStreaming := isStreaming m;
             toolCalls := Some (map (fun tc =>
               if str_eqb (data_id tc) toolCallId then
                 {| data_id := data_id tc; data_name := data_name tc;
                    data_arguments := data_arguments tc; status := st;
                    result := match res with
                              | Some r => Some r
                              | None => result tc
                              end |}
               else tc) calls);
             toolCallId := Chat.toolCallId m; toolName := toolName m |}
        else m
    | None => m
    end))).

Definition setMessageStreaming (id : nat) (b : bool) : M unit :=
  modify (set_conversations (map_messages (fun m =>
    if bool_decide (message_id m = id) then
      {| message_id := message_id m; role := role m; content := content m;
         isStreaming := Some b; toolCalls := toolCalls m;
         toolCallId := toolCallId m; toolName := toolName m |}
    else m))).

(** *** lib/errors.ts *)

Definition isAbortError (err : thrown) : bool :=
  match err with
  | JsError name _ => str_eqb name (lit "AbortError")
  | _ => false
  end.

(** [handleError(err, context)] *)
Definition handleError (err : thrown) : jsstring :=
  match err with
  | JsError name message =>
      if str_eqb name (lit "AbortError") then lit "Operation was cancelled."
      else if (200 <? length message)%nat
           then take 200 message ++ lit "..."
           else message
  | JsAppError _ _ userMessage => userMessage
  | JsOther _ => lit "An unexpected error occurred."
  end.

(** *** The controllers *)

(** [abortControllerRef.current = new AbortController()] *)
Definition new_AbortController (w : World) : World :=
  set_abortController (Some (length (controllers w)))
    (set_controllers (fun l => l ++ [false]) w).

(** [signal.aborted] for the signal of the controller [signal]; there is no
    signal ([undefined]) when there was no controller. *)
Definition aborted (signal : option nat) (w : World) : bool :=
  match signal with
  | Some c => default false (controllers w !! c)
  | None => false
  end.


(** [stopGeneration()]: [abort()] sets the signal of the current
    controller, once. *)
Definition stopGeneration (w : World) : World :=
  match abortController w with
  | Some c =>
      match controllers w !! c with
      | Some false =>
          set_mcp (Mcp.set_trace (fun t => t ++ [SignalAborted]))
            (set_controllers <[c := true]> w)
      | _ => w
      end
  | None => w
  end.

(** *** The start and the end of [sendMessage] *)

(** [sendMessage(content)] up to its [try]: the two messages, the flags and
    the new controller.  Gives the id of the assistant message. *)
Definition sendMessage_start (content : MessageContent) : M (option nat) :=
  addMessage user content None None None;;
  addMessage assistant (Text []) (Some true) None None;;
  modify (setIsGenerating true);;
  modify (setError None);;
  let! currentMessages := gets selectActiveMessages in
  match last currentMessages with
  | None =>
      modify (setIsGenerating false);;
      modify (setError (Some (lit "Failed to create assistant message")));;
      ret None
  | Some assistantMessage =>
      modify new_AbortController;;
      ret (Some (message_id assistantMessage))
  end.

(** The [catch (err)] block of [sendMessage]. *)
Definition turn_failed (currentAssistantId : nat) (err : thrown) : M unit :=
  if isAbortError err then
    setMessageStreaming currentAssistantId false
  else
    let errorMessage := handleError err in
    modify (call_onError errorMessage);;
    modify (setError (Some errorMessage));;
    updateMessage currentAssistantId
      (Text ([0x26A0; 0xFE0F] ++ lit " Error: " ++ errorMessage));;
    setMessageStreaming currentAssistantId false.

(** The [finally] block of [sendMessage]. *)
Definition sendMessage_finally (w : World) : World :=
  set_abortController None (setIsGenerating false w).

(** [regenerateLastResponse()], with [send] for the [sendMessage] it ends
    in and [nothing] for its early returns. *)
Definition is_user (r : MessageRole) : bool :=
  match r with user => true | _ => false end.

Definition is_assistant (r : MessageRole) : bool :=
  match r with assistant => true | _ => false end.

Definition regenerate {A} (send : MessageContent -> M A) (nothing : M A)
  : M A :=
  let! c := gets conversations in
  match c with
  | Active messages =>
      if (length messages <? 2)%nat then nothing
      else
        match last (List.filter (fun m => is_user (role m)) messages) with
        | None => nothing
        | Some lastUserMessage =>
            modify (set_conversations (fun c =>
              match c with
              | Active messages => Active (removelast messages)
              | _ => c
              end));;
            send (content lastUserMessage)
        end
  | _ => nothing
  end.

(** *** The user and the other turns, as seen from a turn *)

(** The Regenerate button is shown on the last message when it is of the
    assistant and not streaming (the component [ChatMessage], in this tree
    [src/unnamed/part_006], lines 713-747). *)
Definition regenerate_shown (w : World) : bool :=
  match last (selectActiveMessages w) with
  | Some m =>
      is_assistant (role m)
      && negb (match isStreaming m with Some b => b | None => false end)
  | None => false
  end.

Definition interrupt (env : Env) (w : World) (i : interruption) : World :=
  match i with
  | Stops => stopGeneration w
  | Regenerates =>
      if regenerate_shown w then
        match regenerate sendMessage_start (ret None) env w with
        | (Returned (Some id), w') => set_others (fun l => l ++ [id]) w'
        | (_, w') => w'
        end
      else w
  | OtherTurnEnds failure =>
      match others w with
      | id :: rest =>
          sendMessage_finally
            (snd ((match failure with
                   | Some err => turn_failed id err
                   | None => setMessageStreaming id false
                   end) env (set_others (fun _ => rest) w)))
      | [] => w
      end
  end.

(** What happens during the awaits [a], ..., [b - 1]. *)
Definition interrupts (env : Env) (a b : nat) (w : World) : World :=
  fold_left (fun w n => fold_left (interrupt env) (interruptions env n) w)
    (seq a (b - a)) w.

(** A program of the MCP service run from the turn: its awaits are awaits
    of the turn. *)
Definition lift {A} (m : Mcp.M A) : M A :=
  fun env w =>
    let '(r, m') := m (mcp_env env) (mcp w) in
    (r, interrupts env (Mcp.awaited (mcp w)) (Mcp.awaited m')
          (set_mcp (fun _ => m') w)).

(** *** The LLM service, as seen from a turn *)

(** The successive calls of the [onChunk] of [handleChatCompletion]:
    [fullResponse += chunk; updateMessage(currentAssistantId, fullResponse)]. *)
Fixpoint onChunk_calls (currentAssistantId : nat) (fullResponse : jsstring)
    (chunks : list jsstring) : M unit :=
  match chunks with
  | [] => ret tt
  | chunk :: rest =>
      updateMessage currentAssistantId (Text (fullResponse ++ chunk));;
      onChunk_calls currentAssistantId (fullResponse ++ chunk) rest
  end.

(** [sendChatRequestWithTools({ ..., signal, onChunk })] of services/llm.ts,
    by its contract: the checks before the request, the [fetch] made with
    [signal] (none when the signal is already aborted; an [AbortError] when
    it is aborted meanwhile), the [onChunk] calls, the response. *)
Definition sendChatRequestWithTools (signal : option nat)
    (onChunk : list jsstring -> M unit) : M LLMResponse :=
  let! n := gets llm_calls in
  modify (set_llm_calls S);;
  let! script := asks (fun env => llm env n) in
  match outcome script with
  | FailsBeforeRequest e => throw e
  | after_request =>
      let! stopped := gets (aborted signal) in
      if stopped then throw AbortError
      else
        lift (Mcp.perform LlmRequest);;
        lift Mcp.wait;;
        let! stopped := gets (aborted signal) in
        if stopped then
          onChunk (take (delivered script) (chunks script));;
          throw AbortError
        else
          match after_request with
          | Responds response => onChunk (chunks script);; ret response
          | RequestFails e | FailsBeforeRequest e => throw e
          end
  end.

(** [generateImage({ ..., signal })] of services/llm.ts, likewise. *)
Definition generateImage (signal : option nat) : M (list GeneratedImage) :=
  let! n := gets llm_calls in
  modify (set_llm_calls S);;
  let! script := asks (fun env => image env n) in
  match script with
  | ImageFailsBeforeRequest e => throw e
  | after_request =>
      let! stopped := gets (aborted signal) in
      if stopped then throw AbortError
      else
        lift (Mcp.perform LlmRequest);;
        lift Mcp.wait;;
        let! stopped := gets (aborted signal) in
        if stopped then throw AbortError
        else
          match after_request with
          | Generates images => ret images
          | ImageRequestFails e | ImageFailsBeforeRequest e => throw e
          end
  end.

(** *** The hook *)

(** The values a string gives when it is spread: its code points. *)
Definition is_high_surrogate (c : N) : bool := (0xD800 <=? c) && (c <=? 0xDBFF).
Definition is_low_surrogate (c : N) : bool := (0xDC00 <=? c) && (c <=? 0xDFFF).

Fixpoint code_points (s : jsstring) : list jsstring :=
  match s with
  | [] => []
  | c :: rest =>
      match rest with
      | d :: rest' =>
          if is_high_surrogate c && is_low_surrogate d
          then [c; d] :: code_points rest'
          else [c] :: code_points rest
      | [] => [[c]]
      end
  end.

(** [...state.tools]: the elements of an array, the code points of a
    string; no other value can be spread. *)
Definition spread (v : json) : completion (list Mcp.MCPTool) :=
  match v with
  | JArr items => Returned items
  | JStr s => Returned (map JStr (code_points s))
  | _ => Threw TypeError
  end.

(** The loop of [getAvailableTools] over [servers]. *)
Fixpoint available (states : gmap jsstring Mcp.MCPServerState)
    (configs : list Mcp.MCPServerConfig) : completion (list Mcp.MCPTool) :=
  match configs with
  | [] => Returned []
  | server :: rest =>
      let pushed :=
        if negb (Mcp.enabled server) then Returned []
        else match states !! Mcp.id server with
             | Some state =>
                 match Mcp.status state with
                 | Mcp.connected =>
                     if truthy (Some (Mcp.tools state))
                     then spread (Mcp.tools state)
                     else Returned []
                 | _ => Returned []
                 end
             | None => Returned []
             end in
      match pushed with
      | Returned tools =>
          match available states rest with
          | Returned more => Returned (tools ++ more)
          | r => r
          end
      | r => r
      end
  end.

Definition getAvailableTools (w : World) : completion (list Mcp.MCPTool) :=
  available (Mcp.serverStates (mcp w)) (Mcp.servers (mcp w)).

(** [tools.map(t => `- ${t.name}: ${t.description}`)], made for the system
    prompt when there are tools: it reads two properties of every tool. *)
Definition toolInfo (tools : list Mcp.MCPTool) : completion unit :=
  if existsb (fun t => match t with JNull => true | _ => false end) tools
  then Threw TypeError
  else Returned tt.

Definition DQUOTE : N := 34.

Record ToolResult := {
  result_id : jsstring;
  result_name : jsstring;
  result_text : jsstring
}.

(** [c.text || JSON.stringify(c)], as [join] renders it. *)
Definition content_text (c : json) : M jsstring :=
  match c with
  | JNull => throw TypeError
  | _ =>
      match opt_get (Some c) (lit "text") with
      | Some (JStr s) =>
          if truthy_str s then ret s
          else asks (fun env => Mcp.JSON_stringify (mcp_env env) c)
      | text =>
          if truthy text
          then asks (fun env => Mcp.ToString (mcp_env env) (default JNull text))
          else asks (fun env => Mcp.JSON_stringify (mcp_env env) c)
      end
  end.

Fixpoint map_M {A B} (f : A -> M B) (l : list A) : M (list B) :=
  match l with
  | [] => ret []
  | x :: rest =>
      let! y := f x in
      let! ys := map_M f rest in
      ret (y :: ys)
  end.

Fixpoint join (sep : jsstring) (l : list jsstring) : jsstring :=
  match l with
  | [] => []
  | [x] => x
  | x :: rest => x ++ sep ++ join sep rest
  end.

(** [result.content.map(c => c.text || JSON.stringify(c)).join('\n')] *)
Definition resultText (result : unknown) : M jsstring :=
  match result with
  | None | Some JNull => throw TypeError
  | Some _ =>
      match opt_get result (lit "content") with
      | Some (JArr items) =>
          let! texts := map_M content_text items in
          ret (join [LF] texts)
      | _ => throw TypeError
      end
  end.

(** The branch [if (!serverId) { ... continue }] of [executeToolCalls]. *)
Definition tool_not_found (messageId : nat) (tc : ToolCall) : M ToolResult :=
  let errorResult :=
    lit "Error: Tool " ++ [DQUOTE] ++ call_name tc ++ [DQUOTE]
    ++ lit " not found in any connected MCP server" in
  updateToolCallStatus messageId (call_id tc) error (Some errorResult);;
  ret {| result_id := call_id tc; result_name := call_name tc;
         result_text := errorResult |}.

(** The body of [for (const tc of toolCalls)] in [executeToolCalls]; gives
    the entry pushed on [results].  [findToolServer] is called outside the
    [try]; [!serverId] holds of [undefined] and of the empty string. *)
Definition execute_one (messageId : nat) (tc : ToolCall) : M ToolResult :=
  updateToolCallStatus messageId (call_id tc) executing None;;
  let! serverId := call (fun w => Mcp.findToolServer (call_name tc) (mcp w)) in
  match serverId with
  | None => tool_not_found messageId tc
  | Some serverId =>
      if negb (truthy_str serverId) then tool_not_found messageId tc
      else
        try_catch
          (let! result := lift (Mcp.callTool serverId (call_name tc)
                                  (call_arguments tc)) in
           let! text := resultText result in
           updateToolCallStatus messageId (call_id tc)
             (if truthy (opt_get result (lit "isError")) then error
              else success)
             (Some text);;
           ret {| result_id := call_id tc; result_name := call_name tc;
                  result_text := text |})
          (fun err =>
             let errorResult := handleError err in
             updateToolCallStatus messageId (call_id tc) error
               (Some errorResult);;
             ret {| result_id := call_id tc; result_name := call_name tc;
                    result_text := errorResult |})
  end.

Definition executeToolCalls (messageId : nat) (calls : list ToolCall)
  : M (list ToolResult) :=
  map_M (execute_one messageId) calls.

Definition maxIterations : nat := 10.

(** The variables of the loop of [handleChatCompletion]. *)
Record loop_vars := {
  currentAssistantId : nat;
  continueLoop : bool;
  iterations : nat
}.

(** The body of [while (continueLoop && iterations < maxIterations)]; the
    request is made with [abortControllerRef.current?.signal], read anew
    in every turn of the loop. *)
Definition iteration (v : loop_vars) : M loop_vars :=
  let iterations1 := S (iterations v) in
  let id := currentAssistantId v in
  let! signal := gets abortController in
  let! response := sendChatRequestWithTools signal (onChunk_calls id []) in
  (if truthy_str (response_content response)
   then updateMessage id (Text (response_content response))
   else ret tt);;
  match response_toolCalls response with
  | Some (tc :: tcs) =>
      updateMessageToolCalls id
        (map (fun tc => {| data_id := call_id tc; data_name := call_name tc;
                           data_arguments := call_arguments tc;
                           status := pending; result := None |})
             (tc :: tcs));;
      setMessageStreaming id false;;
      let! results := executeToolCalls id (tc :: tcs) in
      for_each (fun r => addMessage tool (Text (result_text r)) None
                           (Some (result_id r)) (Some (result_name r)))
               results;;
      addMessage assistant (Text []) (Some true) None None;;
      let! currentMessages := gets selectActiveMessages in
      ret {| currentAssistantId :=
               match last currentMessages with
               | Some newAssistantMessage => message_id newAssistantMessage
               | None => id
               end;
             continueLoop := true;
             iterations := iterations1 |}
  | _ =>
      ret {| currentAssistantId := id; continueLoop := false;
             iterations := iterations1 |}
  end.

(** The loop, with [fuel] turns at most: [None] when the fuel is used up
    while the loop condition still holds. *)
Fixpoint while_loop (fuel : nat) (v : loop_vars) : M (option loop_vars) :=
  if continueLoop v && (iterations v <? maxIterations)%nat then
    match fuel with
    | O => ret None
    | S fuel' =>
        let! v' := iteration v in
        while_loop fuel' v'
    end
  else ret (Some v).

(** [handleChatCompletion(assistantMessageId, ...)]: the tools and their
    descriptions for the system prompt, then the loop, which is given
    [maxIterations] turns of fuel. *)
Definition handleChatCompletion (assistantMessageId : nat) : M unit :=
  let! tools := call getAvailableTools in
  call (fun _ => toolInfo tools);;
  let! final := while_loop maxIterations
                  {| currentAssistantId := assistantMessageId;
                     continueLoop := true; iterations := 0 |} in
  match final with
  | Some v => setMessageStreaming (currentAssistantId v) false
  | None => fun _ w => (Hung, w)
  end.

(** The prompt and the reference images of [handleImageGeneration]. *)
Definition promptText (content : MessageContent) : jsstring :=
  match content with
  | Text s => s
  | Parts parts =>
      trim (flat_map (fun part =>
                        match part with
                        | TextPart t => t ++ lit " "
                        | _ => []
                        end) parts)
  end.

Definition responseContent (prompt : jsstring) (images : list GeneratedImage)
  : list ContentPart :=
  match images with
  | [] => []
  | _ =>
      TextPart (lit "Here's the generated image for: " ++ [DQUOTE]
                ++ prompt ++ [DQUOTE])
      :: flat_map (fun img =>
           ImagePart (image_data img) (image_mimeType img)
           :: match revisedPrompt img with
              | Some r =>
                  if truthy_str r
                  then [TextPart (lit "*Revised prompt: " ++ r ++ lit "*")]
                  else []
              | None => []
              end) images
  end.

Definition handleImageGeneration (content : MessageContent)
    (assistantMessageId : nat) (signal : option nat) : M unit :=
  updateMessage assistantMessageId
    (Text ([0xD83C; 0xDFA8] ++ lit " Generating image..."));;
  let! images := generateImage signal in
  updateMessage assistantMessageId
    (Parts (responseContent (promptText content) images));;
  setMessageStreaming assistantMessageId false.

(** The [try] block of [sendMessage]; the image model is given
    [abortControllerRef.current.signal]. *)
Definition turn (isImageGenModel : bool) (content : MessageContent)
    (currentAssistantId : nat) : M unit :=
  (if isImageGenModel
   then let! signal := gets abortController in
        handleImageGeneration content currentAssistantId signal
   else handleChatCompletion currentAssistantId);;
  setMessageStreaming currentAssistantId false.

(** [sendMessage(content)]; [isImageGenModel] is what the model table says
    of the selected model. *)
Definition sendMessage (isImageGenModel : bool) (content : MessageContent)
  : M unit :=
  let! started := sendMessage_start content in
  match started with
  | None => ret tt
  | Some currentAssistantId =>
      try_finally
        (try_catch (turn isImageGenModel content currentAssistantId)
           (turn_failed currentAssistantId))
        sendMessage_finally
  end.

(** [regenerateLastResponse()] *)
Definition regenerateLastResponse (isImageGenModel : bool) : M unit :=
  regenerate (sendMessage isImageGenModel) (ret tt).

End Chat.

(* ===================================================================== *)
(** ** lib/validation.ts: the helpers of the server form *)
(* ===================================================================== *)

Module Validation.

Definition SPACE : N := 32.
Definition EQUALS : N := 61.
Definition HASH : N := 35.

(** *** Plain objects with string values *)

(** A [Record<string, string>] made by an object literal: its own
    properties, in the order of their creation. *)
Definition object := list (jsstring * jsstring).

Definition PROTO : jsstring := lit "__proto__".

Fixpoint get (o : object) (k : jsstring) : option jsstring :=
  match o with
  | [] => None
  | (k', v) :: rest => if str_eqb k' k then Some v else get rest k
  end.

Fixpoint replace (o : object) (k v : jsstring) : object :=
  match o with
  | [] => []
  | (k', v') :: rest =>
      if str_eqb k' k then (k', v) :: rest else (k', v') :: replace rest k v
  end.

(** [o[k] = v] for a string [v]: an own property is written in its place,
    a new one is created last; [__proto__] is the accessor of
    [Object.prototype], whose setter ignores a string. *)
Definition assign (o : object) (k v : jsstring) : object :=
  if str_eqb k PROTO then o
  else match get o k with
       | Some _ => replace o k v
       | None => o ++ [(k, v)]
       end.

(** The array index a property key is: the canonical decimal numeral of
    an integer below 2^32 - 1. *)
Definition digit (c : N) : option N :=
  if (48 <=? c) && (c <=? 57) then Some (c - 48) else None.

Fixpoint digits_value (acc : N) (s : jsstring) : option N :=
  match s with
  | [] => Some acc
  | c :: rest =>
      match digit c with
      | Some d => digits_value (acc * 10 + d) rest
      | None => None
      end
  end.

Definition array_index (k : jsstring) : option N :=
  match k with
  | [] => None
  | [48] => Some 0
  | 48 :: _ => None
  | _ =>
      match digits_value 0 k with
      | Some n => if n <? 2 ^ 32 - 1 then Some n else None
      | None => None
      end
  end.

Fixpoint insert_by_index (n : N) (e : jsstring * jsstring)
    (l : list (N * (jsstring * jsstring))) : list (N * (jsstring * jsstring)) :=
  match l with
  | [] => [(n, e)]
  | (m, e') :: rest =>
      if n <? m then (n, e) :: l else (m, e') :: insert_by_index n e rest
  end.

Fixpoint index_entries (o : object) : list (N * (jsstring * jsstring)) :=
  match o with
  | [] => []
  | (k, v) :: rest =>
      match array_index k with
      | Some n => insert_by_index n (k, v) (index_entries rest)
      | None => index_entries rest
      end
  end.

(** [Object.entries(o)]: the array indices in ascending order, then the
    other keys in the order of their creation. *)
Definition Object_entries (o : object) : list (jsstring * jsstring) :=
  map snd (index_entries o)
  ++ List.filter (fun '(k, _) => negb (bool_decide (is_Some (array_index k)))) o.

(** *** The helpers *)

(** The body of the loop of [parseEnvString], for one line. *)
Definition parseEnvLine (result : object) (line : jsstring) : object :=
  let trimmed := trim line in
  if negb (truthy_str trimmed) || startsWith [HASH] trimmed then result
  else
    match split EQUALS trimmed with
    | key :: valueParts =>
        if truthy_str key && (0 <? length valueParts)%nat then
          assign result (trim key) (trim (Chat.join [EQUALS] valueParts))
        else result
    | [] => result
    end.

(** [parseEnvString(envString)] *)
Definition parseEnvString (envString : jsstring) : object :=
  if negb (truthy_str (trim envString)) then []
  else fold_left parseEnvLine (split LF envString) [].

(** [envToString(env)] *)
Definition envToString (env : option object) : jsstring :=
  match env with
  | None => []
  | Some env =>
      Chat.join [LF]
        (map (fun '(k, v) => k ++ [EQUALS] ++ v) (Object_entries env))
  end.

(** [parseArgsString(argsString)] *)
Definition parseArgsString (argsString : jsstring) : list jsstring :=
  List.filter truthy_str (split SPACE argsString).

End Validation.

(* ===================================================================== *)
(** ** lib/chat-export.ts: the name of the exported file *)
(* ===================================================================== *)

Module ChatExport.

Inductive ExportFormat := json | markdown.

Definition HYPHEN : N := 45.
Definition UNDERSCORE : N := 95.

(** [[a-zA-Z0-9]] *)
Definition is_alnum (c : N) : bool :=
  ((97 <=? c) && (c <=? 122)) || ((65 <=? c) && (c <=? 90))
  || ((48 <=? c) && (c <=? 57)).

(** [s.replace(/[^a-zA-Z0-9\s-]/g, '')] *)
Definition strip (s : jsstring) : jsstring :=
  List.filter (fun c => is_alnum c || is_space c || (c =? HYPHEN)) s.

(** [s.replace(/\s+/g, '_')]: [in_run] says that the code unit before was
    white space, of a run that is replaced already. *)
Fixpoint underscores (in_run : bool) (s : jsstring) : jsstring :=
  match s with
  | [] => []
  | c :: rest =>
      if is_space c then
        if in_run then underscores true rest
        else UNDERSCORE :: underscores true rest
      else c :: underscores false rest
  end.

(** The title, made fit for a file name. *)
Definition sanitize (title : jsstring) : jsstring :=
  take 50 (underscores false (strip title)).

(** [getDefaultFilename(title, format)]; [now] is what
    [new Date().toISOString()] gives. *)
Definition getDefaultFilename (now : jsstring) (title : jsstring)
    (format : ExportFormat) : jsstring :=
  let sanitized := sanitize title in
  let date := default [] (head (split 84 now)) in
  let extension := match format with json => lit "json" | markdown => lit "md" end in
  sanitized ++ lit "_" ++ date ++ lit "." ++ extension.

End ChatExport.

(* ===================================================================== *)
(** ** Concrete environments and worlds for the examples *)
(* ===================================================================== *)

Module Examples.
Import Mcp.

(** A quiet environment: the reader of [MiniJSON], nothing happens during
    an await, every host call succeeds. *)
Definition quiet : Env :=
  {| JSON_parse := MiniJSON.parse;
     JSON_stringify := fun _ => lit "{}";
     ToString := fun _ => lit "[object]";
     sseUrl := fun u _ => Some (u ++ lit "/sse");
     during := fun _ => [];
     host := fun _ => HostOk |}.

(** The server [s]: a running stdio session (object 0) with its two
    listeners (handles 1 and 2). *)
Definition s : jsstring := lit "s".

Definition session : ServerState :=
  {| server_transport := stdio; requestId := 0; pendingRequests := ∅;
     buffer := []; unlistenStdout := Some 1%nat; unlistenStderr := Some 2%nat;
     sessionId := None; eventSource := None; url := []; headers := None |}.

Definition config : MCPServerConfig :=
  {| id := s; name := lit "S"; enabled := true; transport := stdio;
     command := lit "uvx"; args := []; env := None;
     config_url := []; config_headers := None |}.

Definition running : World :=
  {| activeServers := {[ s := 0%nat ]};
     heap := {[ 0%nat := session ]};
     promises := ∅; timers := ∅;
     listeners := [(1%nat, StdoutListener s 0%nat); (2%nat, StderrListener s)];
     transmissions := ∅; eventSources := ∅;
     servers := [config];
     serverStates := {[ s := {| state_id := s; status := connected;
                                tools := JArr [JObj [(lit "name", JStr (lit "echo"))]];
                                state_error := None |} ]};
     trace := []; settlements := [];
     fresh := 3%nat; awaited := 0%nat |}.

(** [running] after [sendStdioRequest(s, 'tools/list')]: request 1 is
    pending, with promise 3, timer 4 and transmission 5. *)
Definition requested : World :=
  snd (sendStdioRequest s (lit "tools/list") None quiet running).

Definition requested_session : ServerState :=
  {| server_transport := stdio; requestId := 1;
     pendingRequests :=
       {[ IdNum 1 := {| promise := 3%nat; timeout := Some 4%nat |} ]};
     buffer := []; unlistenStdout := Some 1%nat; unlistenStderr := Some 2%nat;
     sessionId := None; eventSource := None; url := []; headers := None |}.

(** A server that answers the two requests of the handshake of a new
    session (during the fourth and the sixth await of [startStdioServer]),
    the second one with a result without tools. *)
Definition answering : Env :=
  {| JSON_parse := MiniJSON.parse;
     JSON_stringify := fun _ => lit "{}";
     ToString := fun _ => lit "[object]";
     sseUrl := fun u _ => Some (u ++ lit "/sse");
     during := fun n =>
       if Nat.eqb n 3
       then [McpStdout s (qlit "{'jsonrpc':'2.0','id':1,'result':{}}")]
       else if Nat.eqb n 5
       then [McpStdout s (qlit "{'jsonrpc':'2.0','id':2,'result':{}}")]
       else [];
     host := fun _ => HostOk |}.

(** A reply to request 1 in two pieces, and a JSON-RPC error reply. *)
Definition piece1 : jsstring := qlit "{'jsonrpc':'2.0','id':1,".
Definition piece2 : jsstring := qlit "'result':{}}".

Definition error_reply (code : Z) : json :=
  JObj [(lit "jsonrpc", JStr (lit "2.0")); (lit "id", JNum 1 0);
        (lit "error", JObj [(lit "code", JNum code 0);
                            (lit "message", JStr (lit "Method not found"))])].

End Examples.

Module ChatExamples.
Import Chat.

(** The store before the first message, with the server [s] running. *)
Definition start : World :=
  {| mcp := Examples.running; conversations := NoActiveId;
     isGenerating := false; store_error := None; controllers := [];
     abortController := None; others := []; onError := [];
     generated := 0%nat; llm_calls := 0%nat |}.

Definition echo (call : jsstring) : ToolCall :=
  {| call_id := call; call_name := lit "echo"; call_arguments := JObj [] |}.




(** A model that answers every request with two calls of the tool [echo]. *)
Definition two_calls : LlmScript :=
  {| outcome := Responds {| response_content := [];
                            response_toolCalls :=
                              Some [echo (lit "c1"); echo (lit "c2")];
                            finishReason := None |};
     chunks := []; delivered := 0%nat |}.





(** The same model, and a user who never stops. *)
Definition looping : Env :=
  {| mcp_env := Examples.quiet;
     llm := fun _ => two_calls;
     image := fun _ => Generates [];
     interruptions := fun _ => [] |}.

End ChatExamples.

(* ===================================================================== *)
(** ** Facts about programs *)
(* ===================================================================== *)

Module ProgFacts.

(** A program preserves a preorder on states when every run ends in a
    state related to the one it started from, however it ends. *)
Section Preserve.
Context {R S : Type} (rel : S -> S -> Prop).
Hypothesis rel_refl : forall w, rel w w.
Hypothesis rel_trans : forall a b c, rel a b -> rel b c -> rel a c.

Definition preserves {A} (m : Prog R S A) : Prop :=
  forall env w, rel w (snd (m env w)).

Lemma preserves_ret {A} (a : A) : preserves (ret a).
Proof. intros env w. apply rel_refl. Qed.

Lemma preserves_throw {A} e : preserves (@throw R S A e).
Proof. intros env w. apply rel_refl. Qed.

Lemma preserves_gets {A} (f : S -> A) : preserves (gets f).
Proof. intros env w. apply rel_refl. Qed.

Lemma preserves_asks {A} (f : R -> A) : preserves (@asks R S A f).
Proof. intros env w. apply rel_refl. Qed.

Lemma preserves_hung {A} : preserves (fun (_ : R) (w : S) => (@Hung A, w)).
Proof. intros env w. apply rel_refl. Qed.

Lemma preserves_call {A} (f : S -> completion A) : preserves (@call R S A f).
Proof. intros env w. apply rel_refl. Qed.

Lemma preserves_modify f : (forall w, rel w (f w)) -> preserves (modify f).
Proof. intros H env w. apply H. Qed.

Lemma preserves_bind {A B} (m : Prog R S A) (k : A -> Prog R S B) :
  preserves m -> (forall a, preserves (k a)) -> preserves (bind m k).
Proof.
  intros Hm Hk env w. unfold bind.
  specialize (Hm env w). destruct (m env w) as [[a|e|] w1]; simpl in Hm.
  - eapply rel_trans; [exact Hm | apply Hk].
  - exact Hm.
  - exact Hm.
Qed.

Lemma preserves_try_catch {A} (m : Prog R S A) h :
  preserves m -> (forall e, preserves (h e)) -> preserves (try_catch m h).
Proof.
  intros Hm Hh env w. unfold try_catch.
  specialize (Hm env w). destruct (m env w) as [[a|e|] w1]; simpl in Hm.
  - exact Hm.
  - eapply rel_trans; [exact Hm | apply Hh].
  - exact Hm.
Qed.

Lemma preserves_try_finally {A} (m : Prog R S A) f :
  preserves m -> (forall w, rel w (f w)) -> preserves (try_finally m f).
Proof.
  intros Hm Hf env w. unfold try_finally.
  specialize (Hm env w). destruct (m env w) as [r w1]; simpl in *.
  eapply rel_trans; [exact Hm | apply Hf].
Qed.

Lemma preserves_for_each {A} (f : A -> Prog R S unit) l :
  (forall x, preserves (f x)) -> preserves (for_each f l).
Proof.
  intros Hf. induction l as [|x l IH]; simpl.
  - apply preserves_ret.
  - apply preserves_bind; [apply Hf | intros _; exact IH].
Qed.

End Preserve.

(** The same for the runs in the environments that satisfy [P]. *)
Section PreserveOn.
Context {R S : Type} (P : R -> Prop) (rel : S -> S -> Prop).
Hypothesis rel_refl : forall w, rel w w.
Hypothesis rel_trans : forall a b c, rel a b -> rel b c -> rel a c.

Definition preserves_on {A} (m : Prog R S A) : Prop :=
  forall env w, P env -> rel w (snd (m env w)).

Lemma preserves_on_any {A} (m : Prog R S A) :
  preserves rel m -> preserves_on m.
Proof. intros H env w _. apply H. Qed.











End PreserveOn.

Lemma bind_Returned {R S A B} (m : Prog R S A) (k : A -> Prog R S B) env w a w' :
  m env w = (Returned a, w') -> bind m k env w = k a env w'.
Proof. intros H. unfold bind. rewrite H. reflexivity. Qed.


Lemma bind_Hung {R S A B} (m : Prog R S A) (k : A -> Prog R S B) env w w' :
  m env w = (Hung, w') -> bind m k env w = (Hung, w').
Proof. intros H. unfold bind. rewrite H. reflexivity. Qed.

Lemma bind_assoc {R S A B C} (m : Prog R S A) (f : A -> Prog R S B)
    (g : B -> Prog R S C) env w :
  bind (bind m f) g env w = bind m (fun a => bind (f a) g) env w.
Proof. unfold bind. destruct (m env w) as [[a|e|] w1]; reflexivity. Qed.

Lemma bind_ext {R S A B} (m : Prog R S A) (k1 k2 : A -> Prog R S B) env w :
  (forall a w1, m env w = (Returned a, w1) -> k1 a env w1 = k2 a env w1) ->
  bind m k1 env w = bind m k2 env w.
Proof.
  intros H. unfold bind. destruct (m env w) as [[a|e|] w1]; auto.
Qed.

Lemma bind_Returned_inv {R S A B} (m : Prog R S A) (k : A -> Prog R S B)
    env w b w' :
  bind m k env w = (Returned b, w') ->
  exists a w1, m env w = (Returned a, w1) /\ k a env w1 = (Returned b, w').
Proof.
  unfold bind. destruct (m env w) as [[a|e|] w1]; try discriminate.
  intros H. exists a, w1. auto.
Qed.

(** A [try] whose [catch] block never returns returns only when its block
    does. *)
Lemma try_catch_Returned_inv {R S A} (m : Prog R S A) h env w a w' :
  (forall e env1 w1 b w2, h e env1 w1 <> (Returned b, w2)) ->
  try_catch m h env w = (Returned a, w') -> m env w = (Returned a, w').
Proof.
  intros Hh. unfold try_catch.
  destruct (m env w) as [[b|e|] w1]; try discriminate; [auto|].
  intros H. destruct (Hh _ _ _ _ _ H).
Qed.

(** One step of a proof that a program preserves a preorder: [refl] and
    [trans] prove the preorder, [leaf] the steps that change the state. *)
Ltac preserve_step refl trans leaf :=
  first
    [ match goal with
      | |- preserves _ (ret _) => apply preserves_ret; exact refl
      | |- preserves _ (throw _) => apply preserves_throw; exact refl
      | |- preserves _ (gets _) => apply preserves_gets; exact refl
      | |- preserves _ (asks _) => apply preserves_asks; exact refl
      | |- preserves _ (call _) => apply preserves_call; exact refl
      | |- preserves _ (fun _ w => (Hung, w)) =>
          apply preserves_hung; exact refl
      | |- preserves _ (bind _ _) =>
          apply preserves_bind; [exact trans | | intros ?]
      | |- preserves _ (try_catch _ _) =>
          apply preserves_try_catch; [exact trans | | intros ?]
      | |- preserves _ (for_each _ _) =>
          apply preserves_for_each; [exact refl | exact trans | intros ?]
      | |- preserves _ (modify _) => apply preserves_modify; intros ?; leaf
      | |- preserves _ (match ?x with _ => _ end) => destruct x
      | |- preserves _ (if ?b then _ else _) => destruct b
      end
    | progress cbv zeta
    | progress unfold Mcp.perform
    | leaf ].

Ltac preserve refl trans leaf := repeat (preserve_step refl trans leaf).


End ProgFacts.
(* ===================================================================== *)
(** ** Facts about splitting and decoding *)
(* ===================================================================== *)

Module StreamingFacts.
Import Streaming.

Lemma split_nonempty sep s : split sep s <> [].
Proof.
  destruct s as [|c s]; simpl; [discriminate|].
  destruct (N.eqb c sep); [discriminate|].
  destruct (split sep s); discriminate.
Qed.

Lemma split_cons_other sep c s :
  N.eqb c sep = false ->
  exists l ls, split sep s = l :: ls /\ split sep (c :: s) = (c :: l) :: ls.
Proof.
  intros Hc. simpl. rewrite Hc.
  destruct (split sep s) as [|l ls] eqn:Hs.
  - exfalso. eapply split_nonempty; eauto.
  - eauto.
Qed.

Lemma removelast_last_inv {A} (l : list A) :
  l <> [] -> exists x, last l = Some x /\ l = removelast l ++ [x].
Proof.
  induction l as [|a l IH]; [congruence|]. intros _.
  destruct l as [|b l].
  - exists a. split; reflexivity.
  - destruct IH as [x [Hx Hl]]; [discriminate|].
    exists x. split; [exact Hx|].
    change (removelast (a :: b :: l)) with (a :: removelast (b :: l)).
    simpl app. f_equal. exact Hl.
Qed.

Lemma last_app_nonempty {A} (l1 l2 : list A) :
  l2 <> [] -> last (l1 ++ l2) = last l2.
Proof.
  intros H. destruct (removelast_last_inv l2 H) as [x [Hx Hl]].
  rewrite Hl, app_assoc, last_snoc.
  rewrite Hl in Hx. rewrite last_snoc in Hx. rewrite Hl, last_snoc. reflexivity.
Qed.

Lemma removelast_app_nonempty {A} (l1 l2 : list A) :
  l2 <> [] -> removelast (l1 ++ l2) = l1 ++ removelast l2.
Proof. intros H. apply removelast_app. exact H. Qed.

(** Splitting a concatenation: the complete lines of the first part stay,
    and its unfinished last line is continued by the second part. *)
Lemma split_app sep a b :
  split sep (a ++ b) =
  removelast (split sep a) ++ split sep (or_empty (last (split sep a)) ++ b).
Proof.
  induction a as [|c a IH]; [reflexivity|].
  destruct (N.eqb c sep) eqn:Hc.
  - simpl. rewrite Hc.
    destruct (split sep a) as [|l ls] eqn:Hs.
    { exfalso. eapply split_nonempty; eauto. }
    rewrite IH. reflexivity.
  - destruct (split_cons_other sep c a Hc) as [l [ls [Hs Hcs]]].
    destruct (split_cons_other sep c (a ++ b) Hc) as [l' [ls' [Hs' Hcs']]].
    change ((c :: a) ++ b) with (c :: (a ++ b)).
    rewrite Hcs', Hcs. rewrite IH, Hs in Hs'.
    destruct ls as [|l2 ls].
    + change (removelast [c :: l] ++
              split sep (or_empty (last [c :: l]) ++ b))
        with (split sep (c :: (l ++ b))).
      change (removelast [l] ++ split sep (or_empty (last [l]) ++ b))
        with (split sep (l ++ b)) in Hs'.
      destruct (split_cons_other sep c (l ++ b) Hc) as [m [ms [Hm Hcm]]].
      rewrite Hcm. rewrite Hm in Hs'. congruence.
    + change (removelast ((c :: l) :: l2 :: ls))
        with ((c :: l) :: removelast (l2 :: ls)).
      change (last ((c :: l) :: l2 :: ls)) with (last (l2 :: ls)).
      change (removelast (l :: l2 :: ls))
        with (l :: removelast (l2 :: ls)) in Hs'.
      change (last (l :: l2 :: ls)) with (last (l2 :: ls)) in Hs'.
      rewrite <- app_comm_cons in Hs'. rewrite <- app_comm_cons.
      congruence.
Qed.

Lemma decode_app d a b :
  TextDecoder.decode d (a ++ b) =
  let '(d1, o1) := TextDecoder.decode d a in
  let '(d2, o2) := TextDecoder.decode d1 b in
  (d2, o1 ++ o2).
Proof.
  revert d. induction a as [|x a IH]; intros d; simpl.
  - destruct (TextDecoder.decode d b). reflexivity.
  - destruct (TextDecoder.push d x) as [d1 o1].
    rewrite IH.
    destruct (TextDecoder.decode d1 a) as [d2 o2].
    destruct (TextDecoder.decode d2 b) as [d3 o3].
    rewrite app_assoc. reflexivity.
Qed.

Section Generic.
Context {T E : Type}.
Variable JSON_parse : jsstring -> option T.
Variable extractText : T -> option jsstring.

Abbreviation process_line := (process_line JSON_parse extractText).
Abbreviation process_lines := (process_lines JSON_parse extractText).
Abbreviation read_chunk := (read_chunk JSON_parse extractText).
Abbreviation read_loop := (read_loop JSON_parse extractText).

(** The text of the whole body, as one streaming decode of all its bytes. *)
Definition whole_text (bytes : list byte) : jsstring :=
  snd (TextDecoder.decode TextDecoder.create bytes).

(** What the read loop has reached after the bytes [bytes]. *)
Definition reached (bytes : list byte) : loop_state :=
  {| decoder := fst (TextDecoder.decode TextDecoder.create bytes);
     buffer := or_empty (last (split LF (whole_text bytes)));
     out := process_lines (removelast (split LF (whole_text bytes)))
                          sink_empty |}.

Lemma process_lines_app l1 l2 s :
  process_lines (l1 ++ l2) s = process_lines l2 (process_lines l1 s).
Proof. unfold Streaming.process_lines. apply fold_left_app. Qed.

Lemma read_chunk_reached bytes value :
  read_chunk (reached bytes) value = reached (bytes ++ value).
Proof.
  unfold Streaming.read_chunk, reached, whole_text. simpl.
  rewrite decode_app.
  destruct (TextDecoder.decode TextDecoder.create bytes) as [d1 t1]. simpl.
  destruct (TextDecoder.decode d1 value) as [d2 t2]. simpl.
  unfold pop. rewrite (split_app LF t1 t2).
  pose proof (split_nonempty LF (or_empty (last (split LF t1)) ++ t2)) as Hne.
  rewrite last_app_nonempty, removelast_app_nonempty by exact Hne.
  rewrite process_lines_app. reflexivity.
Qed.

Lemma fold_read_chunk chunks bytes :
  fold_left read_chunk chunks (reached bytes) = reached (bytes ++ concat chunks).
Proof.
  revert bytes. induction chunks as [|c cs IH]; intros bytes; simpl.
  - rewrite app_nil_r. reflexivity.
  - rewrite read_chunk_reached, IH, app_assoc. reflexivity.
Qed.

Lemma read_loop_reached chunks : read_loop chunks = reached (concat chunks).
Proof.
  unfold Streaming.read_loop.
  change loop_init with (reached []).
  apply fold_read_chunk.
Qed.

(** The deltas of a whole text: every line, the unterminated last one too. *)
Definition all_lines (bytes : list byte) : sink :=
  process_lines (split LF (whole_text bytes)) sink_empty.

Lemma final_line_reached bytes :
  process_line (buffer (reached bytes)) (out (reached bytes)) = all_lines bytes.
Proof.
  unfold all_lines, reached. simpl.
  destruct (removelast_last_inv (split LF (whole_text bytes))
              (split_nonempty _ _)) as [x [Hx Hl]].
  rewrite Hl at 3. rewrite process_lines_app, Hx. reflexivity.
Qed.

(** The delta of one line, in the words of the specification: a [data: ]
    line whose payload (trimmed, not empty, not the [[DONE]] sentinel) parses
    and whose extracted text is not empty gives that text; any other line
    gives nothing. *)
Definition line_delta (line : jsstring) : option jsstring :=
  if startsWith (lit "data: ") line then
    let payload := trim (slice 6 line) in
    if truthy_str payload && negb (str_eqb payload (lit "[DONE]")) then
      data ← JSON_parse payload;
      text ← extractText data;
      if truthy_str text then Some text else None
    else None
  else None.

Lemma process_line_delta line s :
  process_line line s =
  match line_delta line with
  | Some text => {| fullText := fullText s ++ text;
                    onChunk := onChunk s ++ [text] |}
  | None => s
  end.
Proof.
  unfold Streaming.process_line, line_delta.
  destruct (startsWith _ line); [|reflexivity].
  destruct (_ && _); [|reflexivity].
  destruct (JSON_parse _) as [data|]; [|reflexivity]. simpl.
  destruct (extractText data) as [text|]; [|reflexivity]. simpl.
  destruct (truthy_str text); reflexivity.
Qed.

Lemma process_lines_deltas lines s :
  process_lines lines s =
  {| fullText := fullText s ++ concat (omap line_delta lines);
     onChunk := onChunk s ++ omap line_delta lines |}.
Proof.
  revert s. induction lines as [|l ls IH]; intros s.
  - simpl. rewrite !app_nil_r. destruct s; reflexivity.
  - change (process_lines (l :: ls) s)
      with (process_lines ls (process_line l s)).
    rewrite IH, process_line_delta. simpl omap.
    destruct (line_delta l) as [text|]; simpl; [|reflexivity].
    rewrite <- !app_assoc. reflexivity.
Qed.

Lemma line_delta_nonempty line text : line_delta line = Some text -> text <> [].
Proof.
  unfold line_delta.
  destruct (startsWith _ line); [|discriminate].
  destruct (_ && _); [|discriminate].
  destruct (JSON_parse _) as [data|]; [|discriminate]. simpl.
  destruct (extractText data) as [t|]; [|discriminate]. simpl.
  destruct t; simpl; [discriminate|]. intros [= <-]. discriminate.
Qed.

Lemma deltas_nonempty lines : Forall (fun d => d <> []) (omap line_delta lines).
Proof.
  induction lines as [|l ls IH]; simpl; [constructor|].
  destruct (line_delta l) as [t|] eqn:Hl; simpl; [|exact IH].
  constructor; [eapply line_delta_nonempty; eauto | exact IH].
Qed.

Lemma streamSSEResponse_done chunks :
  streamSSEResponse JSON_parse extractText chunks (@Done E) =
  (Returns (fullText (all_lines (concat chunks))),
   onChunk (all_lines (concat chunks))).
Proof.
  unfold streamSSEResponse. fold (read_loop chunks).
  rewrite read_loop_reached, final_line_reached. reflexivity.
Qed.

Lemma streamSSEResponse_concat chunks1 chunks2 (fin : ending E) :
  concat chunks1 = concat chunks2 ->
  streamSSEResponse JSON_parse extractText chunks1 fin =
  streamSSEResponse JSON_parse extractText chunks2 fin.
Proof.
  intros Heq. unfold streamSSEResponse.
  fold (read_loop chunks1). fold (read_loop chunks2).
  rewrite !read_loop_reached, Heq. reflexivity.
Qed.

End Generic.

(** The extractors read exactly the documented path. *)
Lemma extractGoogleText_path data t :
  t <> [] ->
  extractGoogleText data = t <->
  exists c cs ct p ps,
    candidates data = Some (c :: cs) /\ content c = Some ct /\
    parts ct = Some (p :: ps) /\ part_text p = Some t.
Proof.
  intros Ht. unfold extractGoogleText. split.
  - destruct data as [[[|c cs]|]]; simpl; try (intros <-; congruence).
    destruct c as [[ct|]]; simpl; try (intros <-; congruence).
    destruct ct as [[[|p ps]|]]; simpl; try (intros <-; congruence).
    destruct p as [[x|]]; simpl; try (intros <-; congruence).
    intros ->. repeat eexists.
  - intros (c & cs & ct & p & ps & -> & H2 & H3 & H4). simpl.
    rewrite H2. simpl. rewrite H3. simpl. rewrite H4. reflexivity.
Qed.

Lemma extractOpenAIText_path data t :
  t <> [] ->
  extractOpenAIText data = t <->
  exists c cs d,
    choices data = Some (c :: cs) /\ delta c = Some d /\
    delta_content d = Some t.
Proof.
  intros Ht. unfold extractOpenAIText. split.
  - destruct data as [[[|c cs]|]]; simpl; try (intros <-; congruence).
    destruct c as [[d|]]; simpl; try (intros <-; congruence).
    destruct d as [[x|]]; simpl; try (intros <-; congruence).
    intros ->. repeat eexists.
  - intros (c & cs & d & -> & H2 & H3). simpl.
    rewrite H2. simpl. rewrite H3. reflexivity.
Qed.

(** C2.  For every body and every way of cutting the same bytes into chunks,
    [streamSSEResponse] gives the same result and the same sequence of
    [onChunk] calls; and a body cut in the middle of the key of its one
    event (the [text] key, with value [Hi], followed by two line feeds), with
    an extractor that reads the [text] field, gives [Hi], passed to [onChunk]
    exactly once. *)
Theorem C2_chunk_split_invariance :
  (forall (T E : Type) (JSON_parse : jsstring -> option T)
          (extractText : T -> option jsstring)
          (chunks1 chunks2 : list (list byte)) (fin : ending E),
      concat chunks1 = concat chunks2 ->
      streamSSEResponse JSON_parse extractText chunks1 fin =
      streamSSEResponse JSON_parse extractText chunks2 fin)
  /\ streamSSEResponse MiniJSON.read_TextEvent MiniJSON.text_or_empty
       [bytes "data: {'te"; bytes "xt':'Hi'}" ++ [NL; NL]] (@Done unit)
     = (Returns (lit "Hi"), [lit "Hi"]).
Proof.
  split.
  - intros. apply streamSSEResponse_concat. assumption.
  - vm_compute. reflexivity.
Qed.

Lemma C2_chunk_split_invariance_witness :
  concat [bytes "data: {'te"; bytes "xt':'Hi'}" ++ [NL; NL]]
  = concat [bytes "data: {'text':"; bytes "'Hi'}" ++ [NL]; [NL]]
  /\ streamSSEResponse MiniJSON.read_TextEvent MiniJSON.text_or_empty
       [bytes "data: {'te"; bytes "xt':'Hi'}" ++ [NL; NL]] (@Done unit)
     = streamSSEResponse MiniJSON.read_TextEvent MiniJSON.text_or_empty
       [bytes "data: {'text':"; bytes "'Hi'}" ++ [NL]; [NL]] (@Done unit).
Proof.
  split; [reflexivity|].
  apply (proj1 C2_chunk_split_invariance). reflexivity.
Defined.

(** C8.  For every body that ends normally, [streamSSEResponse] handles the
    lines of the decoded text in order, the unterminated last line included
    (the final attempt on the buffer): each line contributes its delta (the
    extracted text of a parseable [data: ] line) or nothing, [onChunk] is
    called once per delta, every delta is non-empty, and the value returned
    is the concatenation of the deltas.  The Google extractor reads
    [candidates[0].content.parts[0].text], the OpenAI/Groq extractor
    [choices[0].delta.content]. *)
Theorem C8_stream_deltas :
  (forall (T : Type) (JSON_parse : jsstring -> option T)
          (extractText : T -> option jsstring) (chunks : list (list byte)),
      let lines := split LF (whole_text (concat chunks)) in
      let deltas := omap (line_delta JSON_parse extractText) lines in
      streamSSEResponse JSON_parse extractText chunks (@Done unit)
        = (Returns (concat deltas), deltas)
      /\ Forall (fun d => d <> []) deltas
      /\ streamSSEResponse JSON_parse extractText chunks (@Done unit)
         = (let st := Streaming.read_loop JSON_parse extractText chunks in
            let s := Streaming.process_line JSON_parse extractText
                       (buffer st) (out st) in
            (Returns (fullText s), onChunk s)))
  /\ (forall data,
        extractGoogleText data =
        or_empty (c ← (cs ← candidates data; head cs);
                  ct ← content c;
                  p ← (ps ← parts ct; head ps);
                  part_text p))
  /\ (forall data,
        extractOpenAIText data =
        or_empty (c ← (cs ← choices data; head cs);
                  d ← delta c;
                  delta_content d))
  /\ extractGroqText = extractOpenAIText.
Proof.
  split; [|repeat split].
  intros T JSON_parse extractText chunks lines deltas. repeat split.
  - rewrite streamSSEResponse_done. unfold all_lines.
    rewrite process_lines_deltas. reflexivity.
  - apply deltas_nonempty.
Qed.

End StreamingFacts.

(* ===================================================================== *)
(** ** Facts about the MCP service *)
(* ===================================================================== *)

Module McpFacts.
Import Mcp ProgFacts.

Lemma active_server_None serverId w :
  activeServers w !! serverId = None -> active_server serverId w = None.
Proof. intros H. unfold active_server. rewrite H. reflexivity. Qed.

Lemma active_server_Some serverId w server s :
  active_server serverId w = Some (server, s) ->
  activeServers w !! serverId = Some server /\ heap w !! server = Some s.
Proof.
  unfold active_server. intros H.
  destruct (activeServers w !! serverId) as [l|]; simpl in H; [|discriminate].
  destruct (heap w !! l) as [s'|] eqn:Hl; simpl in H; [|discriminate].
  injection H as <- <-. split; [reflexivity | exact Hl].
Qed.

(** *** Registry: stop and start *)

Lemma stopMCPServer_not_running env w serverId :
  activeServers w !! serverId = None ->
  stopMCPServer serverId env w = (Returned tt, w).
Proof.
  intros H. unfold stopMCPServer, bind, gets.
  rewrite (active_server_None _ _ H). reflexivity.
Qed.

Lemma startMCPServer_running env w config :
  is_Some (activeServers w !! id config) ->
  startMCPServer config env w = (Returned tt, w).
Proof.
  intros H. unfold startMCPServer.
  destruct (transport config);
    [unfold startStdioServer | unfold startHttpServer];
    unfold bind at 1, gets; rewrite bool_decide_true by exact H; reflexivity.
Qed.

(** C9.  Stopping a server id that has no active session changes nothing,
    and starting a server id that has an active session returns at once and
    changes nothing: the id keeps the one session it had, and no session
    object is created. *)
Theorem C9_stop_start_idempotent :
  (forall env w serverId,
      activeServers w !! serverId = None ->
      stopMCPServer serverId env w = (Returned tt, w))
  /\ (forall env w config server,
        activeServers w !! id config = Some server ->
        startMCPServer config env w = (Returned tt, w)
        /\ activeServers (snd (startMCPServer config env w)) !! id config
           = Some server
        /\ heap (snd (startMCPServer config env w)) = heap w).
Proof.
  split.
  - intros. apply stopMCPServer_not_running. assumption.
  - intros env w config server H.
    rewrite startMCPServer_running by (rewrite H; eauto).
    simpl. auto.
Qed.

(** *** Tool lists *)

(** A result without tools: [undefined], [null], or a value without a
    [tools] field. *)
Definition without_tools (result : unknown) : Prop :=
  result = None \/ result = Some JNull \/ opt_get result (lit "tools") = None.

Lemma tools_of_result_falsy result :
  truthy (opt_get result (lit "tools")) = false ->
  tools_of_result result = JArr [].
Proof. intros H. unfold tools_of_result, or_else. rewrite H. reflexivity. Qed.

Lemma tools_of_result_nullish result :
  without_tools result -> tools_of_result result = JArr [].
Proof.
  intros H. apply tools_of_result_falsy.
  destruct H as [-> | [-> | ->]]; reflexivity.
Qed.

Lemma listToolsStdio_run env w serverId pt w1 result w2 :
  sendStdioRequest serverId (lit "tools/list") None env w = (Returned pt, w1) ->
  await_promise pt env w1 = (Returned result, w2) ->
  listToolsStdio serverId env w = (Returned (tools_of_result result), w2).
Proof.
  intros Hs Ha. unfold listToolsStdio.
  rewrite (bind_Returned _ _ _ _ _ _ Hs), (bind_Returned _ _ _ _ _ _ Ha).
  reflexivity.
Qed.

Lemma listToolsHttp_run env w serverId pt w1 result w2 :
  sendHttpRequest serverId (lit "tools/list") None env w = (Returned pt, w1) ->
  await_promise pt env w1 = (Returned result, w2) ->
  listToolsHttp serverId env w = (Returned (tools_of_result result), w2).
Proof.
  intros Hs Ha. unfold listToolsHttp.
  rewrite (bind_Returned _ _ _ _ _ _ Hs), (bind_Returned _ _ _ _ _ _ Ha).
  reflexivity.
Qed.

Lemma listToolsStdio_inv env w serverId tools w' :
  listToolsStdio serverId env w = (Returned tools, w') ->
  exists pt w1 result,
    sendStdioRequest serverId (lit "tools/list") None env w = (Returned pt, w1)
    /\ await_promise pt env w1 = (Returned result, w')
    /\ tools = tools_of_result result.
Proof.
  unfold listToolsStdio. intros H.
  apply bind_Returned_inv in H as (pt & w1 & Hs & H).
  apply bind_Returned_inv in H as (result & w2 & Ha & H).
  injection H as <- <-. exists pt, w1, result. auto.
Qed.

Lemma listToolsHttp_inv env w serverId tools w' :
  listToolsHttp serverId env w = (Returned tools, w') ->
  exists pt w1 result,
    sendHttpRequest serverId (lit "tools/list") None env w = (Returned pt, w1)
    /\ await_promise pt env w1 = (Returned result, w')
    /\ tools = tools_of_result result.
Proof.
  unfold listToolsHttp. intros H.
  apply bind_Returned_inv in H as (pt & w1 & Hs & H).
  apply bind_Returned_inv in H as (result & w2 & Ha & H).
  injection H as <- <-. exists pt, w1, result. auto.
Qed.

(** The first step of both start functions, [setServerState(config.id,
    { status: 'connecting', error: undefined })], and the last one,
    [setServerState(config.id, { status: 'connected', tools })]. *)
Definition connecting_state (serverId : jsstring) (env : Env) (w : World)
  : World :=
  snd (setServerState serverId
         {| upd_status := Some connecting; upd_tools := None;
            upd_error := Some None |} env w).

Definition connected_with (tools : json) : StateUpdate :=
  {| upd_status := Some connected; upd_tools := Some tools; upd_error := None |}.

Lemma setServerState_connected env w serverId tools :
  exists st,
    serverStates (snd (setServerState serverId (connected_with tools) env w))
      !! serverId = Some st
    /\ status st = connected /\ Mcp.tools st = tools.
Proof.
  unfold setServerState, modify. simpl.
  eexists. rewrite lookup_insert_eq. split; [reflexivity|]. split; reflexivity.
Qed.

(** The [try] block of [startStdioServer] before the tools are listed: the
    session object with its two listeners, its entry in the registry, the
    process, the handshake (services/mcp.ts, lines 128-184). *)
Definition connect_stdio (config : MCPServerConfig) : M unit :=
  let! serverState := alloc in
  modify (set_heap <[serverState :=
            {| server_transport := stdio; requestId := 0;
               pendingRequests := ∅; buffer := [];
               unlistenStdout := None; unlistenStderr := None;
               sessionId := None; eventSource := None;
               url := []; headers := None |}]>);;
  let! h1 := listen (lit "mcp-stdout")
               (StdoutListener (id config) serverState) in
  modify (update_server serverState (set_server_unlistenStdout (Some h1)));;
  let! h2 := listen (lit "mcp-stderr") (StderrListener (id config)) in
  modify (update_server serverState (set_server_unlistenStderr (Some h2)));;
  modify (set_activeServers <[id config := serverState]>);;
  perform (SpawnMcpServer (id config));;
  await_host;;
  initializeStdioServer (id config).

(** The [try] block of [startHttpServer] before the tools are listed: the
    session object, its entry in the registry, the SSE connection, the
    handshake (services/mcp.ts, lines 317-329). *)
Definition connect_http (config : MCPServerConfig) : M unit :=
  let! serverState := alloc in
  modify (set_heap <[serverState :=
            {| server_transport := http; requestId := 0;
               pendingRequests := ∅; buffer := [];
               unlistenStdout := None; unlistenStderr := None;
               sessionId := None; eventSource := None;
               url := config_url config;
               headers := config_headers config |}]>);;
  modify (set_activeServers <[id config := serverState]>);;
  let! pt := connectHttpSSE (id config) serverState in
  let! _ := await_promise pt in
  initializeHttpServer (id config).

(** The [catch] blocks of the start functions. *)
Definition catch_stdio (config : MCPServerConfig) (error : thrown) : M unit :=
  setServerState (id config)
    {| upd_status := Some Mcp.error; upd_tools := None;
       upd_error := Some (Some (error_message error)) |};;
  let! found := gets (active_server (id config)) in
  match found with
  | Some (_, server) =>
      unlisten (unlistenStdout server);;
      unlisten (unlistenStderr server);;
      modify (set_activeServers (delete (id config)))
  | None => ret tt
  end;;
  throw error.

Definition catch_http (config : MCPServerConfig) (error : thrown) : M unit :=
  setServerState (id config)
    {| upd_status := Some Mcp.error; upd_tools := None;
       upd_error := Some (Some (error_message error)) |};;
  let! found := gets (active_server (id config)) in
  match found ≫= (fun '(_, server) => eventSource server) with
  | Some es => close_eventSource es
  | None => ret tt
  end;;
  modify (set_activeServers (delete (id config)));;
  throw error.

Lemma throws_last {A B} (m : M A) e env w (b : B) w' :
  (m;; throw e) env w <> (Returned b, w').
Proof.
  unfold bind, throw. destruct (m env w) as [[a|e'|] w1]; discriminate.
Qed.

Lemma catch_stdio_throws config e env w b w' :
  catch_stdio config e env w <> (Returned b, w').
Proof.
  unfold catch_stdio. rewrite <- !bind_assoc. apply throws_last.
Qed.

Lemma catch_http_throws config e env w b w' :
  catch_http config e env w <> (Returned b, w').
Proof.
  unfold catch_http. rewrite <- !bind_assoc. apply throws_last.
Qed.

Ltac bind_steps :=
  repeat first
    [ reflexivity
    | rewrite bind_assoc
    | apply bind_ext; intros ? ? _ ].

Lemma not_running (w : World) (config : MCPServerConfig) :
  activeServers w !! id config = None ->
  bool_decide (is_Some (activeServers w !! id config)) = false.
Proof.
  intros H. apply bool_decide_eq_false_2. rewrite H. intros [? ?].
  discriminate.
Qed.

(** Both start functions, for a server without session, are their first
    step, then the connection, the listing of the tools and the last step,
    with their [catch] block around these. *)
Lemma startStdioServer_unfold env w config :
  activeServers w !! id config = None ->
  startStdioServer config env w
  = try_catch
      (connect_stdio config;;
       let! tools := listToolsStdio (id config) in
       setServerState (id config) (connected_with tools))
      (catch_stdio config) env (connecting_state (id config) env w).
Proof.
  intros Hn. unfold startStdioServer.
  rewrite (bind_Returned _ _ _ _ _ _
             (eq_refl : gets activeServers env w = _)).
  rewrite (not_running _ _ Hn).
  rewrite (bind_Returned _ _ env w tt (connecting_state (id config) env w)
             eq_refl).
  unfold try_catch.
  match goal with
  | |- match ?b with _ => _ end = match ?c with _ => _ end =>
      assert (E : c = b) by (unfold connect_stdio; bind_steps)
  end.
  rewrite E. reflexivity.
Qed.

Lemma startHttpServer_unfold env w config :
  activeServers w !! id config = None ->
  startHttpServer config env w
  = try_catch
      (connect_http config;;
       let! tools := listToolsHttp (id config) in
       setServerState (id config) (connected_with tools))
      (catch_http config) env (connecting_state (id config) env w).
Proof.
  intros Hn. unfold startHttpServer.
  rewrite (bind_Returned _ _ _ _ _ _
             (eq_refl : gets activeServers env w = _)).
  rewrite (not_running _ _ Hn).
  rewrite (bind_Returned _ _ env w tt (connecting_state (id config) env w)
             eq_refl).
  unfold try_catch.
  match goal with
  | |- match ?b with _ => _ end = match ?c with _ => _ end =>
      assert (E : c = b) by (unfold connect_http; bind_steps)
  end.
  rewrite E. reflexivity.
Qed.

(** When the connection is made and the tools are listed, the start
    function returns with the state it sets last. *)
Lemma startStdioServer_listed env w config w1 tools w2 :
  activeServers w !! id config = None ->
  connect_stdio config env (connecting_state (id config) env w)
    = (Returned tt, w1) ->
  listToolsStdio (id config) env w1 = (Returned tools, w2) ->
  startStdioServer config env w
  = (Returned tt,
     snd (setServerState (id config) (connected_with tools) env w2)).
Proof.
  intros Hn Hc Hl. rewrite (startStdioServer_unfold _ _ _ Hn).
  unfold try_catch.
  rewrite (bind_Returned _ _ _ _ _ _ Hc), (bind_Returned _ _ _ _ _ _ Hl).
  reflexivity.
Qed.

Lemma startHttpServer_listed env w config w1 tools w2 :
  activeServers w !! id config = None ->
  connect_http config env (connecting_state (id config) env w)
    = (Returned tt, w1) ->
  listToolsHttp (id config) env w1 = (Returned tools, w2) ->
  startHttpServer config env w
  = (Returned tt,
     snd (setServerState (id config) (connected_with tools) env w2)).
Proof.
  intros Hn Hc Hl. rewrite (startHttpServer_unfold _ _ _ Hn).
  unfold try_catch.
  rewrite (bind_Returned _ _ _ _ _ _ Hc), (bind_Returned _ _ _ _ _ _ Hl).
  reflexivity.
Qed.

(** A start function that returns, for a server without session, has made
    the connection and listed the tools. *)
Lemma startStdioServer_returned env w config w' :
  activeServers w !! id config = None ->
  startStdioServer config env w = (Returned tt, w') ->
  exists w1 tools w2,
    connect_stdio config env (connecting_state (id config) env w)
      = (Returned tt, w1)
    /\ listToolsStdio (id config) env w1 = (Returned tools, w2)
    /\ w' = snd (setServerState (id config) (connected_with tools) env w2).
Proof.
  intros Hn. rewrite (startStdioServer_unfold _ _ _ Hn). intros H.
  apply try_catch_Returned_inv in H;
    [|intros; apply catch_stdio_throws].
  apply bind_Returned_inv in H as ([] & w1 & Hc & H).
  apply bind_Returned_inv in H as (tools & w2 & Hl & H).
  exists w1, tools, w2. split; [exact Hc|]. split; [exact Hl|].
  unfold setServerState, modify in *. injection H as <-. reflexivity.
Qed.

Lemma startHttpServer_returned env w config w' :
  activeServers w !! id config = None ->
  startHttpServer config env w = (Returned tt, w') ->
  exists w1 tools w2,
    connect_http config env (connecting_state (id config) env w)
      = (Returned tt, w1)
    /\ listToolsHttp (id config) env w1 = (Returned tools, w2)
    /\ w' = snd (setServerState (id config) (connected_with tools) env w2).
Proof.
  intros Hn. rewrite (startHttpServer_unfold _ _ _ Hn). intros H.
  apply try_catch_Returned_inv in H;
    [|intros; apply catch_http_throws].
  apply bind_Returned_inv in H as ([] & w1 & Hc & H).
  apply bind_Returned_inv in H as (tools & w2 & Hl & H).
  exists w1, tools, w2. split; [exact Hc|]. split; [exact Hl|].
  unfold setServerState, modify in *. injection H as <-. reflexivity.
Qed.

(** C10.  A [tools/list] result that is [undefined], [null] or has no
    [tools] field gives the empty list: the helpers of both transports
    return [[]] when their request resolves with such a result, they do not
    throw.  And so the start functions go on: when [startStdioServer] or
    [startHttpServer], called for a server without session, has made its
    connection and its [tools/list] request resolves with such a result, it
    returns, and the state of the server is [connected] with the tools
    [[]].  In general a start function that returns has stored
    [result?.tools || []] for the result of its [tools/list] request, with
    the status [connected]. *)
Theorem C10_missing_tools_is_empty_list :
  (forall result, without_tools result -> tools_of_result result = JArr [])
  /\ (forall env w serverId pt w1 result w2,
        sendStdioRequest serverId (lit "tools/list") None env w
          = (Returned pt, w1) ->
        await_promise pt env w1 = (Returned result, w2) ->
        without_tools result ->
        listToolsStdio serverId env w = (Returned (JArr []), w2))
  /\ (forall env w serverId pt w1 result w2,
        sendHttpRequest serverId (lit "tools/list") None env w
          = (Returned pt, w1) ->
        await_promise pt env w1 = (Returned result, w2) ->
        without_tools result ->
        listToolsHttp serverId env w = (Returned (JArr []), w2))
  /\ (forall env w config w1 pt w2 result w3,
        activeServers w !! id config = None ->
        connect_stdio config env (connecting_state (id config) env w)
          = (Returned tt, w1) ->
        sendStdioRequest (id config) (lit "tools/list") None env w1
          = (Returned pt, w2) ->
        await_promise pt env w2 = (Returned result, w3) ->
        without_tools result ->
        exists w' st,
          startStdioServer config env w = (Returned tt, w')
          /\ serverStates w' !! id config = Some st
          /\ status st = connected /\ tools st = JArr [])
  /\ (forall env w config w1 pt w2 result w3,
        activeServers w !! id config = None ->
        connect_http config env (connecting_state (id config) env w)
          = (Returned tt, w1) ->
        sendHttpRequest (id config) (lit "tools/list") None env w1
          = (Returned pt, w2) ->
        await_promise pt env w2 = (Returned result, w3) ->
        without_tools result ->
        exists w' st,
          startHttpServer config env w = (Returned tt, w')
          /\ serverStates w' !! id config = Some st
          /\ status st = connected /\ tools st = JArr [])
  /\ (forall env w config w',
        activeServers w !! id config = None ->
        startStdioServer config env w = (Returned tt, w') ->
        exists w1 pt w2 result st,
          connect_stdio config env (connecting_state (id config) env w)
            = (Returned tt, w1)
          /\ sendStdioRequest (id config) (lit "tools/list") None env w1
             = (Returned pt, w2)
          /\ fst (await_promise pt env w2) = Returned result
          /\ serverStates w' !! id config = Some st
          /\ status st = connected /\ tools st = tools_of_result result)
  /\ (forall env w config w',
        activeServers w !! id config = None ->
        startHttpServer config env w = (Returned tt, w') ->
        exists w1 pt w2 result st,
          connect_http config env (connecting_state (id config) env w)
            = (Returned tt, w1)
          /\ sendHttpRequest (id config) (lit "tools/list") None env w1
             = (Returned pt, w2)
          /\ fst (await_promise pt env w2) = Returned result
          /\ serverStates w' !! id config = Some st
          /\ status st = connected /\ tools st = tools_of_result result).
Proof.
  split; [exact tools_of_result_nullish|].
  split; [|split; [|split; [|split; [|split]]]].
  - intros env w serverId pt w1 result w2 Hs Ha Hr.
    rewrite (listToolsStdio_run _ _ _ _ _ _ _ Hs Ha).
    rewrite (tools_of_result_nullish _ Hr). reflexivity.
  - intros env w serverId pt w1 result w2 Hs Ha Hr.
    rewrite (listToolsHttp_run _ _ _ _ _ _ _ Hs Ha).
    rewrite (tools_of_result_nullish _ Hr). reflexivity.
  - intros env w config w1 pt w2 result w3 Hn Hc Hs Ha Hr.
    pose proof (listToolsStdio_run _ _ _ _ _ _ _ Hs Ha) as Hl.
    rewrite (tools_of_result_nullish _ Hr) in Hl.
    destruct (setServerState_connected env w3 (id config) (JArr []))
      as (st & Hst & H1 & H2).
    eexists. exists st.
    split; [exact (startStdioServer_listed _ _ _ _ _ _ Hn Hc Hl)|]. auto.
  - intros env w config w1 pt w2 result w3 Hn Hc Hs Ha Hr.
    pose proof (listToolsHttp_run _ _ _ _ _ _ _ Hs Ha) as Hl.
    rewrite (tools_of_result_nullish _ Hr) in Hl.
    destruct (setServerState_connected env w3 (id config) (JArr []))
      as (st & Hst & H1 & H2).
    eexists. exists st.
    split; [exact (startHttpServer_listed _ _ _ _ _ _ Hn Hc Hl)|]. auto.
  - intros env w config w' Hn H.
    destruct (startStdioServer_returned _ _ _ _ Hn H)
      as (w1 & tools & w3 & Hc & Hl & ->).
    destruct (listToolsStdio_inv _ _ _ _ _ Hl) as (pt & w2 & result & Hs & Ha & ->).
    destruct (setServerState_connected env w3 (id config)
                (tools_of_result result)) as (st & Hst & H1 & H2).
    exists w1, pt, w2, result, st. rewrite Ha.
    split; [exact Hc|]. split; [exact Hs|]. split; [reflexivity|]. auto.
  - intros env w config w' Hn H.
    destruct (startHttpServer_returned _ _ _ _ Hn H)
      as (w1 & tools & w3 & Hc & Hl & ->).
    destruct (listToolsHttp_inv _ _ _ _ _ Hl) as (pt & w2 & result & Hs & Ha & ->).
    destruct (setServerState_connected env w3 (id config)
                (tools_of_result result)) as (st & Hst & H1 & H2).
    exists w1, pt, w2, result, st. rewrite Ha.
    split; [exact Hc|]. split; [exact Hs|]. split; [reflexivity|]. auto.
Qed.

Lemma C10_missing_tools_is_empty_list_witness :
  exists w' st,
    startStdioServer Examples.config Examples.answering empty_world
    = (Returned tt, w')
    /\ serverStates w' !! id Examples.config = Some st
    /\ status st = connected /\ tools st = JArr [].
Proof.
  pose (w0 := connecting_state (id Examples.config) Examples.answering
                empty_world).
  pose (w1 := snd (connect_stdio Examples.config Examples.answering w0)).
  pose (w2 := snd (sendStdioRequest (id Examples.config) (lit "tools/list")
                     None Examples.answering w1)).
  pose (w3 := snd (await_promise (6%nat, 7%nat) Examples.answering w2)).
  refine (proj1 (proj2 (proj2 (proj2 C10_missing_tools_is_empty_list)))
            Examples.answering empty_world Examples.config
            w1 (6%nat, 7%nat) w2 (Some (JObj [])) w3 _ _ _ _ _).
  - reflexivity.
  - vm_compute. reflexivity.
  - vm_compute. reflexivity.
  - vm_compute. reflexivity.
  - right. right. reflexivity.
Defined.

(** *** The stdout demultiplexer *)

Lemma split_snoc_LF s : split LF (s ++ [LF]) = split LF s ++ [[]].
Proof.
  induction s as [|c s IH]; [reflexivity|].
  change ((c :: s) ++ [LF]) with (c :: (s ++ [LF])).
  destruct (N.eqb c LF) eqn:Hc.
  - simpl. rewrite Hc. simpl in IH. rewrite IH. reflexivity.
  - destruct (StreamingFacts.split_cons_other LF c s Hc) as [l [ls [Hs Hcs]]].
    destruct (StreamingFacts.split_cons_other LF c (s ++ [LF]) Hc)
      as [l' [ls' [Hs' Hcs']]].
    rewrite Hcs', Hcs. rewrite IH, Hs in Hs'. simpl in Hs'.
    injection Hs' as <- <-. reflexivity.
Qed.

Lemma pop_terminated s : pop (split LF (s ++ [LF])) = (split LF s, Some []).
Proof.
  unfold pop. rewrite split_snoc_LF, removelast_last, last_snoc. reflexivity.
Qed.

(** The buffers of the session objects. *)
Definition buffers (w : World) : gmap nat jsstring := buffer <$> heap w.

Lemma buffers_update_pending server f w :
  buffers (update_server server (set_server_pending f) w) = buffers w.
Proof.
  unfold buffers, update_server. simpl.
  destruct (heap w !! server) as [s|] eqn:Hs; [|reflexivity].
  rewrite fmap_insert. simpl. apply insert_id.
  rewrite lookup_fmap, Hs. reflexivity.
Qed.

Lemma buffers_settle p st w : buffers (settle p st w) = buffers w.
Proof. unfold settle. destruct (promises w !! p) as [[]|]; reflexivity. Qed.

Lemma buffers_call_pending src pending st w :
  buffers (call_pending src pending st w) = buffers w.
Proof.
  unfold call_pending. rewrite buffers_settle.
  destruct (timeout pending); reflexivity.
Qed.

Lemma buffers_handleResponse serverId response env w :
  buffers (snd (handleResponse serverId response env w)) = buffers w.
Proof.
  unfold handleResponse.
  destruct (active_server serverId w) as [[server s]|]; [|reflexivity].
  destruct response as [[]|]; try reflexivity;
    match goal with
    | |- context [match ?x with Some _ => _ | None => _ end] =>
        destruct x as [[k pending]|]; [|reflexivity]
    end;
    match goal with
    | |- context [if ?b then _ else _] => destruct b
    end; simpl;
    rewrite buffers_call_pending; apply buffers_update_pending.
Qed.

Lemma buffers_stdout_line config_id line env w :
  buffers (snd (stdout_line config_id line env w)) = buffers w.
Proof.
  unfold stdout_line. destruct (truthy_str (trim line)); [|reflexivity].
  unfold try_catch, bind, asks.
  destruct (JSON_parse env line) as [response|]; [|reflexivity].
  pose proof (buffers_handleResponse config_id (Some response) env w) as H.
  destruct (handleResponse config_id (Some response) env w) as [[| |] w'];
    exact H.
Qed.

Lemma stdout_line_returns config_id line env w :
  fst (stdout_line config_id line env w) = Returned tt.
Proof.
  unfold stdout_line. destruct (truthy_str (trim line)); [|reflexivity].
  unfold try_catch, bind, asks.
  destruct (JSON_parse env line) as [response|]; [|reflexivity].
  unfold handleResponse.
  destruct (active_server config_id w) as [[server s]|]; [|reflexivity].
  destruct response; try reflexivity;
    match goal with
    | |- context [match ?x with Some _ => _ | None => _ end] =>
        destruct x as [[k pending]|]; [|reflexivity]
    end;
    match goal with
    | |- context [if ?b then _ else _] => destruct b
    end; reflexivity.
Qed.

Lemma buffers_stdout_lines config_id lines env w :
  fst (for_each (stdout_line config_id) lines env w) = Returned tt
  /\ buffers (snd (for_each (stdout_line config_id) lines env w)) = buffers w.
Proof.
  revert w. induction lines as [|l ls IH]; intros w; [split; reflexivity|].
  simpl. unfold bind.
  pose proof (stdout_line_returns config_id l env w) as Hr.
  pose proof (buffers_stdout_line config_id l env w) as Hb.
  destruct (stdout_line config_id l env w) as [r w1]. simpl in Hr, Hb.
  subst r. destruct (IH w1) as [H1 H2]. split; [exact H1|].
  rewrite H2. exact Hb.
Qed.

Lemma set_server_buffer_same s : set_server_buffer (buffer s) s = s.
Proof. destruct s; reflexivity. Qed.

Lemma update_server_id server w s :
  heap w !! server = Some s -> update_server server (fun _ => s) w = w.
Proof.
  intros H. unfold update_server, set_heap. rewrite H.
  rewrite (insert_id _ _ _ H). destruct w; reflexivity.
Qed.

(** The handler for an event addressed to its server. *)
Lemma on_stdout_lines env w config_id server serverState data :
  heap w !! server = Some serverState ->
  on_stdout config_id server config_id data env w
  = for_each (stdout_line config_id)
      (split LF (buffer serverState ++ data)) env
      (update_server server (set_server_buffer []) w).
Proof.
  intros H. unfold on_stdout, str_eqb.
  rewrite bool_decide_true by reflexivity.
  change (negb true) with false. cbv iota.
  unfold bind at 1, gets. rewrite H.
  replace (buffer serverState ++ data ++ [LF])
    with ((buffer serverState ++ data) ++ [LF])
    by (rewrite <- app_assoc; reflexivity).
  rewrite pop_terminated. reflexivity.
Qed.

(** C3 (as the code has it).  The handler appends the data of an event and
    a line feed to the buffer and splits on the line feed: every event is
    handled at once as the lines of the buffer and the data, each non-blank
    line parsed on its own, and the buffer is empty after every event.
    Nothing is held back for the next event. *)
Theorem C3_stdout_event_is_whole_lines env w config_id server serverState data :
  heap w !! server = Some serverState ->
  on_stdout config_id server config_id data env w
  = for_each (stdout_line config_id)
      (split LF (buffer serverState ++ data)) env
      (update_server server (set_server_buffer []) w)
  /\ fst (on_stdout config_id server config_id data env w) = Returned tt
  /\ buffers (snd (on_stdout config_id server config_id data env w)) !! server
     = Some [].
Proof.
  intros H. rewrite (on_stdout_lines _ _ _ _ _ _ H).
  split; [reflexivity|].
  destruct (buffers_stdout_lines config_id
              (split LF (buffer serverState ++ data)) env
              (update_server server (set_server_buffer []) w)) as [H1 H2].
  split; [exact H1|]. rewrite H2.
  unfold buffers, update_server. simpl. rewrite H.
  rewrite lookup_fmap, lookup_insert_eq. reflexivity.
Qed.

Lemma C3_stdout_event_is_whole_lines_witness :
  heap Examples.requested !! 0%nat = Some Examples.requested_session
  /\ buffers (snd (on_stdout Examples.s 0%nat Examples.s Examples.piece1
                     Examples.quiet Examples.requested)) !! 0%nat
     = Some [].
Proof.
  assert (H : heap Examples.requested !! 0%nat
              = Some Examples.requested_session)
    by (vm_compute; reflexivity).
  split; [exact H|].
  exact (proj2 (proj2 (C3_stdout_event_is_whole_lines
                         Examples.quiet Examples.requested Examples.s 0%nat
                         Examples.requested_session Examples.piece1 H))).
Defined.

(** A reply that arrives in two events is not put together: each piece is
    handled as a line of its own and dropped, nothing is kept in the buffer,
    and the request stays pending; the same reply in one event resolves it. *)
Lemma C3_counterexample :
  promises (run_events Examples.quiet
              [McpStdout Examples.s Examples.piece1;
               McpStdout Examples.s Examples.piece2] Examples.requested)
    !! 3%nat = Some Pending
  /\ buffers (run_events Examples.quiet
                [McpStdout Examples.s Examples.piece1] Examples.requested)
       !! 0%nat = Some []
  /\ promises (run_events Examples.quiet
                 [McpStdout Examples.s (Examples.piece1 ++ Examples.piece2)]
                 Examples.requested)
       !! 3%nat = Some (Fulfilled (Some (JObj []))).
Proof. vm_compute. repeat split; reflexivity. Qed.

(** *** The correlator: one response *)

(** The pending entry a response is for: the session object, the key and
    the entry. *)
Definition pending_for (serverId : jsstring) (response : unknown) (w : World)
  : option (nat * rpc_id * PendingRequest) :=
  '(server, s) ← active_server serverId w;
  k ← key_of (opt_get response (lit "id"));
  pending ← pendingRequests s !! k;
  Some (server, k, pending).

(** How a response settles the promise of its request. *)
Definition response_outcome (env : Env) (response : unknown) : PromiseState :=
  if truthy (opt_get response (lit "error")) then
    Rejected (Error (Error_message env
                       (opt_get (opt_get response (lit "error"))
                                (lit "message"))))
  else Fulfilled (opt_get response (lit "result")).

Lemma handleResponse_found env w serverId response server k pending :
  pending_for serverId response w = Some (server, k, pending) ->
  handleResponse serverId response env w
  = (Returned tt,
     call_pending ByResponse pending (response_outcome env response)
       (delete_pending server k w)).
Proof.
  unfold pending_for, handleResponse, response_outcome. intros H.
  destruct (active_server serverId w) as [[server' s]|]; [|discriminate].
  simpl in H.
  destruct response as [r|]; [|discriminate].
  destruct r; try discriminate;
    (destruct (key_of _) as [k'|]; [|discriminate]); simpl in H |- *;
    (destruct (pendingRequests s !! k') as [p'|]; [|discriminate]);
    simpl in H |- *; injection H as <- <- <-;
    match goal with
    | |- context [if ?b then _ else _] => destruct b
    end; reflexivity.
Qed.

Lemma handleResponse_discarded env w serverId response :
  pending_for serverId response w = None ->
  snd (handleResponse serverId response env w) = w.
Proof.
  unfold pending_for, handleResponse. intros H.
  destruct (active_server serverId w) as [[server s]|]; [|reflexivity].
  simpl in H.
  destruct response as [r|]; [|reflexivity].
  destruct r; try reflexivity;
    (destruct (key_of _) as [k|]; [|reflexivity]); simpl in H |- *;
    (destruct (pendingRequests s !! k) as [p|]; [discriminate|reflexivity]).
Qed.

Lemma promises_settle p st w q :
  q <> p -> promises (settle p st w) !! q = promises w !! q.
Proof.
  intros Hq. unfold settle.
  destruct (promises w !! p) as [[]|]; try reflexivity.
  simpl. apply lookup_insert_ne. congruence.
Qed.

Lemma promises_settle_pending p st w :
  promises w !! p = Some Pending -> promises (settle p st w) !! p = Some st.
Proof.
  intros H. unfold settle. rewrite H. simpl. apply lookup_insert_eq.
Qed.

Lemma settle_promises_only p st w :
  heap (settle p st w) = heap w /\ timers (settle p st w) = timers w
  /\ activeServers (settle p st w) = activeServers w
  /\ settlements (settle p st w) = settlements w
  /\ fresh (settle p st w) = fresh w.
Proof.
  unfold settle. destruct (promises w !! p) as [[]|]; repeat split.
Qed.

Lemma call_pending_promises src pending st w :
  promises (call_pending src pending st w)
  = promises (settle (promise pending) st w).
Proof.
  unfold call_pending, settle, record_settlement, clearTimeout.
  destruct (timeout pending); simpl;
    destruct (promises w !! promise pending) as [[]|]; reflexivity.
Qed.

Lemma call_pending_heap src pending st w :
  heap (call_pending src pending st w) = heap w.
Proof.
  unfold call_pending.
  destruct (settle_promises_only (promise pending) st
              (record_settlement (promise pending) src
                 match timeout pending with
                 | Some t => clearTimeout t w
                 | None => w
                 end)) as [-> _].
  destruct (timeout pending); reflexivity.
Qed.

Lemma call_pending_activeServers src pending st w :
  activeServers (call_pending src pending st w) = activeServers w.
Proof.
  unfold call_pending.
  destruct (settle_promises_only (promise pending) st
              (record_settlement (promise pending) src
                 match timeout pending with
                 | Some t => clearTimeout t w
                 | None => w
                 end)) as (_ & _ & -> & _).
  destruct (timeout pending); reflexivity.
Qed.

Lemma call_pending_timers src pending st w :
  timers (call_pending src pending st w)
  = match timeout pending with
    | Some t => delete t (timers w)
    | None => timers w
    end.
Proof.
  unfold call_pending.
  destruct (settle_promises_only (promise pending) st
              (record_settlement (promise pending) src
                 match timeout pending with
                 | Some t => clearTimeout t w
                 | None => w
                 end)) as (_ & -> & _).
  destruct (timeout pending); reflexivity.
Qed.

Lemma call_pending_settlements src pending st w :
  settlements (call_pending src pending st w)
  = settlements w ++ [(promise pending, src)].
Proof.
  unfold call_pending.
  destruct (settle_promises_only (promise pending) st
              (record_settlement (promise pending) src
                 match timeout pending with
                 | Some t => clearTimeout t w
                 | None => w
                 end)) as (_ & _ & _ & -> & _).
  destruct (timeout pending); reflexivity.
Qed.

(** The entry at a key of a session object. *)
Definition pending_at (w : World) (server : nat) (k : rpc_id)
  : option PendingRequest :=
  s ← heap w !! server; pendingRequests s !! k.

Lemma pending_at_delete w server k server' k' :
  pending_at (delete_pending server k w) server' k'
  = if bool_decide ((server', k') = (server, k)) then None
    else pending_at w server' k'.
Proof.
  unfold pending_at, delete_pending, update_server. simpl.
  destruct (heap w !! server) as [s|] eqn:Hs.
  - destruct (decide (server' = server)) as [->|Hne].
    + rewrite lookup_insert_eq, Hs. simpl.
      destruct (decide (k' = k)) as [->|Hk].
      * rewrite bool_decide_true by reflexivity. apply lookup_delete_eq.
      * rewrite bool_decide_false by congruence.
        apply lookup_delete_ne. congruence.
    + rewrite lookup_insert_ne by congruence.
      rewrite bool_decide_false by congruence. reflexivity.
  - case_bool_decide as Heq; [|reflexivity].
    injection Heq as -> ->. rewrite Hs. reflexivity.
Qed.

Lemma pending_for_at serverId response w server k pending :
  pending_for serverId response w = Some (server, k, pending) ->
  activeServers w !! serverId = Some server
  /\ key_of (opt_get response (lit "id")) = Some k
  /\ pending_at w server k = Some pending.
Proof.
  unfold pending_for, pending_at. intros H.
  destruct (active_server serverId w) as [[server' s]|] eqn:Ha;
    [|discriminate].
  apply active_server_Some in Ha. destruct Ha as [Ha Hh]. simpl in H.
  destruct (key_of _) as [k'|]; [|discriminate]. simpl in H.
  destruct (pendingRequests s !! k') as [p'|] eqn:Hp; [|discriminate].
  injection H as <- <- <-. rewrite Hh. simpl. auto.
Qed.

Lemma pending_for_None_after serverId response w server k :
  activeServers w !! serverId = Some server ->
  key_of (opt_get response (lit "id")) = Some k ->
  pending_at w server k = None ->
  pending_for serverId response w = None.
Proof.
  unfold pending_for, pending_at, active_server. intros Ha Hk Hp.
  rewrite Ha. simpl.
  destruct (heap w !! server) as [s|]; [|reflexivity]. simpl in *.
  rewrite Hk. simpl. rewrite Hp. reflexivity.
Qed.

(** What handling a response for a pending entry does. *)
Lemma handleResponse_completes env w serverId response server k pending :
  pending_for serverId response w = Some (server, k, pending) ->
  let w' := snd (handleResponse serverId response env w) in
  pending_for serverId response w' = None
  /\ (forall server' k', (server', k') <> (server, k) ->
        pending_at w' server' k' = pending_at w server' k')
  /\ (forall q, q <> promise pending -> promises w' !! q = promises w !! q)
  /\ (promises w !! promise pending = Some Pending ->
      promises w' !! promise pending = Some (response_outcome env response))
  /\ (forall t, timeout pending = Some t -> timers w' !! t = None)
  /\ (forall t, timeout pending <> Some t -> timers w' !! t = timers w !! t)
  /\ settlements w' = settlements w ++ [(promise pending, ByResponse)].
Proof.
  intros H w'. subst w'. rewrite (handleResponse_found _ _ _ _ _ _ _ H).
  cbn [snd]. destruct (pending_for_at _ _ _ _ _ _ H) as (Ha & Hk & Hp).
  assert (Hat : forall server' k',
             pending_at (call_pending ByResponse pending
                           (response_outcome env response)
                           (delete_pending server k w)) server' k'
             = pending_at (delete_pending server k w) server' k').
  { intros. unfold pending_at. rewrite call_pending_heap. reflexivity. }
  repeat split.
  - apply (pending_for_None_after _ _ _ server k).
    + rewrite call_pending_activeServers. exact Ha.
    + exact Hk.
    + rewrite Hat, pending_at_delete, bool_decide_true; reflexivity.
  - intros server' k' Hne.
    rewrite Hat, pending_at_delete, bool_decide_false by exact Hne.
    reflexivity.
  - intros q Hq. rewrite call_pending_promises.
    rewrite promises_settle by exact Hq. reflexivity.
  - intros Hpend. rewrite call_pending_promises.
    apply promises_settle_pending. exact Hpend.
  - intros t Ht. rewrite call_pending_timers, Ht. apply lookup_delete_eq.
  - intros t Ht. rewrite call_pending_timers.
    destruct (timeout pending) as [t'|]; [|reflexivity].
    apply lookup_delete_ne. congruence.
  - rewrite call_pending_settlements. reflexivity.
Qed.

(** C7 (as the code has it).  A response with a JSON-RPC error object for a
    pending request rejects the promise of exactly that request with
    [new Error(response.error.message)]: an error that carries the message
    of the protocol error (and not its code).  Every other pending entry,
    every other promise and every other timer is left as it was. *)
Theorem C7_error_response_rejects_its_request
    env w serverId response server k pending :
  pending_for serverId response w = Some (server, k, pending) ->
  truthy (opt_get response (lit "error")) = true ->
  promises w !! promise pending = Some Pending ->
  let w' := snd (handleResponse serverId response env w) in
  promises w' !! promise pending
  = Some (Rejected (Error (Error_message env
                             (opt_get (opt_get response (lit "error"))
                                      (lit "message")))))
  /\ (forall message,
        opt_get (opt_get response (lit "error")) (lit "message")
        = Some (JStr message) ->
        promises w' !! promise pending = Some (Rejected (Error message))
        /\ error_message (Error message) = message)
  /\ (forall q, q <> promise pending -> promises w' !! q = promises w !! q)
  /\ (forall server' k', (server', k') <> (server, k) ->
        pending_at w' server' k' = pending_at w server' k')
  /\ (forall t, timeout pending <> Some t -> timers w' !! t = timers w !! t).
Proof.
  intros H Herr Hpend w'.
  destruct (handleResponse_completes env _ _ _ _ _ _ H)
    as (_ & Hat & Hq & Hp & _ & Ht & _).
  fold w' in Hat, Hq, Hp, Ht.
  specialize (Hp Hpend). unfold response_outcome in Hp. rewrite Herr in Hp.
  split; [exact Hp|]. split; [|split; [exact Hq|split; [exact Hat|exact Ht]]].
  intros message Hm. rewrite Hp, Hm. split; reflexivity.
Qed.

Lemma C7_error_response_rejects_its_request_witness :
  promises (snd (handleResponse Examples.s (Some (Examples.error_reply (-32601)))
                   Examples.quiet Examples.requested)) !! 3%nat
  = Some (Rejected (Error (lit "Method not found"))).
Proof.
  assert (H1 : pending_for Examples.s (Some (Examples.error_reply (-32601)))
                 Examples.requested
               = Some (0%nat, IdNum 1,
                       {| promise := 3%nat; timeout := Some 4%nat |}))
    by (vm_compute; reflexivity).
  assert (H2 : truthy (opt_get (Some (Examples.error_reply (-32601)))
                         (lit "error")) = true)
    by (vm_compute; reflexivity).
  assert (H3 : promises Examples.requested !! 3%nat = Some Pending)
    by (vm_compute; reflexivity).
  exact (proj1 (C7_error_response_rejects_its_request
                  Examples.quiet Examples.requested Examples.s
                  (Some (Examples.error_reply (-32601))) 0%nat (IdNum 1)
                  {| promise := 3%nat; timeout := Some 4%nat |} H1 H2 H3)).
Defined.

(** Two error replies that differ only in their code reject the request
    with the same error: the code cannot be read off the rejection. *)
Lemma C7_counterexample :
  promises (snd (handleResponse Examples.s (Some (Examples.error_reply (-32601)))
                   Examples.quiet Examples.requested)) !! 3%nat
  = Some (Rejected (JsError (lit "Error") (lit "Method not found")))
  /\ promises (snd (handleResponse Examples.s
                      (Some (Examples.error_reply (-32000)))
                      Examples.quiet Examples.requested)) !! 3%nat
     = Some (Rejected (JsError (lit "Error") (lit "Method not found")))
  /\ ~ (exists code_of : thrown -> Z,
          forall code reason,
            promises (snd (handleResponse Examples.s
                             (Some (Examples.error_reply code))
                             Examples.quiet Examples.requested)) !! 3%nat
            = Some (Rejected reason) ->
            code_of reason = code).
Proof.
  assert (H1 : promises (snd (handleResponse Examples.s
                                (Some (Examples.error_reply (-32601)))
                                Examples.quiet Examples.requested)) !! 3%nat
               = Some (Rejected (JsError (lit "Error")
                                   (lit "Method not found"))))
    by (vm_compute; reflexivity).
  assert (H2 : promises (snd (handleResponse Examples.s
                                (Some (Examples.error_reply (-32000)))
                                Examples.quiet Examples.requested)) !! 3%nat
               = Some (Rejected (JsError (lit "Error")
                                   (lit "Method not found"))))
    by (vm_compute; reflexivity).
  split; [exact H1|]. split; [exact H2|].
  intros [code_of Hc].
  pose proof (Hc _ _ H1) as E1. pose proof (Hc _ _ H2) as E2.
  rewrite E1 in E2. discriminate E2.
Qed.

(** *** What the service adds to the trace *)

(** The actions of the MCP service: all but the two of the chat turn. *)
Definition mcp_io (a : io) : bool :=
  match a with
  | LlmRequest | SignalAborted => false
  | _ => true
  end.

(** [w'] has the trace of [w] and then actions of the MCP service. *)
Definition appends (w w' : World) : Prop :=
  exists extra, trace w' = trace w ++ extra /\ forallb mcp_io extra = true.

Lemma appends_refl w : appends w w.
Proof. exists []. rewrite app_nil_r. split; reflexivity. Qed.

Lemma appends_trans a b c : appends a b -> appends b c -> appends a c.
Proof.
  intros [x [Hx Fx]] [y [Hy Fy]]. exists (x ++ y).
  rewrite Hy, Hx, app_assoc. split; [reflexivity|].
  rewrite forallb_app, Fx, Fy. reflexivity.
Qed.

Lemma appends_same w w' : trace w' = trace w -> appends w w'.
Proof. intros H. exists []. rewrite app_nil_r. split; [exact H|reflexivity]. Qed.

Lemma trace_settle p st w : trace (settle p st w) = trace w.
Proof. unfold settle. destruct (promises w !! p) as [[]|]; reflexivity. Qed.

Lemma trace_call_pending src pending st w :
  trace (call_pending src pending st w) = trace w.
Proof.
  unfold call_pending. rewrite trace_settle.
  destruct (timeout pending); reflexivity.
Qed.

Lemma trace_handleResponse serverId response env w :
  trace (snd (handleResponse serverId response env w)) = trace w.
Proof.
  destruct (pending_for serverId response w) as [[[server k] pending]|] eqn:H.
  - rewrite (handleResponse_found _ _ _ _ _ _ _ H). cbn [snd].
    rewrite trace_call_pending. reflexivity.
  - rewrite (handleResponse_discarded _ _ _ _ H). reflexivity.
Qed.

Lemma appends_handleResponse serverId response :
  preserves appends (handleResponse serverId response).
Proof. intros env w. apply appends_same, trace_handleResponse. Qed.

Ltac same_trace :=
  apply appends_same;
  first [ reflexivity
        | apply trace_settle
        | unfold request_timeout, transmission_failed;
          rewrite trace_settle; reflexivity ].

Ltac appends_leaf :=
  first
    [ apply appends_handleResponse
    | same_trace
    | match goal with
      | |- appends ?w (set_trace _ ?w) =>
          eexists [_]; split; [reflexivity | reflexivity]
      end ].

Ltac appending := preserve appends_refl appends_trans appends_leaf.

Lemma appends_stdout_line config_id line :
  preserves appends (stdout_line config_id line).
Proof. unfold stdout_line. appending. Qed.

Lemma appends_on_stdout config_id server server_id data :
  preserves appends (on_stdout config_id server server_id data).
Proof.
  unfold on_stdout. appending. apply appends_stdout_line.
Qed.

Lemma appends_close_eventSource es : preserves appends (close_eventSource es).
Proof. unfold close_eventSource, perform. appending. Qed.

Lemma appends_on_sse_message e data : preserves appends (on_sse_message e data).
Proof. unfold on_sse_message. appending. Qed.

Lemma appends_on_post_reply server_id req body :
  preserves appends (on_post_reply server_id req body).
Proof. unfold on_post_reply. appending. Qed.

Lemma appends_dispatch ev : preserves appends (dispatch ev).
Proof.
  destruct ev; unfold dispatch; appending;
    try first [ apply appends_on_stdout | apply appends_close_eventSource
              | apply appends_on_post_reply | apply appends_on_sse_message ].
Qed.

Lemma appends_run_event env w ev : appends w (run_event env w ev).
Proof. apply appends_dispatch. Qed.

Lemma appends_run_events env evs w : appends w (run_events env evs w).
Proof.
  revert w. induction evs as [|ev evs IH]; intros w; [apply appends_refl|].
  simpl. eapply appends_trans; [apply appends_run_event | apply IH].
Qed.

Lemma appends_wait : preserves appends wait.
Proof.
  intros env w. unfold wait. simpl.
  eapply appends_trans; [|apply appends_run_events].
  apply appends_same. reflexivity.
Qed.












Lemma appends_await_host : preserves appends await_host.
Proof. unfold await_host. appending; apply appends_wait. Qed.







End McpFacts.

(* ===================================================================== *)
(** ** The correlator over whole runs *)
(* ===================================================================== *)

Module CorrelatorFacts.
Import Mcp ProgFacts McpFacts.

Local Open Scope nat_scope.

(** A call of [resolve] or [reject] made for a response or by the request
    timer (and not by the failure of the transmission). *)
Definition counted (src : source) : bool :=
  match src with
  | ByTransmission => false
  | _ => true
  end.

(** How often the request with promise [p] was completed by a response or
    by its timeout. *)
Fixpoint completions (p : nat) (l : list (nat * source)) : nat :=
  match l with
  | [] => 0
  | (q, src) :: rest =>
      (if bool_decide (q = p) && counted src then 1 else 0)
      + completions p rest
  end.

Lemma completions_snoc p l q src :
  completions p (l ++ [(q, src)])
  = completions p l + (if bool_decide (q = p) && counted src then 1 else 0).
Proof.
  induction l as [|[q' src'] l IH]; simpl; [lia|]. rewrite IH. lia.
Qed.

(** The invariant of the correlator: every pending entry holds the timer
    that was started for it, a request whose timer is still set has not been
    completed, and no request was completed twice. *)
Record correlated (w : World) : Prop := {
  entry_timer : forall server k pr,
    pending_at w server k = Some pr ->
    exists t req m,
      timeout pr = Some t /\ k = IdNum req
      /\ timers w !! t = Some (RequestTimeout server req (promise pr) m);
  timer_open : forall t server req p m,
    timers w !! t = Some (RequestTimeout server req p m) ->
    completions p (settlements w) = 0;
  timer_promise : forall t1 t2 s1 r1 m1 s2 r2 m2 p,
    timers w !! t1 = Some (RequestTimeout s1 r1 p m1) ->
    timers w !! t2 = Some (RequestTimeout s2 r2 p m2) -> t1 = t2;
  timers_below : forall t x, timers w !! t = Some x -> t < fresh w;
  timer_promise_below : forall t s r p m,
    timers w !! t = Some (RequestTimeout s r p m) -> p < fresh w;
  promises_below : forall p st, promises w !! p = Some st -> p < fresh w;
  completed_below : forall p,
    fresh w <= p -> completions p (settlements w) = 0;
  completed_settled : forall p,
    1 <= completions p (settlements w) -> promises w !! p <> Some Pending;
  at_most_once : forall p, completions p (settlements w) <= 1
}.

(** *** The shapes of what one step does to the correlator *)

(** Nothing of the correlator changes, but that handles are taken, promises
    are created or settled, and timers that are not request timers are set
    or cleared. *)
Record quiet (w w' : World) : Prop := {
  q_pending : forall s k, pending_at w' s k = pending_at w s k;
  q_timers : forall t s r p m,
    timers w' !! t = Some (RequestTimeout s r p m)
    <-> timers w !! t = Some (RequestTimeout s r p m);
  q_timers_below : forall t x,
    timers w' !! t = Some x ->
    timers w !! t = Some x \/ (fresh w <= t /\ t < fresh w');
  q_settlements : settlements w' = settlements w;
  q_settled : forall q st,
    promises w !! q = Some st -> st <> Pending -> promises w' !! q = Some st;
  q_known : forall q, is_Some (promises w !! q) -> is_Some (promises w' !! q);
  q_pending_promise : forall q,
    promises w' !! q = Some Pending ->
    promises w !! q = Some Pending \/ fresh w <= q;
  q_promises_below : forall q st,
    promises w' !! q = Some st ->
    is_Some (promises w !! q) \/ q < fresh w';
  q_fresh : fresh w <= fresh w'
}.

(** The entry at [(server, k)] is deleted, the timer [del] is cleared, and
    [resolve] or [reject] is called for [p]. *)
Definition removes (w w' : World) (server : nat) (k : rpc_id)
    (del : option nat) (p : nat) (src : source) (st : PromiseState) : Prop :=
  (forall s' k',
      pending_at w' s' k'
      = if bool_decide ((s', k') = (server, k)) then None
        else pending_at w s' k')
  /\ timers w' = match del with
                 | Some t => delete t (timers w)
                 | None => timers w
                 end
  /\ settlements w' = settlements w ++ [(p, src)]
  /\ promises w' = promises (settle p st w)
  /\ st <> Pending
  /\ fresh w' = fresh w.

(** A request is registered, with the new promise [fresh w] and the new
    timer [fresh w + 1]. *)
Definition registers (w w' : World) (server : nat) (req : Z)
    (method : jsstring) : Prop :=
  (forall s' k',
      pending_at w' s' k' = pending_at w s' k'
      \/ ((s', k') = (server, IdNum req)
          /\ pending_at w' s' k'
             = Some {| promise := fresh w; timeout := Some (S (fresh w)) |}))
  /\ timers w'
     = <[S (fresh w) := RequestTimeout server req (fresh w) method]> (timers w)
  /\ settlements w' = settlements w
  /\ promises w' = <[fresh w := Pending]> (promises w)
  /\ fresh w' = S (S (fresh w)).

Inductive astep (w w' : World) : Prop :=
| step_quiet : quiet w w' -> astep w w'
| step_complete server k pending st :
    pending_at w server k = Some pending ->
    removes w w' server k (timeout pending) (promise pending) ByResponse st ->
    astep w w'
| step_timeout t server req p m st :
    timers w !! t = Some (RequestTimeout server req p m) ->
    removes w w' server (IdNum req) (Some t) p ByTimeout st ->
    astep w w'
| step_failed server req p st :
    removes w w' server (IdNum req) None p ByTransmission st ->
    astep w w'
| step_register server req method :
    registers w w' server req method ->
    astep w w'.

Lemma quiet_refl w : quiet w w.
Proof. split; intros; auto; try tauto; try lia. Qed.

Lemma quiet_trans a b c : quiet a b -> quiet b c -> quiet a c.
Proof.
  intros [] []. split; intros.
  - rewrite q_pending1. apply q_pending0.
  - rewrite q_timers1. apply q_timers0.
  - destruct (q_timers_below1 _ _ H) as [H1|H1].
    + destruct (q_timers_below0 _ _ H1) as [H2|H2]; [auto|right; lia].
    + right; lia.
  - congruence.
  - eauto.
  - eauto.
  - destruct (q_pending_promise1 _ H) as [H1|H1].
    + destruct (q_pending_promise0 _ H1); [auto|right; lia].
    + right; lia.
  - destruct (q_promises_below1 _ _ H) as [[st' H1]|H1]; [|auto].
    destruct (q_promises_below0 _ _ H1); [auto|right; lia].
  - lia.
Qed.

Lemma settle_lookup p st w q :
  promises (settle p st w) !! q
  = if bool_decide (q = p) then
      match promises w !! p with
      | Some Pending => Some st
      | other => other
      end
    else promises w !! q.
Proof.
  unfold settle. case_bool_decide as Hq.
  - subst q. destruct (promises w !! p) as [[]|] eqn:Hp; simpl;
      rewrite ?lookup_insert_eq, ?Hp; reflexivity.
  - destruct (promises w !! p) as [[]|]; simpl;
      rewrite ?lookup_insert_ne by congruence; reflexivity.
Qed.

(** *** The invariant is kept by every step *)

Lemma correlated_quiet w w' : correlated w -> quiet w w' -> correlated w'.
Proof.
  intros C Q. destruct Q. split.
  - intros server k pr H. rewrite q_pending0 in H.
    destruct (entry_timer _ C _ _ _ H) as (t & req & m & H1 & H2 & H3).
    exists t, req, m. rewrite q_timers0. auto.
  - intros t server req p m H. rewrite q_settlements0.
    rewrite q_timers0 in H. eapply timer_open; eauto.
  - intros t1 t2 s1 r1 m1 s2 r2 m2 p H1 H2.
    rewrite q_timers0 in H1, H2. eapply timer_promise; eauto.
  - intros t x H. destruct (q_timers_below0 _ _ H) as [H1|H1]; [|lia].
    pose proof (timers_below _ C _ _ H1). lia.
  - intros t s r p m H. rewrite q_timers0 in H.
    pose proof (timer_promise_below _ C _ _ _ _ _ H). lia.
  - intros p st H. destruct (q_promises_below0 _ _ H) as [[st' H1]|H1]; [|lia].
    pose proof (promises_below _ C _ _ H1). lia.
  - intros p H. rewrite q_settlements0. apply (completed_below _ C). lia.
  - intros p H Hp. rewrite q_settlements0 in H.
    destruct (q_pending_promise0 _ Hp) as [H1|H1].
    + exact (completed_settled _ C _ H H1).
    + rewrite (completed_below _ C _ H1) in H. lia.
  - intros p. rewrite q_settlements0. apply (at_most_once _ C).
Qed.

(** A removal whose cleared timer, if any, is the request timer of the
    deleted entry and of the promise completed. *)
Lemma correlated_removes w w' server k del p src st :
  correlated w ->
  removes w w' server k del p src st ->
  (forall t, del = Some t ->
     exists req m, k = IdNum req
                   /\ timers w !! t = Some (RequestTimeout server req p m)) ->
  (counted src = true -> is_Some del) ->
  correlated w'.
Proof.
  intros C (Hp & Ht & Hs & Hpr & Hst & Hf) Hdel Hsrc.
  assert (Hkeep : forall t' x, timers w' !! t' = Some x ->
                               timers w !! t' = Some x /\ del <> Some t').
  { intros t' x H. rewrite Ht in H. destruct del as [t|]; [|split; congruence].
    destruct (decide (t' = t)) as [->|Hne].
    - rewrite lookup_delete_eq in H. discriminate.
    - rewrite lookup_delete_ne in H by congruence. split; congruence. }
  assert (Hcount : forall q,
             completions q (settlements w')
             = completions q (settlements w)
               + (if bool_decide (p = q) && counted src then 1 else 0)).
  { intros q. rewrite Hs. apply completions_snoc. }
  assert (Hopen : counted src = true -> completions p (settlements w) = 0
                                        /\ p < fresh w).
  { intros Hc. destruct (Hsrc Hc) as [t Hd].
    destruct (Hdel t Hd) as (req & m & _ & Htm).
    split; [eapply timer_open; eauto | eapply timer_promise_below; eauto]. }
  split.
  - intros s' k' pr H. rewrite Hp in H.
    case_bool_decide as Hpos; [discriminate|].
    destruct (entry_timer _ C _ _ _ H) as (t & req & m & H1 & H2 & H3).
    exists t, req, m. split; [exact H1|]. split; [exact H2|].
    rewrite Ht. destruct del as [t0|]; [|exact H3].
    rewrite lookup_delete_ne; [exact H3|].
    intros ->. destruct (Hdel t eq_refl) as (req0 & m0 & Hk & Htm).
    rewrite H3 in Htm. injection Htm as -> -> _ _.
    apply Hpos. congruence.
  - intros t server' req q m H.
    destruct (Hkeep _ _ H) as [H1 H2]. rewrite Hcount.
    rewrite (timer_open _ C _ _ _ _ _ H1).
    destruct (counted src) eqn:Hc; [|rewrite andb_false_r; reflexivity].
    case_bool_decide as Hq; [|reflexivity]. subst q. exfalso.
    destruct (Hsrc eq_refl) as [t0 Hd].
    destruct (Hdel t0 Hd) as (req0 & m0 & _ & Htm).
    apply H2. rewrite Hd. f_equal.
    eapply (timer_promise _ C); eauto.
  - intros t1 t2 s1 r1 m1 s2 r2 m2 q H1 H2.
    destruct (Hkeep _ _ H1) as [H1' _]. destruct (Hkeep _ _ H2) as [H2' _].
    eapply (timer_promise _ C); eauto.
  - intros t x H. destruct (Hkeep _ _ H) as [H' _]. rewrite Hf.
    eapply (timers_below _ C); eauto.
  - intros t s r q m H. destruct (Hkeep _ _ H) as [H' _]. rewrite Hf.
    eapply (timer_promise_below _ C); eauto.
  - intros q st' H. rewrite Hpr, settle_lookup, Hf in *.
    case_bool_decide as Hq.
    + subst q. destruct (promises w !! p) as [[]|] eqn:Hpp; try discriminate;
        eapply (promises_below _ C); eauto.
    + eapply (promises_below _ C); eauto.
  - intros q H. rewrite Hf in H. rewrite Hcount.
    rewrite (completed_below _ C _ H).
    destruct (counted src) eqn:Hc; [|rewrite andb_false_r; reflexivity].
    case_bool_decide as Hq; [|reflexivity]. subst q.
    destruct (Hopen eq_refl). lia.
  - intros q H. rewrite Hpr, settle_lookup. rewrite Hcount in H.
    destruct (decide (q = p)) as [->|Hq].
    + rewrite bool_decide_true by reflexivity.
      destruct (promises w !! p) as [[]|]; congruence.
    + rewrite bool_decide_false by exact Hq.
      apply (completed_settled _ C).
      rewrite bool_decide_false in H by congruence. simpl in H. lia.
  - intros q. rewrite Hcount.
    destruct (counted src) eqn:Hc;
      [|rewrite andb_false_r; pose proof (at_most_once _ C q); lia].
    case_bool_decide as Hq.
    + subst q. destruct (Hopen eq_refl) as [H0 _]. rewrite H0. simpl. lia.
    + simpl. pose proof (at_most_once _ C q). lia.
Qed.

Lemma correlated_registers w w' server req method :
  correlated w -> registers w w' server req method -> correlated w'.
Proof.
  intros C (Hp & Ht & Hs & Hpr & Hf).
  assert (Hold : forall t x, timers w !! t = Some x -> t <> S (fresh w)).
  { intros t x H. pose proof (timers_below _ C _ _ H). lia. }
  assert (Hnew : forall t x, timers w' !! t = Some x ->
             (t = S (fresh w)
              /\ x = RequestTimeout server req (fresh w) method)
             \/ (t <> S (fresh w) /\ timers w !! t = Some x)).
  { intros t x H. rewrite Ht in H.
    destruct (decide (t = S (fresh w))) as [->|Hne].
    - rewrite lookup_insert_eq in H. left. split; congruence.
    - rewrite lookup_insert_ne in H by congruence. right. auto. }
  split.
  - intros s' k' pr H. destruct (Hp s' k') as [Hsame|[Hpos Hentry]].
    + rewrite Hsame in H.
      destruct (entry_timer _ C _ _ _ H) as (t & r & m & H1 & H2 & H3).
      exists t, r, m. split; [exact H1|]. split; [exact H2|].
      rewrite Ht, lookup_insert_ne; [exact H3|].
      intros <-. eapply Hold; eauto.
    + rewrite Hentry in H. injection H as <-. injection Hpos as -> ->.
      exists (S (fresh w)), req, method. simpl.
      rewrite Ht, lookup_insert_eq. auto.
  - intros t s r p m H. rewrite Hs.
    destruct (Hnew _ _ H) as [[-> Hx]|[_ Hx]].
    + injection Hx as -> -> -> ->. apply (completed_below _ C). lia.
    + eapply (timer_open _ C); eauto.
  - intros t1 t2 s1 r1 m1 s2 r2 m2 p H1 H2.
    destruct (Hnew _ _ H1) as [[-> Hx1]|[Hn1 Hx1]];
      destruct (Hnew _ _ H2) as [[-> Hx2]|[Hn2 Hx2]].
    + reflexivity.
    + injection Hx1 as -> -> -> ->.
      pose proof (timer_promise_below _ C _ _ _ _ _ Hx2). lia.
    + injection Hx2 as -> -> -> ->.
      pose proof (timer_promise_below _ C _ _ _ _ _ Hx1). lia.
    + eapply (timer_promise _ C); eauto.
  - intros t x H. rewrite Hf. destruct (Hnew _ _ H) as [[-> _]|[_ Hx]]; [lia|].
    pose proof (timers_below _ C _ _ Hx). lia.
  - intros t s r p m H. rewrite Hf.
    destruct (Hnew _ _ H) as [[-> Hx]|[_ Hx]].
    + injection Hx as -> -> -> ->. lia.
    + pose proof (timer_promise_below _ C _ _ _ _ _ Hx). lia.
  - intros p st H. rewrite Hf. rewrite Hpr in H.
    destruct (decide (p = fresh w)) as [->|Hne]; [lia|].
    rewrite lookup_insert_ne in H by congruence.
    pose proof (promises_below _ C _ _ H). lia.
  - intros p H. rewrite Hs. apply (completed_below _ C). lia.
  - intros p H Hpend. rewrite Hs in H. rewrite Hpr in Hpend.
    destruct (decide (p = fresh w)) as [->|Hne].
    + rewrite (completed_below _ C (fresh w)) in H by lia. lia.
    + rewrite lookup_insert_ne in Hpend by congruence.
      exact (completed_settled _ C _ H Hpend).
  - intros p. rewrite Hs. apply (at_most_once _ C).
Qed.

Lemma correlated_astep w w' : correlated w -> astep w w' -> correlated w'.
Proof.
  intros C [Q | server k pending st Hp R | t server req p m st Ht R
            | server req p st R | server req method R].
  - eapply correlated_quiet; eauto.
  - eapply correlated_removes; eauto.
    + intros t Hto.
      destruct (entry_timer _ C _ _ _ Hp) as (t' & req & m & H1 & H2 & H3).
      exists req, m. split; [exact H2|]. congruence.
    + intros _.
      destruct (entry_timer _ C _ _ _ Hp) as (t' & req & m & H1 & _).
      rewrite H1. eauto.
  - eapply correlated_removes; eauto.
    intros t' [= <-]. eauto.
  - eapply correlated_removes; eauto.
    + intros t [=].
    + intros [=].
  - eapply correlated_registers; eauto.
Qed.

Lemma correlated_rtc w w' : correlated w -> rtc astep w w' -> correlated w'.
Proof.
  intros C H. induction H as [|a b c Hab Hbc IH]; [exact C|].
  apply IH. eapply correlated_astep; eauto.
Qed.

(** *** A request that was sent: its promise and its timer *)

(** The promise [p] is known, and either its request timer [t] is still
    set or the request was completed. *)
Definition guarded (p t server : nat) (req : Z) (method : jsstring)
    (w : World) : Prop :=
  p < fresh w /\ is_Some (promises w !! p)
  /\ (timers w !! t = Some (RequestTimeout server req p method)
      \/ 1 <= completions p (settlements w)).

Lemma guarded_removes p t server req method w w' server' k del q src st :
  removes w w' server' k del q src st ->
  (forall t', del = Some t' ->
     exists req' m', timers w !! t' = Some (RequestTimeout server' req' q m')
                     /\ counted src = true) ->
  guarded p t server req method w -> guarded p t server req method w'.
Proof.
  intros (Hp & Ht & Hs & Hpr & Hst & Hf) Hdel (G1 & G2 & G3).
  split; [lia|]. split.
  - rewrite Hpr, settle_lookup. case_bool_decide as Hq; [|exact G2].
    subst q. destruct (promises w !! p) as [[]|]; eauto.
  - rewrite Hs, completions_snoc. destruct G3 as [G3|G3]; [|right; lia].
    destruct del as [t'|]; [|left; rewrite Ht; exact G3].
    destruct (decide (t' = t)) as [->|Hne].
    + right. destruct (Hdel t eq_refl) as (req' & m' & Htm & Hc).
      rewrite G3 in Htm. injection Htm as _ _ -> _.
      rewrite Hc, bool_decide_true by reflexivity. simpl. lia.
    + left. rewrite Ht, lookup_delete_ne by congruence. exact G3.
Qed.

Lemma guarded_astep p t server req method w w' :
  correlated w -> astep w w' ->
  guarded p t server req method w -> guarded p t server req method w'.
Proof.
  intros C [Q | server' k pending st Hp R | t' server' req' q m st Ht R
            | server' req' q st R | server' req' method' R] G.
  - destruct Q, G as (G1 & G2 & G3). split; [lia|]. split; [auto|].
    rewrite q_settlements0, q_timers0. exact G3.
  - eapply guarded_removes; eauto. intros t' Hto.
    destruct (entry_timer _ C _ _ _ Hp) as (t0 & r0 & m0 & H1 & H2 & H3).
    exists r0, m0. split; [congruence|reflexivity].
  - eapply guarded_removes; eauto. intros t0 [= <-]. eauto.
  - eapply guarded_removes; eauto. intros t0 [=].
  - destruct R as (Hp & Ht & Hs & Hpr & Hf), G as (G1 & G2 & G3).
    split; [lia|]. split.
    + rewrite Hpr, lookup_insert_ne by lia. exact G2.
    + rewrite Hs. destruct G3 as [G3|G3]; [left|right; exact G3].
      rewrite Ht, lookup_insert_ne; [exact G3|].
      pose proof (timers_below _ C _ _ G3). lia.
Qed.

Lemma guarded_rtc p t server req method w w' :
  correlated w -> rtc astep w w' ->
  guarded p t server req method w -> guarded p t server req method w'.
Proof.
  intros C H. induction H as [|a b c Hab Hbc IH]; [auto|].
  intros G. apply IH.
  - eapply correlated_astep; eauto.
  - eapply guarded_astep; eauto.
Qed.

(** *** The operations of the service as steps *)

Lemma quiet_same w w' :
  (forall s k, pending_at w' s k = pending_at w s k) ->
  timers w' = timers w -> settlements w' = settlements w ->
  promises w' = promises w -> fresh w <= fresh w' ->
  quiet w w'.
Proof.
  intros Hp Ht Hs Hpr Hf.
  split; intros; rewrite ?Ht, ?Hs, ?Hpr in *; eauto; try tauto.
Qed.

Lemma quiet_settle p st w : st <> Pending -> quiet w (settle p st w).
Proof.
  intros Hst.
  destruct (settle_promises_only p st w) as (Hh & Ht & _ & Hs & Hf).
  split; intros; rewrite ?Ht, ?Hs, ?Hf in *; eauto; try tauto.
  - unfold pending_at. rewrite Hh. reflexivity.
  - rewrite settle_lookup. case_bool_decide as Hq; [|assumption].
    subst q. rewrite H. destruct st0; congruence.
  - rewrite settle_lookup. case_bool_decide as Hq; [|assumption].
    subst q. destruct (promises w !! p) as [[]|]; eauto.
  - rewrite settle_lookup in H. case_bool_decide as Hq; [|auto].
    subst q. destruct (promises w !! p) as [[]|]; auto; congruence.
  - rewrite settle_lookup in H. case_bool_decide as Hq; [|eauto].
    subst q. destruct (promises w !! p) as [[]|]; eauto; discriminate.
Qed.

(** Clearing a timer that is not a request timer. *)
Lemma quiet_clearTimeout t w :
  (forall s r p m, timers w !! t <> Some (RequestTimeout s r p m)) ->
  quiet w (clearTimeout t w).
Proof.
  intros Hk. split; simpl; intros; eauto; try tauto.
  - destruct (decide (t0 = t)) as [->|Hne].
    + rewrite lookup_delete_eq. split; [discriminate|].
      intros H. exfalso. eapply Hk; eauto.
    + rewrite lookup_delete_ne by congruence. reflexivity.
  - destruct (decide (t0 = t)) as [->|Hne].
    + rewrite lookup_delete_eq in H. discriminate.
    + rewrite lookup_delete_ne in H by congruence. auto.
Qed.

Lemma pending_at_update_server server f w s k :
  (forall x, pendingRequests (f x) = pendingRequests x) ->
  pending_at (update_server server f w) s k = pending_at w s k.
Proof.
  intros Hf. unfold pending_at, update_server. simpl.
  destruct (heap w !! server) as [x|] eqn:Hx; [|reflexivity].
  destruct (decide (s = server)) as [->|Hne].
  - rewrite lookup_insert_eq, Hx. simpl. rewrite Hf. reflexivity.
  - rewrite lookup_insert_ne by congruence. reflexivity.
Qed.

Lemma quiet_update_server server f w :
  (forall x, pendingRequests (f x) = pendingRequests x) ->
  quiet w (update_server server f w).
Proof.
  intros Hf. apply quiet_same; try reflexivity.
  intros. apply pending_at_update_server. exact Hf.
Qed.

Lemma promises_settle_eq p st w1 w :
  promises w1 = promises w ->
  promises (settle p st w1) = promises (settle p st w).
Proof.
  intros H. unfold settle. rewrite H.
  destruct (promises w !! p) as [[]|]; simpl; rewrite ?H; reflexivity.
Qed.

Lemma removes_call_pending w server k pending st :
  st <> Pending ->
  removes w (call_pending ByResponse pending st (delete_pending server k w))
    server k (timeout pending) (promise pending) ByResponse st.
Proof.
  intros Hst. repeat split.
  - intros s' k'. unfold pending_at at 1. rewrite call_pending_heap.
    apply pending_at_delete.
  - rewrite call_pending_timers. reflexivity.
  - rewrite call_pending_settlements. reflexivity.
  - rewrite call_pending_promises. apply promises_settle_eq. reflexivity.
  - exact Hst.
  - unfold call_pending.
    destruct (settle_promises_only (promise pending) st
                (record_settlement (promise pending) ByResponse
                   match timeout pending with
                   | Some t => clearTimeout t (delete_pending server k w)
                   | None => delete_pending server k w
                   end)) as (_ & _ & _ & _ & ->).
    destruct (timeout pending); reflexivity.
Qed.

Lemma removes_request_timeout w t server req p method :
  removes w (request_timeout server req p method (clearTimeout t w))
    server (IdNum req) (Some t) p ByTimeout
    (Rejected (Error (lit "Request timeout for " ++ method))).
Proof.
  unfold request_timeout.
  set (st := Rejected _).
  set (w1 := record_settlement p ByTimeout
               (delete_pending server (IdNum req) (clearTimeout t w))).
  destruct (settle_promises_only p st w1) as (Hh & Ht & _ & Hs & Hf).
  repeat split.
  - intros s' k'. unfold pending_at at 1. rewrite Hh.
    apply (pending_at_delete (clearTimeout t w)).
  - rewrite Ht. reflexivity.
  - rewrite Hs. reflexivity.
  - apply promises_settle_eq. reflexivity.
  - discriminate.
  - rewrite Hf. reflexivity.
Qed.

Lemma removes_transmission_failed w server req p e :
  removes w (transmission_failed server req p e w)
    server (IdNum req) None p ByTransmission (Rejected e).
Proof.
  unfold transmission_failed.
  set (w1 := record_settlement p ByTransmission
               (delete_pending server (IdNum req) w)).
  destruct (settle_promises_only p (Rejected e) w1) as (Hh & Ht & _ & Hs & Hf).
  repeat split.
  - intros s' k'. unfold pending_at at 1. rewrite Hh.
    apply (pending_at_delete w).
  - rewrite Ht. reflexivity.
  - rewrite Hs. reflexivity.
  - apply promises_settle_eq. reflexivity.
  - discriminate.
  - rewrite Hf. reflexivity.
Qed.

Abbreviation steps := (rtc astep).

Lemma steps_refl w : steps w w.
Proof. apply rtc_refl. Qed.

Lemma steps_trans a b c : steps a b -> steps b c -> steps a c.
Proof. apply rtc_trans. Qed.

Lemma steps_quiet w w' : quiet w w' -> steps w w'.
Proof. intros Q. apply rtc_once, step_quiet, Q. Qed.

Lemma response_outcome_settled env response :
  response_outcome env response <> Pending.
Proof. unfold response_outcome. destruct (truthy _); discriminate. Qed.

Lemma steps_handleResponse serverId response :
  preserves steps (handleResponse serverId response).
Proof.
  intros env w.
  destruct (pending_for serverId response w) as [[[server k] pending]|] eqn:H.
  - rewrite (handleResponse_found _ _ _ _ _ _ _ H). cbn [snd].
    destruct (pending_for_at _ _ _ _ _ _ H) as (_ & _ & Hp).
    apply rtc_once. eapply step_complete; [exact Hp|].
    apply removes_call_pending, response_outcome_settled.
  - rewrite (handleResponse_discarded _ _ _ _ H). apply steps_refl.
Qed.

Ltac quiet_leaf :=
  first
    [ apply steps_handleResponse
    | apply steps_quiet;
      first
        [ apply quiet_settle; discriminate
        | apply quiet_update_server; intros ?; reflexivity
        | apply quiet_same;
          [ intros; reflexivity | reflexivity | reflexivity | reflexivity
          | simpl; lia ] ]
    | apply rtc_once; eapply step_failed; apply removes_transmission_failed ].

Ltac stepping := preserve steps_refl steps_trans quiet_leaf.

Lemma steps_set_readyState es r w : steps w (set_readyState es r w).
Proof.
  apply steps_quiet, quiet_same; try reflexivity; simpl; lia.
Qed.

Lemma steps_stdout_line config_id line :
  preserves steps (stdout_line config_id line).
Proof. unfold stdout_line. stepping. Qed.

Lemma steps_on_stdout config_id server server_id data :
  preserves steps (on_stdout config_id server server_id data).
Proof. unfold on_stdout. stepping; try apply steps_stdout_line. Qed.

Lemma steps_close_eventSource es : preserves steps (close_eventSource es).
Proof.
  unfold close_eventSource, perform. stepping; try apply steps_set_readyState.
Qed.

Lemma steps_on_sse_message e data : preserves steps (on_sse_message e data).
Proof. unfold on_sse_message. stepping. Qed.

Lemma steps_on_post_reply server_id req body :
  preserves steps (on_post_reply server_id req body).
Proof. unfold on_post_reply. stepping. Qed.

Lemma steps_TimerFires t : preserves steps (dispatch (TimerFires t)).
Proof.
  intros env w. unfold dispatch. unfold bind at 1, gets.
  destruct (timers w !! t) as [[server req p method|es p]|] eqn:Ht.
  - unfold bind, modify. cbn [snd].
    apply rtc_once. eapply step_timeout; [exact Ht|].
    apply removes_request_timeout.
  - unfold bind at 1, modify.
    eapply steps_trans.
    + apply steps_quiet, quiet_clearTimeout. intros s r q m. rewrite Ht.
      discriminate.
    + generalize (clearTimeout t w). intros w1. revert env w1.
      change (preserves steps
                (let! sources := gets eventSources in
                 match sources !! es with
                 | Some e =>
                     match readyState e with
                     | OPEN => ret tt
                     | _ =>
                         close_eventSource es;;
                         modify (settle p (Rejected
                                   (Error (lit "SSE connection timeout"))))
                     end
                 | None => ret tt
                 end)).
      stepping; try apply steps_close_eventSource.
  - apply steps_refl.
Qed.

Lemma steps_dispatch ev : preserves steps (dispatch ev).
Proof.
  destruct ev; try apply steps_TimerFires; unfold dispatch; stepping;
    try first [ apply steps_on_stdout | apply steps_on_post_reply
              | apply steps_on_sse_message | apply steps_set_readyState ].
Qed.

Lemma steps_run_event env w ev : steps w (run_event env w ev).
Proof. apply steps_dispatch. Qed.

Lemma steps_run_events env evs w : steps w (run_events env evs w).
Proof.
  revert w. induction evs as [|ev evs IH]; intros w; [apply steps_refl|].
  simpl. eapply steps_trans; [apply steps_run_event | apply IH].
Qed.

Lemma steps_wait : preserves steps wait.
Proof.
  intros env w. unfold wait. cbn [snd].
  eapply steps_trans; [|apply steps_run_events].
  apply steps_quiet, quiet_same; try reflexivity; simpl; lia.
Qed.

Lemma steps_await_host : preserves steps await_host.
Proof. unfold await_host. stepping; try apply steps_wait. Qed.

Lemma steps_await_promise pt : preserves steps (await_promise pt).
Proof.
  unfold await_promise. destruct pt as [p t].
  stepping;
    try first [ apply steps_wait | intros env w; apply steps_run_event ].
Qed.

Lemma steps_alloc : preserves steps alloc.
Proof.
  intros env w. apply steps_quiet, quiet_same; try reflexivity; simpl; lia.
Qed.

Lemma register_request_registers env w server req method :
  exists w',
    register_request server req method env w
    = (Returned (fresh w, S (fresh w)), w')
    /\ registers w w' server req method.
Proof.
  eexists. split; [reflexivity|].
  unfold registers. cbn [snd]. repeat split.
  intros s' k'. unfold pending_at, update_server. simpl.
  destruct (heap w !! server) as [x|] eqn:Hx; simpl.
  - rewrite lookup_insert_eq. simpl.
    destruct (decide (s' = server)) as [->|Hne].
    + rewrite !lookup_insert_eq, Hx. simpl.
      destruct (decide (k' = IdNum req)) as [->|Hk].
      * right. rewrite lookup_insert_eq. auto.
      * left. rewrite !lookup_insert_ne by congruence. reflexivity.
    + left. rewrite !lookup_insert_ne by congruence. reflexivity.
  - rewrite Hx. left. reflexivity.
Qed.

Lemma steps_register_request server req method :
  preserves steps (register_request server req method).
Proof.
  intros env w.
  destruct (register_request_registers env w server req method)
    as (w' & -> & R).
  apply rtc_once. eapply step_register. exact R.
Qed.

Lemma steps_sendStdioRequest serverId method params :
  preserves steps (sendStdioRequest serverId method params).
Proof.
  unfold sendStdioRequest. stepping;
    try first [ apply steps_register_request | apply steps_alloc ].
Qed.

Lemma steps_sendHttpRequest serverId method params :
  preserves steps (sendHttpRequest serverId method params).
Proof.
  unfold sendHttpRequest. stepping;
    try first [ apply steps_register_request | apply steps_alloc ].
Qed.

Lemma steps_callTool serverId toolName args :
  preserves steps (callTool serverId toolName args).
Proof.
  unfold callTool. stepping;
    try first [ apply steps_await_promise ].
  match goal with |- context [server_transport ?s] =>
    destruct (server_transport s) end;
    first [ apply steps_sendStdioRequest | apply steps_sendHttpRequest ].
Qed.

(** *** A request that was sent is settled in the end *)

Lemma send_shape server req method (out : (json -> jsstring) -> io)
    (tr : nat -> Transmission) env w p t w1 :
  (modify (update_server server (set_server_requestId req));;
   let! pt := register_request server req method in
   let '(p, t) := pt in
   let! stringify := asks JSON_stringify in
   let! h := alloc in
   perform (out stringify);;
   modify (set_transmissions <[h := tr p]>);;
   ret (p, t)) env w = (Returned (p, t), w1) ->
  exists w_a w_b,
    quiet w w_a /\ registers w_a w_b server req method /\ quiet w_b w1
    /\ p = fresh w_a /\ t = S (fresh w_a).
Proof.
  intros H. unfold bind at 1, modify in H.
  set (w_a := update_server server (set_server_requestId req) w) in *.
  destruct (register_request_registers env w_a server req method)
    as (w_b & Hreg & R).
  rewrite (bind_Returned _ _ _ _ _ _ Hreg) in H.
  unfold bind, asks, alloc, perform, modify, ret in H. simpl in H.
  injection H as <- <- <-.
  exists w_a, w_b. split; [|split; [exact R|split; [|split; reflexivity]]].
  - apply quiet_update_server. intros x. reflexivity.
  - apply quiet_same; try reflexivity; simpl; lia.
Qed.

Lemma guarded_registered w w' server req method :
  registers w w' server req method ->
  guarded (fresh w) (S (fresh w)) server req method w'.
Proof.
  intros (_ & Ht & _ & Hpr & Hf). split; [lia|]. split.
  - rewrite Hpr, lookup_insert_eq. eauto.
  - left. rewrite Ht, lookup_insert_eq. reflexivity.
Qed.

Lemma send_guarded w w_a w_b w1 server req method :
  correlated w -> quiet w w_a -> registers w_a w_b server req method ->
  quiet w_b w1 ->
  correlated w1 /\ guarded (fresh w_a) (S (fresh w_a)) server req method w1.
Proof.
  intros C Q1 R Q2.
  assert (Ca : correlated w_a) by (eapply correlated_quiet; eauto).
  assert (Cb : correlated w_b) by (eapply correlated_registers; eauto).
  split; [eapply correlated_quiet; eauto|].
  eapply guarded_astep; [exact Cb | apply step_quiet; exact Q2 |].
  eapply guarded_registered; eauto.
Qed.

Lemma sendStdioRequest_guarded env w serverId method params p t w1 :
  correlated w ->
  sendStdioRequest serverId method params env w = (Returned (p, t), w1) ->
  correlated w1 /\ exists server req, guarded p t server req method w1.
Proof.
  intros C H. unfold sendStdioRequest in H. unfold bind at 1, gets in H.
  destruct (active_server serverId w) as [[server s0]|]; [|discriminate].
  destruct (server_transport s0); [|discriminate].
  destruct (send_shape server (increment (requestId s0)) method
              (fun stringify =>
                 WriteMcpStdin serverId
                   (stringify (JsonRpcRequest (increment (requestId s0))
                                 method params) ++ [LF]))
              (StdinWrite server (increment (requestId s0)))
              env w p t w1 H)
    as (w_a & w_b & Q1 & R & Q2 & -> & ->).
  destruct (send_guarded _ _ _ _ _ _ _ C Q1 R Q2) as [C1 G].
  split; [exact C1|]. eauto.
Qed.

Lemma sendHttpRequest_guarded env w serverId method params p t w1 :
  correlated w ->
  sendHttpRequest serverId method params env w = (Returned (p, t), w1) ->
  correlated w1 /\ exists server req, guarded p t server req method w1.
Proof.
  intros C H. unfold sendHttpRequest in H. unfold bind at 1, gets in H.
  destruct (active_server serverId w) as [[server s0]|]; [|discriminate].
  destruct (server_transport s0); [discriminate|].
  destruct (send_shape server (increment (requestId s0)) method
              (fun stringify =>
                 HttpPost (url s0)
                   (stringify (JsonRpcRequest (increment (requestId s0))
                                 method params)))
              (Post serverId server (increment (requestId s0)))
              env w p t w1 H)
    as (w_a & w_b & Q1 & R & Q2 & -> & ->).
  destruct (send_guarded _ _ _ _ _ _ _ C Q1 R Q2) as [C1 G].
  split; [exact C1|]. eauto.
Qed.

Lemma run_event_request_timer env w t server req p method :
  timers w !! t = Some (RequestTimeout server req p method) ->
  run_event env w (TimerFires t)
  = request_timeout server req p method (clearTimeout t w).
Proof.
  intros H. unfold run_event, dispatch, bind, gets, modify.
  rewrite H. reflexivity.
Qed.

Lemma promises_request_timeout w t server req p method :
  promises w !! p = Some Pending ->
  promises (request_timeout server req p method (clearTimeout t w)) !! p
  = Some (Rejected (Error (lit "Request timeout for " ++ method))).
Proof.
  intros H. unfold request_timeout. apply promises_settle_pending.
  rewrite <- H. unfold record_settlement, delete_pending, update_server,
    clearTimeout. simpl.
  destruct (heap w !! server); reflexivity.
Qed.

Lemma await_result env w p :
  (let! ps := gets promises in
   match ps !! p return M unknown with
   | Some (Fulfilled v) => ret v
   | Some (Rejected e) => throw e
   | _ => fun _ w => (Hung, w)
   end) env w
  = match promises w !! p with
    | Some (Fulfilled v) => (Returned v, w)
    | Some (Rejected e) => (Threw e, w)
    | _ => (Hung, w)
    end.
Proof.
  unfold bind, gets. destruct (promises w !! p) as [[| |]|]; reflexivity.
Qed.

(** Awaiting a request that was sent never hangs: the promise is settled
    by the events of the wait, or else by the request timer. *)
Lemma await_promise_settles env w p t server req method :
  correlated w -> guarded p t server req method w ->
  exists w', (exists v, await_promise (p, t) env w = (Returned v, w'))
             \/ (exists e, await_promise (p, t) env w = (Threw e, w')).
Proof.
  intros C G. unfold await_promise.
  pose proof (steps_wait env w) as Hs.
  assert (Hw : wait env w = (Returned tt, snd (wait env w))).
  { destruct (wait env w) as [[[]| |] ?] eqn:E; try reflexivity;
      unfold wait, bind, gets, modify, ret in E; simpl in E; discriminate. }
  set (w2 := snd (wait env w)) in *.
  rewrite (bind_Returned _ _ _ _ _ _ Hw).
  pose proof (correlated_rtc _ _ C Hs) as C2.
  pose proof (guarded_rtc _ _ _ _ _ _ _ C Hs G) as (G1 & [st G2] & G3).
  rewrite (bind_Returned _ _ _ _ _ _ (eq_refl : gets promises env w2 = _)).
  rewrite G2. destruct st as [|v|e].
  - destruct G3 as [Ht|Hc];
      [|exfalso; exact (completed_settled _ C2 _ Hc G2)].
    rewrite (bind_Returned _ _ _ _ _ _
               (eq_refl : (fun env w => (Returned tt, run_event env w (TimerFires t)))
                            env w2 = _)).
    rewrite await_result, (run_event_request_timer _ _ _ _ _ _ _ Ht).
    rewrite (promises_request_timeout _ _ _ _ _ _ G2).
    eexists. right. eexists. reflexivity.
  - rewrite (bind_Returned _ _ _ _ _ _ (eq_refl : ret tt env w2 = _)).
    rewrite await_result, G2. eexists. left. eexists. reflexivity.
  - rewrite (bind_Returned _ _ _ _ _ _ (eq_refl : ret tt env w2 = _)).
    rewrite await_result, G2. eexists. right. eexists. reflexivity.
Qed.

(** [callTool] always returns a result. *)
Lemma callTool_returns env w serverId toolName args :
  correlated w ->
  exists v w', callTool serverId toolName args env w = (Returned v, w').
Proof.
  intros C. unfold callTool. unfold bind at 1, gets.
  destruct (active_server serverId w) as [[server s0]|];
    [|eexists; eexists; reflexivity].
  unfold try_catch.
  assert (Hsend : forall (sendFn : jsstring -> jsstring -> unknown
                                   -> M (nat * nat)),
             (forall p t w1,
                 sendFn serverId (lit "tools/call")
                   (Some (JObj [(lit "name", JStr toolName);
                                (lit "arguments", args)])) env w
                 = (Returned (p, t), w1) ->
                 correlated w1
                 /\ exists server req,
                     guarded p t server req (lit "tools/call") w1) ->
             fst (sendFn serverId (lit "tools/call")
                    (Some (JObj [(lit "name", JStr toolName);
                                 (lit "arguments", args)])) env w) <> Hung ->
             exists v w',
               match
                 (let! pt := sendFn serverId (lit "tools/call")
                               (Some (JObj [(lit "name", JStr toolName);
                                            (lit "arguments", args)])) in
                  await_promise pt) env w
               with
               | (Threw e, w') =>
                   ret (Some (error_result (lit "Error: " ++ error_message e)))
                     env w'
               | r => r
               end = (Returned v, w')).
  { intros sendFn Hg Hh. unfold bind.
    destruct (sendFn _ _ _ env w) as [[[p t]|e|] w1] eqn:Hs.
    - destruct (Hg _ _ _ eq_refl) as (C1 & server' & req & G).
      destruct (await_promise_settles env w1 p t server' req _ C1 G)
        as (w' & [[v ->]|[e ->]]); eexists; eexists; reflexivity.
    - eexists; eexists; reflexivity.
    - exfalso. apply Hh. reflexivity. }
  destruct (server_transport s0); apply Hsend.
  - intros p t w1. apply sendStdioRequest_guarded. exact C.
  - unfold sendStdioRequest, bind, gets, throw.
    destruct (active_server serverId w) as [[? s1]|]; [|discriminate].
    destruct (server_transport s1); discriminate.
  - intros p t w1. apply sendHttpRequest_guarded. exact C.
  - unfold sendHttpRequest, bind, gets, throw.
    destruct (active_server serverId w) as [[? s1]|]; [|discriminate].
    destruct (server_transport s1); discriminate.
Qed.

(** *** Whole runs of the correlator *)

(** What reaches the correlator of the sessions: a request is sent, a
    response is handed to [handleResponse], a timer fires. *)
Inductive input :=
| RequestStdio (serverId method : jsstring) (params : unknown)
| RequestHttp (serverId method : jsstring) (params : unknown)
| Response (serverId : jsstring) (response : unknown)
| Timeout (t : nat).

Definition deliver (env : Env) (w : World) (i : input) : World :=
  match i with
  | RequestStdio serverId method params =>
      snd (sendStdioRequest serverId method params env w)
  | RequestHttp serverId method params =>
      snd (sendHttpRequest serverId method params env w)
  | Response serverId response => snd (handleResponse serverId response env w)
  | Timeout t => run_event env w (TimerFires t)
  end.

Definition deliver_all (env : Env) (inputs : list input) (w : World) : World :=
  fold_left (deliver env) inputs w.

Lemma steps_deliver env w i : steps w (deliver env w i).
Proof.
  destruct i; simpl.
  - apply steps_sendStdioRequest.
  - apply steps_sendHttpRequest.
  - apply steps_handleResponse.
  - apply steps_run_event.
Qed.

Lemma steps_deliver_all env inputs w : steps w (deliver_all env inputs w).
Proof.
  revert w. induction inputs as [|i inputs IH]; intros w; [apply steps_refl|].
  simpl. eapply steps_trans; [apply steps_deliver | apply IH].
Qed.

(** A world in which no request is pending and no timer is set. *)
Lemma correlated_idle w :
  (forall server k, pending_at w server k = None) ->
  timers w = ∅ -> settlements w = [] ->
  (forall p st, promises w !! p = Some st -> p < fresh w) ->
  correlated w.
Proof.
  intros Hp Ht Hs Hb. split.
  - intros server k pr H. rewrite Hp in H. discriminate.
  - intros t server req p m H. rewrite Ht, lookup_empty in H. discriminate.
  - intros t1 t2 s1 r1 m1 s2 r2 m2 p H. rewrite Ht, lookup_empty in H.
    discriminate.
  - intros t x H. rewrite Ht, lookup_empty in H. discriminate.
  - intros t s r p m H. rewrite Ht, lookup_empty in H. discriminate.
  - exact Hb.
  - intros p _. rewrite Hs. reflexivity.
  - intros p H. rewrite Hs in H. simpl in H. lia.
  - intros p. rewrite Hs. simpl. lia.
Qed.

Lemma correlated_running : correlated Examples.running.
Proof.
  apply correlated_idle; try reflexivity.
  - intros server k. unfold pending_at. simpl.
    destruct ({[0 := Examples.session]} !! server) as [s'|] eqn:H;
      [|reflexivity].
    apply lookup_singleton_Some in H as [_ <-]. simpl. apply lookup_empty.
  - intros p st H. simpl in H. rewrite lookup_empty in H. discriminate.
Qed.

Lemma correlated_requested : correlated Examples.requested.
Proof.
  eapply correlated_rtc; [exact correlated_running|].
  apply steps_sendStdioRequest.
Qed.

Lemma timer_cleared_no_op env w t :
  timers w !! t = None -> run_event env w (TimerFires t) = w.
Proof.
  intros H. unfold run_event, dispatch, bind, gets. rewrite H. reflexivity.
Qed.

(** C1.  Each response completes at most one pending request.  Over every
    run of the correlator (requests sent, responses handled and timers
    fired, in any order) every request is completed at most once, by its
    response or by its timeout.  One response either finds no entry and is
    discarded, the world unchanged; or it finds its entry, which is deleted
    before [resolve]/[reject] is called, only the promise of that entry can
    change, and the timer of the entry is cleared, so that its firing
    afterwards does nothing.  When a request timer has fired, the entry is
    gone and a late response with that id is discarded. *)
Theorem C1_response_completes_at_most_once env w inputs :
  correlated w ->
  (forall p, completions p (settlements (deliver_all env inputs w)) <= 1)
  /\ (forall serverId response,
        let w' := snd (handleResponse serverId response env w) in
        match pending_for serverId response w with
        | None => w' = w
        | Some (server, k, pending) =>
            w' = call_pending ByResponse pending
                   (response_outcome env response) (delete_pending server k w)
            /\ pending_at (delete_pending server k w) server k = None
            /\ pending_for serverId response w' = None
            /\ (forall q, q <> promise pending ->
                  promises w' !! q = promises w !! q)
            /\ settlements w' = settlements w ++ [(promise pending, ByResponse)]
            /\ (forall t, timeout pending = Some t ->
                  run_event env w' (TimerFires t) = w')
        end)
  /\ (forall t server req p method serverId response,
        timers w !! t = Some (RequestTimeout server req p method) ->
        activeServers w !! serverId = Some server ->
        key_of (opt_get response (lit "id")) = Some (IdNum req) ->
        let w' := run_event env w (TimerFires t) in
        settlements w' = settlements w ++ [(p, ByTimeout)]
        /\ pending_at w' server (IdNum req) = None
        /\ snd (handleResponse serverId response env w') = w').
Proof.
  intros C. split; [|split].
  - intros p. apply at_most_once.
    eapply correlated_rtc; [exact C | apply steps_deliver_all].
  - intros serverId response w'.
    destruct (pending_for serverId response w) as [[[server k] pending]|] eqn:H.
    + destruct (handleResponse_completes env w _ _ _ _ _ H)
        as (H1 & _ & H3 & _ & H5 & _ & H7).
      fold w' in H1, H3, H5, H7.
      split; [|split; [|split; [|split; [|split]]]]; auto.
      * subst w'. rewrite (handleResponse_found _ _ _ _ _ _ _ H). reflexivity.
      * rewrite pending_at_delete, bool_decide_true; reflexivity.
      * intros t Ht. apply timer_cleared_no_op. auto.
    + apply handleResponse_discarded. exact H.
  - intros t server req p method serverId response Ht Ha Hk w'.
    subst w'. rewrite (run_event_request_timer _ _ _ _ _ _ _ Ht).
    destruct (removes_request_timeout w t server req p method)
      as (Hp & _ & Hs & _).
    assert (Hgone : pending_at
                      (request_timeout server req p method (clearTimeout t w))
                      server (IdNum req) = None).
    { rewrite Hp, bool_decide_true; reflexivity. }
    split; [exact Hs|]. split; [exact Hgone|].
    apply handleResponse_discarded.
    apply (pending_for_None_after _ _ _ server (IdNum req)); auto.
    unfold request_timeout.
    destruct (settle_promises_only p
                (Rejected (Error (lit "Request timeout for " ++ method)))
                (record_settlement p ByTimeout
                   (delete_pending server (IdNum req) (clearTimeout t w))))
      as (_ & _ & -> & _).
    exact Ha.
Qed.

Lemma C1_response_completes_at_most_once_witness :
  correlated Examples.requested
  /\ forall p,
      completions p
        (settlements
           (deliver_all Examples.quiet
              [Response Examples.s (Some (Examples.error_reply 7));
               Timeout 4;
               Response Examples.s (Some (Examples.error_reply 7))]
              Examples.requested)) <= 1.
Proof.
  split; [exact correlated_requested|].
  exact (proj1 (C1_response_completes_at_most_once Examples.quiet
                  Examples.requested _ correlated_requested)).
Defined.

(** In that run the request with promise 3 is completed once, by the first
    response; the timer and the second response find nothing. *)
Example requested_completed_once :
  settlements
    (deliver_all Examples.quiet
       [Response Examples.s (Some (Examples.error_reply 7));
        Timeout 4;
        Response Examples.s (Some (Examples.error_reply 7))]
       Examples.requested)
  = [(3, ByResponse)].
Proof. vm_compute. reflexivity. Qed.

End CorrelatorFacts.

(* ===================================================================== *)
(** ** The chat turn: tool calls, the loop and cancellation *)
(* ===================================================================== *)

Module ChatFacts.
Import Chat ProgFacts McpFacts CorrelatorFacts.

Local Open Scope nat_scope.

(** *** Tools that cannot be called *)

(** A list of tools as declared: an array of descriptors, none of them
    [null]. *)
Definition tool_list (tools : json) : Prop :=
  exists items, tools = JArr items /\ Forall (fun t => t <> JNull) items.





(** [findToolServer] throws on a list with a [null] before the tool. *)
Example findToolServer_null_entry :
  Mcp.findToolServer (lit "echo")
    (Mcp.set_serverStates
       (fun _ => {[ Examples.s :=
                      {| Mcp.state_id := Examples.s;
                         Mcp.status := Mcp.connected;
                         Mcp.tools :=
                           JArr [JNull;
                                 JObj [(lit "name", JStr (lit "echo"))]];
                         Mcp.state_error := None |} ]})
       Examples.running)
  = Threw TypeError.
Proof. vm_compute. reflexivity. Qed.

Lemma some_named_not_hung toolName items :
  Mcp.some_named toolName items <> Hung.
Proof.
  induction items as [|t items IH]; simpl; [discriminate|].
  unfold Mcp.tool_named.
  destruct t; try discriminate;
    destruct (is_string _ _); try discriminate; exact IH.
Qed.

Lemma findToolServer_not_hung toolName (m : Mcp.World) :
  Mcp.findToolServer toolName m <> Hung.
Proof.
  unfold Mcp.findToolServer.
  induction (Mcp.servers m) as [|server rest IH]; simpl; [discriminate|].
  destruct (Mcp.enabled server); simpl; [|exact IH].
  destruct (Mcp.serverStates m !! Mcp.id server) as [state|]; [|exact IH].
  destruct (Mcp.status state); try exact IH.
  unfold Mcp.hasTool.
  destruct (Mcp.tools state) as [| | | |items|]; try discriminate;
    try exact IH.
  pose proof (some_named_not_hung toolName items) as Hs.
  destruct (Mcp.some_named toolName items) as [[|]|e|];
    try discriminate; try exact IH. contradiction.
Qed.







(** *** What the user and the other turns do *)

Lemma preserves_map_M {A B} (rel : World -> World -> Prop)
    (f : A -> M B) (l : list A) :
  (forall w, rel w w) ->
  (forall a b c, rel a b -> rel b c -> rel a c) ->
  (forall a, preserves rel (f a)) -> preserves rel (map_M f l).
Proof.
  intros Hr Ht Hf. induction l as [|x rest IH]; simpl.
  - apply preserves_ret; exact Hr.
  - apply preserves_bind; [exact Ht | apply Hf | intros y].
    apply preserves_bind; [exact Ht | exact IH | intros ys].
    apply preserves_ret; exact Hr.
Qed.

Ltac turn_preserve refl trans leaf :=
  repeat first
    [ match goal with
      | |- preserves _ (map_M _ _) =>
          apply preserves_map_M; [exact refl | exact trans | intros ?]
      end
    | preserve_step refl trans leaf ].

Ltac store_leaf :=
  progress unfold addMessage, updateMessage, updateMessageToolCalls,
    updateToolCallStatus, setMessageStreaming.

(** A preorder that every step of the start and of the end of a turn, and
    a press on Stop, keep is kept by all that happens during awaits. *)
Section Interrupted.
Context (rel : World -> World -> Prop).
Hypothesis rel_refl : forall w, rel w w.
Hypothesis rel_trans : forall a b c, rel a b -> rel b c -> rel a c.
Hypothesis rel_store : forall f w, rel w (set_conversations f w).
Hypothesis rel_generated : forall f w, rel w (set_generated f w).
Hypothesis rel_generating : forall b w, rel w (setIsGenerating b w).
Hypothesis rel_error : forall e w, rel w (setError e w).
Hypothesis rel_onError : forall m w, rel w (call_onError m w).
Hypothesis rel_controllers : forall f w, rel w (set_controllers f w).
Hypothesis rel_abortController : forall c w, rel w (set_abortController c w).
Hypothesis rel_others : forall f w, rel w (set_others f w).
Hypothesis rel_stop : forall w, rel w (stopGeneration w).

Ltac shared_leaf :=
  first [ apply rel_store | apply rel_generated | apply rel_generating
        | apply rel_error | apply rel_onError
        | unfold new_AbortController;
          eapply rel_trans; [apply rel_controllers
                            | apply rel_abortController]
        | store_leaf ].

Lemma interrupted_sendMessage_start content :
  preserves rel (sendMessage_start content).
Proof.
  unfold sendMessage_start. preserve rel_refl rel_trans shared_leaf.
Qed.

Lemma interrupted_turn_failed id e : preserves rel (turn_failed id e).
Proof. unfold turn_failed. preserve rel_refl rel_trans shared_leaf. Qed.

Lemma interrupted_regenerate :
  preserves rel (regenerate sendMessage_start (ret None)).
Proof.
  unfold regenerate.
  preserve rel_refl rel_trans
    ltac:(first [ apply interrupted_sendMessage_start | shared_leaf ]).
Qed.

Lemma interrupted_interrupt env w i : rel w (interrupt env w i).
Proof.
  destruct i as [| |failure]; simpl.
  - apply rel_stop.
  - destruct (regenerate_shown w); [|apply rel_refl].
    pose proof (interrupted_regenerate env w) as H.
    destruct (regenerate sendMessage_start (ret None) env w)
      as [[[id|]|e|] w1]; simpl in H; try exact H.
    eapply rel_trans; [exact H | apply rel_others].
  - destruct (others w) as [|id rest]; [apply rel_refl|].
    unfold sendMessage_finally.
    eapply rel_trans; [apply (rel_others (fun _ => rest))|].
    eapply rel_trans; [|eapply rel_trans;
                         [apply rel_generating | apply rel_abortController]].
    destruct failure as [err|].
    + apply interrupted_turn_failed.
    + unfold setMessageStreaming, modify. simpl. apply rel_store.
Qed.

Lemma interrupted_interrupts env a b w : rel w (interrupts env a b w).
Proof.
  unfold interrupts. generalize (seq a (b - a)). intros ns. revert w.
  induction ns as [|n ns IH]; intros w; simpl; [apply rel_refl|].
  eapply rel_trans; [|apply IH].
  generalize (interruptions env n). intros l. revert w. clear IH.
  induction l as [|i l IH]; intros w; simpl; [apply rel_refl|].
  eapply rel_trans; [apply interrupted_interrupt | apply IH].
Qed.

End Interrupted.

(** *** Programs of the turn that come to an end *)

(** What a program of the turn does to the MCP service is a run of the
    correlator. *)
Definition mcp_steps (w w' : World) : Prop := steps (mcp w) (mcp w').

(** From a world whose correlator is in order, the program returns or
    throws. *)
Definition good {A} (m : M A) : Prop :=
  forall env w, correlated (mcp w) ->
    fst (m env w) <> Hung /\ mcp_steps w (snd (m env w)).

(** What the program returns, when it returns, satisfies [P]. *)
Definition post {A} (P : A -> Prop) (m : M A) : Prop :=
  forall env w a w', m env w = (Returned a, w') -> P a.

Section Good.
Context {A B : Type}.

Lemma good_ret (a : A) : good (ret a).
Proof. intros env w _. split; [discriminate | apply steps_refl]. Qed.

Lemma good_throw e : good (throw e : M A).
Proof. intros env w _. split; [discriminate | apply steps_refl]. Qed.

Lemma good_gets (f : World -> A) : good (gets f).
Proof. intros env w _. split; [discriminate | apply steps_refl]. Qed.

Lemma good_asks (f : Env -> A) : good (asks f).
Proof. intros env w _. split; [discriminate | apply steps_refl]. Qed.

Lemma good_bind (m : M A) (k : A -> M B) :
  good m -> (forall a, good (k a)) -> good (bind m k).
Proof.
  intros Hm Hk env w C. destruct (Hm env w C) as [Hh Hs].
  unfold bind. destruct (m env w) as [[a|e|] w1]; simpl in *.
  - assert (C1 : correlated (mcp w1)) by (eapply correlated_rtc; eauto).
    destruct (Hk a env w1 C1) as [Hh' Hs'].
    split; [exact Hh'|]. eapply steps_trans; eauto.
  - split; [discriminate | exact Hs].
  - contradiction.
Qed.

Lemma good_try_catch (m : M A) (h : thrown -> M A) :
  good m -> (forall e, good (h e)) -> good (try_catch m h).
Proof.
  intros Hm Hh env w C. destruct (Hm env w C) as [Hn Hs].
  unfold try_catch. destruct (m env w) as [[a|e|] w1]; simpl in *.
  - split; [discriminate | exact Hs].
  - assert (C1 : correlated (mcp w1)) by (eapply correlated_rtc; eauto).
    destruct (Hh e env w1 C1) as [Hh' Hs'].
    split; [exact Hh'|]. eapply steps_trans; eauto.
  - contradiction.
Qed.

Lemma good_try_finally (m : M A) (f : World -> World) :
  good m -> (forall w, mcp (f w) = mcp w) -> good (try_finally m f).
Proof.
  intros Hm Hf env w C. destruct (Hm env w C) as [Hn Hs].
  unfold try_finally. destruct (m env w) as [r w1]; simpl in *.
  split; [exact Hn|]. unfold mcp_steps. rewrite Hf. exact Hs.
Qed.

Lemma good_lift (m : Mcp.M A) :
  (forall menv mw, correlated mw -> fst (m menv mw) <> Hung) ->
  preserves steps m -> good (lift m).
Proof.
  intros Hn Hs env w C. specialize (Hn (mcp_env env) (mcp w) C).
  specialize (Hs (mcp_env env) (mcp w)).
  unfold lift. destruct (m (mcp_env env) (mcp w)) as [r m']. simpl in *.
  split; [exact Hn|]. unfold mcp_steps.
  eapply steps_trans; [exact Hs|].
  assert (Hi : forall w0 a b, steps (mcp w0) (mcp (interrupts env a b w0))).
  { intros w0 a b.
    apply (interrupted_interrupts (fun a b => steps (mcp a) (mcp b)));
      try (intros; apply steps_refl).
    - intros x y z. apply steps_trans.
    - intros w1. unfold stopGeneration.
      destruct (abortController w1) as [c|]; [|apply steps_refl].
      destruct (controllers w1 !! c) as [[|]|]; try apply steps_refl.
      apply steps_quiet, quiet_same; try reflexivity; simpl; lia. }
  exact (Hi (set_mcp (fun _ => m') w) _ _).
Qed.

Lemma good_call (f : World -> completion A) :
  (forall w, f w <> Hung) -> good (call f).
Proof.
  intros H env w _. split; [apply H | apply steps_refl].
Qed.

Lemma post_ret (P : A -> Prop) (a : A) : P a -> post P (ret a).
Proof. intros H env w a' w' E. injection E as <- _. exact H. Qed.

Lemma post_throw (P : A -> Prop) e : post P (throw e : M A).
Proof. intros env w a' w' E. discriminate. Qed.

Lemma post_bind (P : B -> Prop) (m : M A) (k : A -> M B) :
  (forall a, post P (k a)) -> post P (bind m k).
Proof.
  intros Hk env w b w' E. unfold bind in E.
  destruct (m env w) as [[a|e|] w1]; try discriminate.
  exact (Hk a env w1 b w' E).
Qed.

Lemma bind_ext_returned (m : M A) (k1 k2 : A -> M B) env w :
  (forall a w1, m env w = (Returned a, w1) -> k1 a env w1 = k2 a env w1) ->
  bind m k1 env w = bind m k2 env w.
Proof.
  intros H. unfold bind. destruct (m env w) as [[a|e|] w1]; auto.
Qed.

End Good.

Lemma good_modify (f : World -> World) :
  (forall w, mcp (f w) = mcp w) -> good (modify f).
Proof.
  intros Hf env w _. split; [discriminate|].
  unfold mcp_steps, modify. simpl. rewrite Hf. apply steps_refl.
Qed.

Lemma good_map_M {A B} (f : A -> M B) (l : list A) :
  (forall a, good (f a)) -> good (map_M f l).
Proof.
  intros Hf. induction l as [|x rest IH]; simpl; [apply good_ret|].
  apply good_bind; [apply Hf|]. intros y.
  apply good_bind; [exact IH|]. intros ys. apply good_ret.
Qed.

Lemma good_for_each {A} (f : A -> M unit) (l : list A) :
  (forall a, good (f a)) -> good (for_each f l).
Proof.
  intros Hf. induction l as [|x rest IH]; simpl; [apply good_ret|].
  apply good_bind; [apply Hf|]. intros _. exact IH.
Qed.

Ltac good_step leaf :=
  first
    [ match goal with
      | |- good (ret _) => apply good_ret
      | |- good (throw _) => apply good_throw
      | |- good (gets _) => apply good_gets
      | |- good (asks _) => apply good_asks
      | |- good (call _) => apply good_call; intros ?
      | |- good (bind _ _) => apply good_bind; [| intros ?]
      | |- good (try_catch _ _) => apply good_try_catch; [| intros ?]
      | |- good (for_each _ _) => apply good_for_each; intros ?
      | |- good (map_M _ _) => apply good_map_M; intros ?
      | |- good (modify _) => apply good_modify; intros ?; reflexivity
      | |- good (match ?x with _ => _ end) => destruct x
      | |- good (if ?b then _ else _) => destruct b
      end
    | progress cbv zeta
    | leaf ].

Ltac ending := repeat (good_step store_leaf).

Lemma good_addMessage r c st i n : good (addMessage r c st i n).
Proof. ending. Qed.

Lemma good_updateMessage id c : good (updateMessage id c).
Proof. ending. Qed.

Lemma good_updateToolCallStatus id c st r :
  good (updateToolCallStatus id c st r).
Proof. ending. Qed.

Lemma good_setMessageStreaming id b : good (setMessageStreaming id b).
Proof. ending. Qed.

Lemma good_onChunk_calls id full chunks : good (onChunk_calls id full chunks).
Proof.
  revert full. induction chunks as [|c rest IH]; intros full; simpl.
  - apply good_ret.
  - apply good_bind; [apply good_updateMessage|]. intros _. apply IH.
Qed.

Lemma good_perform a : good (lift (Mcp.perform a)).
Proof.
  apply good_lift.
  - intros menv mw _. discriminate.
  - intros menv mw. apply steps_quiet, quiet_same; try reflexivity; simpl; lia.
Qed.

Lemma good_wait : good (lift Mcp.wait).
Proof.
  apply good_lift; [|apply steps_wait]. intros menv mw _. discriminate.
Qed.

Lemma good_callTool serverId toolName args :
  good (lift (Mcp.callTool serverId toolName args)).
Proof.
  apply good_lift; [|apply steps_callTool].
  intros menv mw C.
  destruct (callTool_returns menv mw serverId toolName args C)
    as (v & w' & ->).
  discriminate.
Qed.

Lemma good_sendChatRequestWithTools signal onChunk :
  (forall l, good (onChunk l)) ->
  good (sendChatRequestWithTools signal onChunk).
Proof.
  intros H. unfold sendChatRequestWithTools.
  repeat (good_step ltac:(first [ apply good_perform | apply good_wait
                                | apply H ])).
Qed.

Lemma good_content_text c : good (content_text c).
Proof. unfold content_text. ending. Qed.

Lemma good_resultText r : good (resultText r).
Proof.
  unfold resultText.
  repeat (good_step ltac:(first [ apply good_content_text ])).
Qed.

Lemma good_tool_not_found id tc : good (tool_not_found id tc).
Proof. unfold tool_not_found. ending. Qed.

Lemma good_execute_one id tc : good (execute_one id tc).
Proof.
  unfold execute_one.
  repeat (good_step ltac:(first [ apply good_tool_not_found
                                | apply good_callTool
                                | apply good_resultText
                                | apply good_updateToolCallStatus
                                | apply findToolServer_not_hung ])).
Qed.

Lemma good_executeToolCalls id calls : good (executeToolCalls id calls).
Proof. apply good_map_M. intros tc. apply good_execute_one. Qed.

Lemma good_iteration v : good (iteration v).
Proof.
  unfold iteration.
  repeat (good_step ltac:(first [ apply good_sendChatRequestWithTools;
                                  intros ?; apply good_onChunk_calls
                                | apply good_executeToolCalls
                                | apply good_updateMessage
                                | apply good_setMessageStreaming
                                | apply good_addMessage
                                | store_leaf ])).
Qed.

(** *** The calls of the LLM service *)

Definition same_calls (w w' : World) : Prop := llm_calls w' = llm_calls w.

Lemma same_calls_refl w : same_calls w w.
Proof. reflexivity. Qed.

Lemma same_calls_trans a b c : same_calls a b -> same_calls b c -> same_calls a c.
Proof. unfold same_calls. congruence. Qed.

Lemma calls_lift {A} (m : Mcp.M A) : preserves same_calls (lift m).
Proof.
  intros env w. unfold lift.
  destruct (m (mcp_env env) (mcp w)) as [r m']. simpl.
  assert (Hi : forall w0 a b, same_calls w0 (interrupts env a b w0)).
  { intros w0 a b.
    apply (interrupted_interrupts same_calls same_calls_refl
             same_calls_trans); try (intros; reflexivity).
    intros w1. unfold stopGeneration.
    destruct (abortController w1) as [c|]; [|reflexivity].
    destruct (controllers w1 !! c) as [[|]|]; reflexivity. }
  exact (Hi (set_mcp (fun _ => m') w) _ _).
Qed.

Lemma calls_onChunk_calls id full chunks :
  preserves same_calls (onChunk_calls id full chunks).
Proof.
  revert full. induction chunks as [|c rest IH]; intros full; simpl.
  - apply preserves_ret, same_calls_refl.
  - apply preserves_bind; [exact same_calls_trans | | intros _; apply IH].
    intros env w. reflexivity.
Qed.

Ltac calls_leaf :=
  first [ exact eq_refl | apply calls_lift | apply calls_onChunk_calls
        | store_leaf
        | progress unfold content_text, resultText, tool_not_found,
            execute_one, executeToolCalls ].

Ltac counting := turn_preserve same_calls_refl same_calls_trans calls_leaf.

(** A call of the LLM service is counted once, however it ends. *)
Lemma sendChatRequestWithTools_calls signal onChunk env w :
  (forall l, preserves same_calls (onChunk l)) ->
  llm_calls (snd (sendChatRequestWithTools signal onChunk env w))
  = S (llm_calls w).
Proof.
  intros H. unfold sendChatRequestWithTools.
  unfold bind at 1, gets at 1. unfold bind at 1, modify at 1.
  match goal with
  | |- llm_calls (snd (?rest env (set_llm_calls S w))) = _ =>
      assert (Hrest : preserves same_calls rest)
  end.
  { turn_preserve same_calls_refl same_calls_trans
      ltac:(first [ apply H | calls_leaf ]). }
  rewrite (Hrest env (set_llm_calls S w)). reflexivity.
Qed.

Lemma calls_executeToolCalls id calls :
  preserves same_calls (executeToolCalls id calls).
Proof. counting. Qed.

(** One turn of the loop makes one call of the LLM service. *)
Lemma iteration_calls v env w :
  llm_calls (snd (iteration v env w)) = S (llm_calls w).
Proof.
  unfold iteration. cbv zeta. unfold bind at 1, gets at 1. unfold bind at 1.
  pose proof (sendChatRequestWithTools_calls (abortController w)
                (onChunk_calls (currentAssistantId v) []) env w
                (calls_onChunk_calls (currentAssistantId v) [])) as Hc.
  destruct (sendChatRequestWithTools _ _ env w) as [[response|e|] w1];
    simpl in Hc; try exact Hc.
  match goal with
  | |- llm_calls (snd (?rest env w1)) = _ =>
      assert (Hrest : preserves same_calls rest)
  end.
  { counting. }
  rewrite (Hrest env w1). exact Hc.
Qed.

(** ... and counts one iteration. *)
Lemma iteration_iterations v :
  post (fun v' => iterations v' = S (iterations v)) (iteration v).
Proof.
  unfold iteration. cbv zeta.
  apply post_bind. intros signal.
  apply post_bind. intros response. apply post_bind. intros _.
  destruct (response_toolCalls response) as [[|tc tcs]|];
    try (apply post_ret; reflexivity).
  repeat (apply post_bind; intros ?).
  apply post_ret. reflexivity.
Qed.

(** *** The loop *)

Lemma while_loop_unfold fuel v :
  while_loop fuel v
  = if continueLoop v && (iterations v <? maxIterations)
    then match fuel with
         | O => ret None
         | S fuel' => let! v' := iteration v in while_loop fuel' v'
         end
    else ret (Some v).
Proof. destruct fuel; reflexivity. Qed.

(** The fuel of the model is never used up: [maxIterations] turns, less
    the turns already made, are enough. *)
Lemma while_loop_fuel fuel v env w :
  maxIterations - iterations v <= fuel ->
  fst (while_loop fuel v env w) <> Returned None.
Proof.
  revert v w. induction fuel as [|fuel IH]; intros v w Hf;
    rewrite while_loop_unfold;
    destruct (continueLoop v && (iterations v <? maxIterations)) eqn:Hc;
    try discriminate.
  - apply andb_true_iff in Hc as [_ Hc]. apply Nat.ltb_lt in Hc. lia.
  - apply andb_true_iff in Hc as [_ Hc]. apply Nat.ltb_lt in Hc.
    unfold bind. destruct (iteration v env w) as [[v'|e|] w1] eqn:Hi;
      try discriminate.
    apply IH. rewrite (iteration_iterations v env w v' w1 Hi). lia.
Qed.

(** More fuel changes nothing. *)
Lemma while_loop_more_fuel fuel v env w :
  maxIterations - iterations v <= fuel ->
  while_loop fuel v env w
  = while_loop (maxIterations - iterations v) v env w.
Proof.
  revert v w. induction fuel as [|fuel IH]; intros v w Hf.
  - replace (maxIterations - iterations v) with 0 by lia. reflexivity.
  - rewrite (while_loop_unfold (S fuel)),
      (while_loop_unfold (maxIterations - iterations v)).
    destruct (continueLoop v && (iterations v <? maxIterations)) eqn:Hc;
      [|reflexivity].
    apply andb_true_iff in Hc as [_ Hc]. apply Nat.ltb_lt in Hc.
    destruct (maxIterations - iterations v) as [|k] eqn:Hk; [lia|].
    apply bind_ext_returned. intros v' w1 Hi.
    pose proof (iteration_iterations v env w v' w1 Hi) as Hit.
    cbv beta in Hit. rewrite IH by lia. f_equal. lia.
Qed.

Lemma good_while_loop fuel v : good (while_loop fuel v).
Proof.
  revert v. induction fuel as [|fuel IH]; intros v;
    rewrite while_loop_unfold;
    destruct (continueLoop v && (iterations v <? maxIterations));
    try apply good_ret.
  apply good_bind; [apply good_iteration | exact IH].
Qed.

(** The loop makes as many calls of the LLM service as it makes turns, and
    at most [maxIterations] turns in all. *)
Lemma while_loop_calls fuel v env w :
  iterations v <= maxIterations ->
  let r := while_loop fuel v env w in
  llm_calls (snd r) + iterations v <= llm_calls w + maxIterations
  /\ forall v', fst r = Returned (Some v') ->
       iterations v <= iterations v' <= maxIterations
       /\ llm_calls (snd r) + iterations v = llm_calls w + iterations v'.
Proof.
  revert v w. induction fuel as [|fuel IH]; intros v w Hv; cbv zeta;
    rewrite while_loop_unfold;
    destruct (continueLoop v && (iterations v <? maxIterations)) eqn:Hc;
    simpl.
  - split; [lia|]. discriminate.
  - split; [lia|]. intros v' E. injection E as <-. lia.
  - apply andb_true_iff in Hc as [_ Hc]. apply Nat.ltb_lt in Hc.
    pose proof (iteration_calls v env w) as Hcalls.
    unfold bind. destruct (iteration v env w) as [[v1|e|] w1] eqn:Hi;
      simpl in Hcalls.
    + pose proof (iteration_iterations v env w v1 w1 Hi) as Hit.
      cbv beta in Hit.
      destruct (IH v1 w1 ltac:(lia)) as [H1 H2]. split; [lia|].
      intros v' E. specialize (H2 v' E). lia.
    + simpl. split; [lia|]. discriminate.
    + simpl. split; [lia|]. discriminate.
  - split; [lia|]. intros v' E. injection E as <-. lia.
Qed.

Lemma spread_not_hung v : spread v <> Hung.
Proof. destruct v; discriminate. Qed.

Lemma available_not_hung states configs : available states configs <> Hung.
Proof.
  induction configs as [|server rest IH]; [discriminate|].
  cbn [available]. cbv zeta.
  assert (Hp : forall p : completion (list Mcp.MCPTool),
             p <> Hung ->
             match p with
             | Returned tools =>
                 match available states rest with
                 | Returned more => Returned (tools ++ more)
                 | r => r
                 end
             | r => r
             end <> Hung).
  { intros [tools|e|] Hp; try discriminate; [|contradiction].
    destruct (available states rest); try discriminate. contradiction. }
  apply Hp.
  destruct (negb (Mcp.enabled server)); [discriminate|].
  destruct (states !! Mcp.id server) as [state|]; [|discriminate].
  destruct (Mcp.status state); try discriminate.
  destruct (truthy (Some (Mcp.tools state))); [|discriminate].
  apply spread_not_hung.
Qed.

Lemma getAvailableTools_not_hung w : getAvailableTools w <> Hung.
Proof. apply available_not_hung. Qed.

Lemma toolInfo_not_hung tools : toolInfo tools <> Hung.
Proof. unfold toolInfo. destruct (existsb _ tools); discriminate. Qed.

(** [handleChatCompletion] is its loop, when the tools can be listed and
    described; else it throws before the loop. *)
Lemma handleChatCompletion_run id env w :
  let v0 := {| currentAssistantId := id; continueLoop := true;
               iterations := 0 |} in
  (exists e, handleChatCompletion id env w = (Threw e, w))
  \/ handleChatCompletion id env w
     = (let! final := while_loop maxIterations v0 in
        match final with
        | Some v => setMessageStreaming (currentAssistantId v) false
        | None => fun _ w => (Hung, w)
        end) env w.
Proof.
  cbv zeta.
  set (loop := let! final := while_loop maxIterations _ in _).
  assert (E : handleChatCompletion id env w
              = match getAvailableTools w with
                | Returned tools =>
                    match toolInfo tools with
                    | Returned _ => loop env w
                    | Threw e => (Threw e, w)
                    | Hung => (Hung, w)
                    end
                | Threw e => (Threw e, w)
                | Hung => (Hung, w)
                end).
  { unfold handleChatCompletion, bind at 1, call at 1.
    destruct (getAvailableTools w) as [tools|e|]; reflexivity. }
  rewrite E.
  pose proof (getAvailableTools_not_hung w) as H1.
  destruct (getAvailableTools w) as [tools|e|]; [|left; eauto|contradiction].
  pose proof (toolInfo_not_hung tools) as H2.
  destruct (toolInfo tools) as [[]|e|]; [|left; eauto|contradiction].
  right. reflexivity.
Qed.

(** C4.  From a world whose correlator is in order, and for every script
    of the LLM service and of the environment, [handleChatCompletion] comes
    to an end (it returns or throws), having made at most [maxIterations]
    = 10 turns of its loop, each with one call of the LLM service.  The
    loop of the model never runs out of its fuel, and more fuel changes
    nothing. *)
Theorem C4_loop_terminates_within_ten env w assistantMessageId :
  correlated (mcp w) ->
  let v0 := {| currentAssistantId := assistantMessageId;
               continueLoop := true; iterations := 0 |} in
  maxIterations = 10
  /\ fst (handleChatCompletion assistantMessageId env w) <> Hung
  /\ llm_calls (snd (handleChatCompletion assistantMessageId env w))
     <= llm_calls w + maxIterations
  /\ fst (while_loop maxIterations v0 env w) <> Returned None
  /\ (forall v', fst (while_loop maxIterations v0 env w) = Returned (Some v') ->
        iterations v' <= maxIterations
        /\ llm_calls (snd (while_loop maxIterations v0 env w))
           = llm_calls w + iterations v')
  /\ (forall fuel, maxIterations <= fuel ->
        while_loop fuel v0 env w = while_loop maxIterations v0 env w).
Proof.
  intros C v0.
  assert (H0 : iterations v0 = 0) by reflexivity.
  pose proof (while_loop_fuel maxIterations v0 env w ltac:(lia)) as Hfuel.
  destruct (while_loop_calls maxIterations v0 env w ltac:(lia))
    as [Hle Hex].
  destruct (good_while_loop maxIterations v0 env w C) as [Hhung _].
  split; [reflexivity|]. split; [|split; [|split; [exact Hfuel|split]]].
  - destruct (handleChatCompletion_run assistantMessageId env w)
      as [[e ->] | ->]; [discriminate|].
    fold v0. unfold bind.
    destruct (while_loop maxIterations v0 env w) as [[[v'|]|e|] w1];
      simpl in *; try discriminate; try contradiction.
  - destruct (handleChatCompletion_run assistantMessageId env w)
      as [[e ->] | ->]; [simpl; lia|].
    fold v0. unfold bind.
    destruct (while_loop maxIterations v0 env w) as [[[v'|]|e|] w1];
      simpl in *; lia.
  - intros v' E. destruct (Hex v' E) as [H1 H2]. lia.
  - intros fuel Hf.
    rewrite (while_loop_more_fuel fuel v0 env w) by lia.
    rewrite H0, Nat.sub_0_r. reflexivity.
Qed.

Lemma correlated_start : correlated (mcp ChatExamples.start).
Proof. exact correlated_running. Qed.

Lemma C4_loop_terminates_within_ten_witness :
  correlated (mcp ChatExamples.start)
  /\ fst (handleChatCompletion 1 ChatExamples.looping ChatExamples.start)
     <> Hung
  /\ llm_calls (snd (handleChatCompletion 1 ChatExamples.looping
                       ChatExamples.start)) <= 0 + maxIterations.
Proof.
  split; [exact correlated_start|].
  pose proof (C4_loop_terminates_within_ten ChatExamples.looping
                ChatExamples.start 1 correlated_start) as H.
  split; [exact (proj1 (proj2 H)) | exact (proj1 (proj2 (proj2 H)))].
Defined.

Definition is_request (a : io) : bool :=
  match a with
  | LlmRequest => true
  | _ => false
  end.

(** A model that asks for tools in every answer is called ten times, and
    then the turn is over. *)
Example looping_model_is_called_ten_times :
  let r := handleChatCompletion 1 ChatExamples.looping ChatExamples.start in
  fst r = Returned tt /\ llm_calls (snd r) = 10
  /\ length (List.filter is_request (Mcp.trace (mcp (snd r)))) = 10.
Proof. vm_compute. repeat split; reflexivity. Qed.

(** *** Cancellation *)















































(** Tool calls are made with no look at the signal. *)


















End ChatFacts.

(* ===================================================================== *)
(** ** Facts about strings: split, join, trim *)
(* ===================================================================== *)

Module StringFacts.

Local Open Scope nat_scope.

Lemma split_one sep s : sep ∉ s -> split sep s = [s].
Proof.
  induction s as [|c s IH]; intros H; [reflexivity|].
  simpl. destruct (N.eqb_spec c sep) as [->|Hc].
  - exfalso. apply H. left.
  - rewrite IH; [reflexivity|]. intros Hin. apply H. right. exact Hin.
Qed.

Lemma split_app_sep sep a b :
  sep ∉ a -> split sep (a ++ sep :: b) = a :: split sep b.
Proof.
  induction a as [|c a IH]; intros H; simpl.
  - rewrite N.eqb_refl. reflexivity.
  - destruct (N.eqb_spec c sep) as [->|Hc].
    + exfalso. apply H. left.
    + rewrite IH; [reflexivity|]. intros Hin. apply H. right. exact Hin.
Qed.

Lemma split_cons sep s :
  exists l ls, split sep s = l :: ls.
Proof.
  destruct (split sep s) as [|l ls] eqn:H; [|eauto].
  exfalso. exact (StreamingFacts.split_nonempty sep s H).
Qed.

(** No part of a split holds the separator. *)
Lemma split_parts sep s : Forall (fun l => sep ∉ l) (split sep s).
Proof.
  induction s as [|c s IH]; simpl.
  - constructor; [|constructor]. intros H. inversion H.
  - destruct (N.eqb_spec c sep) as [->|Hc].
    + constructor; [|exact IH]. intros H. inversion H.
    + destruct (split sep s) as [|l ls]; [repeat constructor|].
      * intros H. apply list_elem_of_singleton in H. congruence.
      * inversion IH as [|? ? Hl Hls]; subst. constructor; [|exact Hls].
        intros H. apply elem_of_cons in H as [H|H]; [congruence|auto].
Qed.

(** What the parts hold, the string holds. *)
Lemma split_elem sep s l c : l ∈ split sep s -> c ∈ l -> c ∈ s.
Proof.
  revert l. induction s as [|x s IH]; intros l Hl Hc; simpl in Hl.
  - apply list_elem_of_singleton in Hl. subst. inversion Hc.
  - destruct (N.eqb x sep).
    + apply elem_of_cons in Hl as [->|Hl]; [inversion Hc|].
      right. eapply IH; eauto.
    + destruct (split sep s) as [|l0 ls] eqn:Hs.
      * apply list_elem_of_singleton in Hl. subst.
        apply list_elem_of_singleton in Hc. subst. left.
      * apply elem_of_cons in Hl as [->|Hl].
        -- apply elem_of_cons in Hc as [->|Hc]; [left|].
           right. apply (IH l0); [left | exact Hc].
        -- right. apply (IH l); [right; exact Hl | exact Hc].
Qed.

Lemma join_cons sep x y rest :
  Chat.join sep (x :: y :: rest) = x ++ sep ++ Chat.join sep (y :: rest).
Proof. reflexivity. Qed.

(** [s.split(sep).join(sep)] is [s]. *)
Lemma join_split sep s : Chat.join [sep] (split sep s) = s.
Proof.
  induction s as [|c s IH]; [reflexivity|]. simpl.
  destruct (split_cons sep s) as (l & ls & Hs). rewrite Hs in *.
  destruct (N.eqb_spec c sep) as [->|Hc].
  - rewrite join_cons, IH. reflexivity.
  - destruct ls as [|l2 ls].
    + simpl in *. rewrite IH. reflexivity.
    + rewrite <- IH, !join_cons. reflexivity.
Qed.

(** [lines.join(sep).split(sep)] is [lines], for lines without [sep]. *)
Lemma split_join sep lines :
  lines <> [] -> Forall (fun l => sep ∉ l) lines ->
  split sep (Chat.join [sep] lines) = lines.
Proof.
  induction lines as [|l rest IH]; [congruence|]. intros _ H.
  inversion H as [|? ? Hl Hrest]; subst.
  destruct rest as [|l2 rest].
  - simpl. apply split_one. exact Hl.
  - rewrite join_cons.
    change ([sep] ++ Chat.join [sep] (l2 :: rest))
      with (sep :: Chat.join [sep] (l2 :: rest)).
    rewrite split_app_sep by exact Hl. rewrite IH; [reflexivity| |exact Hrest].
    discriminate.
Qed.

Lemma join_elem sep lines c :
  c ∈ Chat.join [sep] lines -> c = sep \/ exists l, l ∈ lines /\ c ∈ l.
Proof.
  induction lines as [|l rest IH]; intros H; [inversion H|].
  destruct rest as [|l2 rest].
  - simpl in H. right. exists l. split; [left | exact H].
  - rewrite join_cons in H. apply elem_of_app in H as [H|H].
    + right. exists l. split; [left | exact H].
    + apply elem_of_cons in H as [H|H]; [left; exact H|].
      destruct (IH H) as [?|(l' & Hl' & Hc)]; [left; assumption|].
      right. exists l'. split; [right; exact Hl' | exact Hc].
Qed.

(** *** trim *)

Lemma last_rev {A} (l : list A) : last (rev l) = head l.
Proof. destruct l as [|x l]; [reflexivity|]. simpl. apply last_snoc. Qed.

Lemma elem_of_rev {A} (l : list A) x : x ∈ rev l <-> x ∈ l.
Proof. rewrite !list_elem_of_In. symmetry. apply in_rev. Qed.

(** Neither the first nor the last code unit is white space. *)
Definition tight (s : jsstring) : Prop :=
  (forall c, head s = Some c -> is_space c = false)
  /\ (forall c, last s = Some c -> is_space c = false).

Lemma trimStart_head s c : head (trimStart s) = Some c -> is_space c = false.
Proof.
  induction s as [|x s IH]; simpl; [discriminate|].
  destruct (is_space x) eqn:Hx; [exact IH|].
  simpl. intros [= <-]. exact Hx.
Qed.

Lemma trimStart_fixed s :
  (forall c, head s = Some c -> is_space c = false) -> trimStart s = s.
Proof.
  destruct s as [|x s]; [reflexivity|]. intros H. simpl.
  rewrite (H x eq_refl). reflexivity.
Qed.

Lemma trimStart_elem s c : c ∈ trimStart s -> c ∈ s.
Proof.
  induction s as [|x s IH]; simpl; [auto|].
  destruct (is_space x); [|auto]. intros H. right. auto.
Qed.

Lemma trimStart_idem s : trimStart (trimStart s) = trimStart s.
Proof. apply trimStart_fixed, trimStart_head. Qed.

Lemma trimStart_snoc s c :
  is_space c = false -> trimStart (s ++ [c]) = trimStart s ++ [c].
Proof.
  intros Hc. induction s as [|x s IH]; simpl; [rewrite Hc; reflexivity|].
  destruct (is_space x); [exact IH | reflexivity].
Qed.

Lemma trimEnd_cons c s :
  is_space c = false -> trimEnd (c :: s) = c :: trimEnd s.
Proof.
  intros Hc. unfold trimEnd. simpl.
  rewrite trimStart_snoc by exact Hc. rewrite rev_unit. reflexivity.
Qed.

Lemma trimEnd_last s c : last (trimEnd s) = Some c -> is_space c = false.
Proof.
  unfold trimEnd. rewrite last_rev. apply trimStart_head.
Qed.

Lemma trimEnd_fixed s :
  (forall c, last s = Some c -> is_space c = false) -> trimEnd s = s.
Proof.
  intros H. unfold trimEnd. rewrite trimStart_fixed; [apply rev_involutive|].
  intros c Hc. apply H. rewrite <- (rev_involutive s), last_rev. exact Hc.
Qed.

Lemma trimEnd_elem s c : c ∈ trimEnd s -> c ∈ s.
Proof.
  unfold trimEnd. intros H. apply (proj1 (elem_of_rev _ _)) in H.
  apply trimStart_elem in H. apply (proj1 (elem_of_rev _ _)) in H. exact H.
Qed.

Lemma trim_elem s c : c ∈ trim s -> c ∈ s.
Proof. intros H. apply trimStart_elem, trimEnd_elem, H. Qed.

Lemma trim_tight s : tight (trim s).
Proof.
  unfold trim. split; [|apply trimEnd_last].
  destruct (trimStart s) as [|x t] eqn:Ht; [discriminate|].
  assert (Hx : is_space x = false)
    by (apply (trimStart_head s); rewrite Ht; reflexivity).
  rewrite trimEnd_cons by exact Hx. simpl. intros c [= <-]. exact Hx.
Qed.

Lemma tight_trim s : tight s -> trim s = s.
Proof.
  intros [Hh Hl]. unfold trim. rewrite trimStart_fixed by exact Hh.
  apply trimEnd_fixed, Hl.
Qed.

Lemma trim_idem s : trim (trim s) = trim s.
Proof. apply tight_trim, trim_tight. Qed.

(** A string that begins with a code unit that is no white space keeps it
    when trimmed. *)
Lemma trim_cons c s :
  is_space c = false -> trim (c :: s) = c :: trimEnd s.
Proof.
  intros Hc. unfold trim. simpl. rewrite Hc. apply trimEnd_cons, Hc.
Qed.

End StringFacts.

(* ===================================================================== *)
(** ** The helpers of the server form *)
(* ===================================================================== *)

Module ValidationFacts.
Import Validation StringFacts.

Local Open Scope nat_scope.

(** *** Arguments *)

(** An argument as [parseArgsString] gives it: not empty, without a
    space. *)
Definition argument (a : jsstring) : Prop := a <> [] /\ SPACE ∉ a.

Lemma filter_truthy_arguments (l : list jsstring) :
  Forall (fun a => SPACE ∉ a) l -> Forall argument (List.filter truthy_str l).
Proof.
  induction 1 as [|a l Ha Hl IH]; simpl; [constructor|].
  destruct a as [|c a]; simpl; [exact IH|].
  constructor; [|exact IH]. split; [discriminate | exact Ha].
Qed.

Lemma filter_truthy_all (l : list jsstring) :
  Forall argument l -> List.filter truthy_str l = l.
Proof.
  induction 1 as [|a l [Ha _] Hl IH]; simpl; [reflexivity|].
  destruct a as [|c a]; [congruence|]. simpl. rewrite IH. reflexivity.
Qed.

(** The arguments of a form are kept as they are typed, when none is empty
    or holds a space; and whatever is typed, what [parseArgsString] gives
    are such arguments, which joining with spaces and parsing again gives
    back. *)
Theorem parseArgsString_round_trip (args : list jsstring) (typed : jsstring) :
  Forall argument args ->
  parseArgsString (Chat.join [SPACE] args) = args
  /\ Forall argument (parseArgsString typed)
  /\ parseArgsString (Chat.join [SPACE] (parseArgsString typed))
     = parseArgsString typed.
Proof.
  assert (Hback : forall l, Forall argument l ->
                    parseArgsString (Chat.join [SPACE] l) = l).
  { intros l Hl. unfold parseArgsString. destruct l as [|a l]; [reflexivity|].
    rewrite split_join.
    - apply filter_truthy_all, Hl.
    - discriminate.
    - eapply Forall_impl; [exact Hl|]. intros x [_ Hx]. exact Hx. }
  assert (Hargs : Forall argument (parseArgsString typed))
    by apply filter_truthy_arguments, split_parts.
  intros H. split; [apply Hback, H|]. split; [exact Hargs|].
  apply Hback, Hargs.
Qed.

Lemma parseArgsString_round_trip_witness :
  Forall argument [lit "-y"; lit "cli-mcp-server"]
  /\ parseArgsString (lit "-y cli-mcp-server") = [lit "-y"; lit "cli-mcp-server"].
Proof.
  assert (H : Forall argument [lit "-y"; lit "cli-mcp-server"]).
  { repeat constructor; try discriminate; intros Hin;
      repeat (apply elem_of_cons in Hin as [Hin|Hin]; [discriminate|]);
      inversion Hin. }
  split; [exact H|].
  exact (proj1 (parseArgsString_round_trip
                  [lit "-y"; lit "cli-mcp-server"] [] H)).
Defined.

(** *** Environment variables *)

(** A property as [parseEnvString] writes it. *)
Definition variable (e : jsstring * jsstring) : Prop :=
  let '(k, v) := e in
  k <> [] /\ tight k /\ (EQUALS ∉ k) /\ (LF ∉ k) /\ head k <> Some HASH
  /\ k <> PROTO /\ tight v /\ (LF ∉ v).

Definition variables (o : object) : Prop :=
  NoDup (map fst o) /\ Forall variable o.

Lemma get_None o k : get o k = None <-> k ∉ map fst o.
Proof.
  induction o as [|[k' v] o IH]; simpl.
  - split; [intros _ H; inversion H | reflexivity].
  - unfold str_eqb. case_bool_decide as Hk.
    + subst. split; [discriminate|]. intros H. exfalso. apply H. left.
    + rewrite IH. rewrite not_elem_of_cons. split; [auto|tauto].
Qed.

Lemma get_Some o k v :
  NoDup (map fst o) -> (get o k = Some v <-> (k, v) ∈ o).
Proof.
  induction o as [|[k' v'] o IH]; simpl; intros Hnd.
  - split; [discriminate | intros H; inversion H].
  - apply NoDup_cons in Hnd as [Hk' Hnd]. unfold str_eqb.
    case_bool_decide as Hk.
    + subst. split.
      * intros [= ->]. left.
      * intros H. apply elem_of_cons in H as [[= ->]|H]; [reflexivity|].
        exfalso. apply Hk'. apply list_elem_of_fmap. exists (k, v). auto.
    + rewrite IH by exact Hnd. split; [intros H; right; exact H|].
      intros H. apply elem_of_cons in H as [[= -> ->]|H]; [congruence|exact H].
Qed.

Lemma get_permutation o o' k :
  NoDup (map fst o) -> o ≡ₚ o' -> get o k = get o' k.
Proof.
  intros Hnd Hp.
  assert (Hnd' : NoDup (map fst o')) by (rewrite <- Hp; exact Hnd).
  destruct (get o k) as [v|] eqn:H.
  - symmetry. apply get_Some; [exact Hnd'|]. rewrite <- Hp.
    apply get_Some; assumption.
  - symmetry. apply get_None. rewrite <- Hp. apply get_None, H.
Qed.

Lemma map_snd_insert_by_index n e l :
  map snd (insert_by_index n e l) ≡ₚ e :: map snd l.
Proof.
  induction l as [|[m e'] l IH]; simpl; [reflexivity|].
  destruct (n <? m)%N; simpl; [reflexivity|].
  rewrite IH. apply Permutation_swap.
Qed.

(** [Object.entries] gives every own property once. *)
Lemma Object_entries_permutation o : Object_entries o ≡ₚ o.
Proof.
  unfold Object_entries. induction o as [|[k v] o IH]; simpl; [reflexivity|].
  destruct (array_index k) as [n|] eqn:Hk; simpl.
  - rewrite map_snd_insert_by_index. simpl. rewrite IH. reflexivity.
  - rewrite <- Permutation_middle. rewrite IH. reflexivity.
Qed.

Lemma variables_entries o : variables o -> variables (Object_entries o).
Proof.
  intros [Hnd Hv]. split.
  - rewrite Object_entries_permutation. exact Hnd.
  - rewrite Object_entries_permutation. exact Hv.
Qed.

Lemma assign_new o k v :
  k <> PROTO -> k ∉ map fst o -> assign o k v = o ++ [(k, v)].
Proof.
  intros Hp Hk. unfold assign, str_eqb.
  rewrite bool_decide_false by exact Hp.
  apply get_None in Hk. rewrite Hk. reflexivity.
Qed.

Lemma tight_line k v :
  k <> [] -> tight k -> tight v -> tight (k ++ [EQUALS] ++ v).
Proof.
  intros Hk [Hkh _] [_ Hvl]. split.
  - destruct k as [|c k]; [congruence|]. simpl. intros c' [= <-].
    apply Hkh. reflexivity.
  - intros c Hc. destruct v as [|d v] using rev_ind.
    + rewrite app_nil_r, last_snoc in Hc. injection Hc as <-. reflexivity.
    + rewrite !app_assoc, last_snoc in Hc. injection Hc as <-.
      apply Hvl. apply last_snoc.
Qed.

(** The line written for a variable is read as that variable. *)
Lemma parseEnvLine_variable result k v :
  variable (k, v) ->
  parseEnvLine result (k ++ [EQUALS] ++ v) = assign result k v.
Proof.
  intros (Hk & Hkt & Hke & Hkl & Hkh & Hkp & Hvt & Hvl).
  unfold parseEnvLine. cbv zeta.
  rewrite (tight_trim _ (tight_line k v Hk Hkt Hvt)).
  destruct k as [|c k]; [congruence|].
  assert (Hc : N.eqb HASH c = false).
  { apply N.eqb_neq. intros E. apply Hkh. rewrite E. reflexivity. }
  assert (Hstart : startsWith [HASH] ((c :: k) ++ [EQUALS] ++ v) = false)
    by (cbn [startsWith app]; rewrite Hc; reflexivity).
  rewrite Hstart.
  change (truthy_str ((c :: k) ++ [EQUALS] ++ v)) with true.
  cbn [negb orb].
  change ((c :: k) ++ [EQUALS] ++ v) with ((c :: k) ++ EQUALS :: v).
  rewrite split_app_sep by exact Hke.
  destruct (split_cons EQUALS v) as (l & ls & Hs). rewrite Hs.
  change (truthy_str (c :: k) && (0 <? length (l :: ls))) with true.
  cbv iota. rewrite <- Hs, join_split.
  rewrite (tight_trim _ Hkt), (tight_trim _ Hvt). reflexivity.
Qed.

Lemma fold_variables (es acc : object) :
  Forall variable es -> NoDup (map fst (acc ++ es)) ->
  fold_left parseEnvLine
    (map (fun '(k, v) => k ++ [EQUALS] ++ v) es) acc
  = acc ++ es.
Proof.
  revert acc. induction es as [|[k v] es IH]; intros acc Hv Hnd;
    cbn [map fold_left].
  - rewrite app_nil_r. reflexivity.
  - inversion Hv as [|? ? Hkv Hes]; subst.
    rewrite parseEnvLine_variable by exact Hkv.
    rewrite map_app in Hnd. simpl in Hnd.
    rewrite assign_new.
    + rewrite IH; [rewrite <- app_assoc; reflexivity | exact Hes |].
      rewrite <- app_assoc, map_app. exact Hnd.
    + destruct Hkv as (_ & _ & _ & _ & _ & Hp & _). exact Hp.
    + apply NoDup_app in Hnd as (_ & Hd & _). intros Hin.
      apply (Hd k Hin). left.
Qed.

Lemma line_no_LF k v : variable (k, v) -> LF ∉ k ++ [EQUALS] ++ v.
Proof.
  intros (_ & _ & _ & Hkl & _ & _ & _ & Hvl) H.
  apply elem_of_app in H as [H|H]; [auto|].
  apply elem_of_cons in H as [H|H]; [discriminate | auto].
Qed.

(** What [envToString] writes for an object of variables,
    [parseEnvString] reads as the entries of that object. *)
Lemma parseEnvString_envToString o :
  variables o -> parseEnvString (envToString (Some o)) = Object_entries o.
Proof.
  intros Ho. apply variables_entries in Ho. destruct Ho as [Hnd Hv].
  unfold envToString, parseEnvString.
  destruct (Object_entries o) as [|[k v] rest]; [reflexivity|].
  set (es := (k, v) :: rest) in *.
  set (lines := map (fun '(k, v) => k ++ [EQUALS] ++ v) es).
  assert (Hlines : Forall (fun l => LF ∉ l) lines).
  { subst lines. apply Forall_map. eapply Forall_impl; [exact Hv|].
    intros [k' v']. apply line_no_LF. }
  assert (Hne : lines <> []) by (subst lines es; discriminate).
  replace (truthy_str (trim (Chat.join [LF] lines))) with true.
  - cbn [negb]. cbv iota. rewrite split_join by assumption.
    subst lines. rewrite fold_variables; [reflexivity | exact Hv | exact Hnd].
  - subst lines es.
    pose proof (Forall_inv Hv) as Hkv.
    destruct Hkv as (Hk & [Hkh _] & _).
    destruct k as [|c k]; [congruence|].
    assert (Hc : is_space c = false) by (apply Hkh; reflexivity).
    destruct rest as [|[k2 v2] es2]; cbn [map].
    + cbn [Chat.join app]. rewrite trim_cons by exact Hc. reflexivity.
    + rewrite join_cons. cbn [app]. rewrite trim_cons by exact Hc.
      reflexivity.
Qed.

Lemma map_fst_replace o k v : map fst (replace o k v) = map fst o.
Proof.
  induction o as [|[k' v'] o IH]; [reflexivity|]. simpl.
  destruct (str_eqb k' k); simpl; [reflexivity|]. rewrite IH. reflexivity.
Qed.

Lemma Forall_replace (P : jsstring * jsstring -> Prop) o k v :
  Forall P o -> P (k, v) -> Forall P (replace o k v).
Proof.
  intros Ho Hkv. induction Ho as [|[k' v'] o Hx Ho IH]; [constructor|].
  simpl. unfold str_eqb. case_bool_decide as Hk.
  - subst. constructor; assumption.
  - constructor; assumption.
Qed.

Lemma assign_variables o k v :
  variables o -> (k <> PROTO -> variable (k, v)) -> variables (assign o k v).
Proof.
  intros [Hnd Hv] Hkv. unfold assign, str_eqb.
  case_bool_decide as Hp; [split; assumption|]. specialize (Hkv Hp).
  destruct (get o k) as [v'|] eqn:Hg.
  - split; [rewrite map_fst_replace; exact Hnd|].
    apply Forall_replace; assumption.
  - apply get_None in Hg. split.
    + rewrite map_app. apply NoDup_app. split; [exact Hnd|]. split.
      * intros x Hx Hin. apply list_elem_of_singleton in Hin. subst. auto.
      * apply NoDup_singleton.
    + apply Forall_app. split; [exact Hv|]. constructor; [exact Hkv|constructor].
Qed.

Lemma parseEnvLine_variables o line :
  LF ∉ line -> variables o -> variables (parseEnvLine o line).
Proof.
  intros Hline Ho. unfold parseEnvLine. cbv zeta.
  destruct (trim line) as [|c t] eqn:Ht; [exact Ho|].
  cbn [truthy_str negb orb].
  destruct (startsWith [HASH] (c :: t)) eqn:Hstart; [exact Ho|].
  assert (Hc : is_space c = false).
  { apply (proj1 (trim_tight line)). rewrite Ht. reflexivity. }
  assert (Hhash : c <> HASH).
  { intros ->. cbn in Hstart. discriminate. }
  assert (Hin : forall x, x ∈ c :: t -> x ∈ line).
  { intros x Hx. apply trim_elem. rewrite Ht. exact Hx. }
  pose proof (split_parts EQUALS (c :: t)) as Hparts.
  assert (Hsub : forall l x, l ∈ split EQUALS (c :: t) -> x ∈ l -> x ∈ line).
  { intros l x Hl Hx. apply Hin. eapply split_elem; eauto. }
  destruct (split EQUALS (c :: t)) as [|key valueParts] eqn:Hsplit;
    [exact Ho|].
  destruct key as [|c' key]; [exact Ho|].
  destruct valueParts as [|v1 vs]; [exact Ho|].
  cbn [truthy_str andb length]. change (0 <? S (length vs)) with true.
  cbv iota.
  assert (Hc' : c' = c).
  { simpl in Hsplit. destruct (N.eqb c EQUALS); [discriminate|].
    destruct (split EQUALS t); injection Hsplit as <- _; reflexivity. }
  subst c'.
  apply assign_variables; [exact Ho|]. intros Hproto.
  rewrite trim_cons by exact Hc.
  split; [discriminate|]. split.
  { rewrite <- trim_cons by exact Hc. apply trim_tight. }
  assert (Hkey : forall x, x ∈ c :: trimEnd key -> x ∈ c :: key).
  { intros x Hx. apply elem_of_cons in Hx as [->|Hx]; [left|].
    right. apply trimEnd_elem, Hx. }
  split.
  { intros Hx. apply Hkey in Hx.
    exact (Forall_inv Hparts Hx). }
  split.
  { intros Hx. apply Hkey in Hx. apply Hline.
    apply (Hsub (c :: key)); [left | exact Hx]. }
  split.
  { simpl. intros [= E]. congruence. }
  split.
  { rewrite <- trim_cons by exact Hc. exact Hproto. }
  split; [apply trim_tight|].
  intros Hx. apply trim_elem in Hx.
  apply join_elem in Hx as [Hx|(l & Hl & Hx)]; [discriminate|].
  apply Hline. apply (Hsub l); [right; exact Hl | exact Hx].
Qed.

Lemma fold_parseEnvLine_variables lines o :
  Forall (fun l => LF ∉ l) lines -> variables o ->
  variables (fold_left parseEnvLine lines o).
Proof.
  intros H. revert o. induction H as [|l lines Hl Hls IH]; intros o Ho;
    [exact Ho|].
  simpl. apply IH, parseEnvLine_variables; assumption.
Qed.

(** What [parseEnvString] gives is an object of variables. *)
Lemma parseEnvString_variables s : variables (parseEnvString s).
Proof.
  unfold parseEnvString.
  destruct (negb (truthy_str (trim s))).
  - split; constructor.
  - apply fold_parseEnvLine_variables; [apply split_parts|].
    split; constructor.
Qed.

(** The environment of a server, written by [envToString] and read by
    [parseEnvString], is the environment it was: the same variables with
    the same values (in the order of [Object.entries]), when the names are
    not empty, hold no [=] and no line feed, do not begin with [#], are not
    [__proto__], and names and values neither begin nor end with white
    space nor hold a line feed. *)
Theorem envToString_parseEnvString (o : object) :
  variables o ->
  parseEnvString (envToString (Some o)) = Object_entries o
  /\ forall k, get (parseEnvString (envToString (Some o))) k = get o k.
Proof.
  intros Ho. pose proof (parseEnvString_envToString o Ho) as H.
  split; [exact H|]. intros k. rewrite H.
  apply get_permutation.
  - rewrite Object_entries_permutation. exact (proj1 Ho).
  - apply Object_entries_permutation.
Qed.

Lemma envToString_parseEnvString_witness :
  variables [(lit "KEY", lit "a=b"); (lit "2", lit "two"); (lit "1", [])]
  /\ parseEnvString
       (envToString
          (Some [(lit "KEY", lit "a=b"); (lit "2", lit "two"); (lit "1", [])]))
     = [(lit "1", []); (lit "2", lit "two"); (lit "KEY", lit "a=b")].
Proof.
  assert (H : variables
                [(lit "KEY", lit "a=b"); (lit "2", lit "two"); (lit "1", [])]).
  { split.
    - repeat (apply NoDup_cons; split;
              [intros Hin;
               repeat (apply elem_of_cons in Hin as [Hin|Hin];
                       [discriminate|]);
               inversion Hin|]).
      apply NoDup_nil. exact I.
    - repeat constructor; try discriminate;
        try (intros c [= <-]; reflexivity);
        try (intros Hin;
             repeat (apply elem_of_cons in Hin as [Hin|Hin]; [discriminate|]);
             inversion Hin). }
  split; [exact H|].
  exact (proj1 (envToString_parseEnvString _ H)).
Defined.

(** Whatever is typed, [parseEnvString] gives variables with distinct
    names that are not empty, hold no [=] and no line feed, do not begin
    with [#] and are never [__proto__], names and values without white
    space around them; and writing them with [envToString] and reading
    them again gives the same variables with the same values. *)
Theorem parseEnvString_normal_form (typed : jsstring) :
  variables (parseEnvString typed)
  /\ parseEnvString (envToString (Some (parseEnvString typed)))
     = Object_entries (parseEnvString typed)
  /\ forall k,
      get (parseEnvString (envToString (Some (parseEnvString typed)))) k
      = get (parseEnvString typed) k.
Proof.
  pose proof (parseEnvString_variables typed) as Hv.
  pose proof (parseEnvString_envToString _ Hv) as H.
  split; [exact Hv|]. split; [exact H|]. intros k. rewrite H.
  apply get_permutation.
  - rewrite Object_entries_permutation. exact (proj1 Hv).
  - apply Object_entries_permutation.
Qed.

(** The cases of the tests of the repository. *)
Example parseEnvString_tests :
  parseEnvString (lit "KEY=value=with=equals")
  = [(lit "KEY", lit "value=with=equals")]
  /\ parseEnvString (lit "# Comment" ++ [LF] ++ lit "KEY=value")
     = [(lit "KEY", lit "value")]
  /\ parseEnvString (lit "  KEY = value  ") = [(lit "KEY", lit "value")]
  /\ parseEnvString (lit "  ") = []
  /\ parseEnvString (lit "__proto__=x") = []
  /\ parseArgsString (lit "arg1  arg2   arg3")
     = [lit "arg1"; lit "arg2"; lit "arg3"].
Proof. vm_compute. repeat split; reflexivity. Qed.

End ValidationFacts.

(* ===================================================================== *)
(** ** The name of the exported file *)
(* ===================================================================== *)

Module ChatExportFacts.
Import ChatExport.

Local Open Scope nat_scope.

(** A code unit of a sanitized title: a letter or digit of ASCII, a hyphen
    or an underscore. *)
Definition safe (c : N) : bool :=
  is_alnum c || (c =? HYPHEN)%N || (c =? UNDERSCORE)%N.

Lemma underscores_safe in_run s :
  Forall (fun c => is_alnum c || is_space c || (c =? HYPHEN)%N = true) s ->
  Forall (fun c => safe c = true) (underscores in_run s).
Proof.
  intros H. revert in_run. induction H as [|c s Hc Hs IH]; intros in_run;
    simpl; [constructor|].
  destruct (is_space c) eqn:Hsp.
  - destruct in_run; [apply IH|]. constructor; [reflexivity | apply IH].
  - constructor; [|apply IH]. unfold safe.
    rewrite orb_false_r in Hc. rewrite <- orb_assoc.
    apply orb_true_iff in Hc as [->| ->]; [reflexivity|].
    rewrite orb_true_r. reflexivity.
Qed.

Lemma strip_kept s :
  Forall (fun c => is_alnum c || is_space c || (c =? HYPHEN)%N = true) (strip s).
Proof.
  unfold strip. induction s as [|c s IH]; simpl; [constructor|].
  destruct (is_alnum c || is_space c || (c =? HYPHEN)%N) eqn:Hc;
    [constructor; assumption | exact IH].
Qed.

(** No two underscores follow each other: an underscore stands for a whole
    run of white space, and the underscores of the title are removed. *)
Fixpoint single_underscores (s : jsstring) : bool :=
  match s with
  | a :: (b :: _) as rest =>
      negb ((a =? UNDERSCORE)%N && (b =? UNDERSCORE)%N)
      && single_underscores rest
  | _ => true
  end.

Lemma underscores_head in_run s c :
  Forall (fun c => is_alnum c || is_space c || (c =? HYPHEN)%N = true) s ->
  head (underscores in_run s) = Some c -> c = UNDERSCORE -> in_run = false.
Proof.
  intros H. revert in_run. induction H as [|x s Hx Hs IH]; intros in_run;
    simpl; [discriminate|].
  destruct (is_space x) eqn:Hsp.
  - destruct in_run; [|reflexivity]. intros Hh Hc.
    specialize (IH true Hh Hc). discriminate.
  - simpl. intros [= <-] ->. exfalso.
    vm_compute in Hx. discriminate.
Qed.

Lemma underscores_single in_run s :
  Forall (fun c => is_alnum c || is_space c || (c =? HYPHEN)%N = true) s ->
  single_underscores (underscores in_run s) = true.
Proof.
  intros H. revert in_run. induction H as [|x s Hx Hs IH]; intros in_run;
    simpl; [reflexivity|].
  destruct (is_space x) eqn:Hsp.
  - destruct in_run; [apply IH|].
    destruct (underscores true s) as [|b rest] eqn:Hu; [reflexivity|].
    change (single_underscores (UNDERSCORE :: b :: rest))
      with (negb ((UNDERSCORE =? UNDERSCORE)%N && (b =? UNDERSCORE)%N)
            && single_underscores (b :: rest)).
    rewrite <- Hu, IH, andb_true_r.
    destruct (N.eqb_spec b UNDERSCORE) as [->|_]; [|rewrite andb_false_r; reflexivity].
    assert (Hh : head (underscores true s) = Some UNDERSCORE)
      by (rewrite Hu; reflexivity).
    pose proof (underscores_head true s UNDERSCORE Hs Hh eq_refl).
    discriminate.
  - destruct (underscores false s) as [|b rest] eqn:Hu; [reflexivity|].
    change (single_underscores (x :: b :: rest))
      with (negb ((x =? UNDERSCORE)%N && (b =? UNDERSCORE)%N)
            && single_underscores (b :: rest)).
    rewrite <- Hu, IH, andb_true_r.
    destruct (N.eqb_spec x UNDERSCORE) as [->|_]; [|reflexivity].
    vm_compute in Hx. discriminate.
Qed.

Lemma single_underscores_take n s :
  single_underscores s = true -> single_underscores (take n s) = true.
Proof.
  revert s. induction n as [|n IH]; intros s H; [reflexivity|].
  destruct s as [|a [|b rest]]; try reflexivity.
  { change (take (S n) [a]) with (a :: take n []). rewrite take_nil.
    reflexivity. }
  cbn [single_underscores] in H. apply andb_true_iff in H as [Hab Hrest].
  specialize (IH (b :: rest) Hrest).
  destruct n as [|n]; [reflexivity|].
  change (take (S (S n)) (a :: b :: rest))
    with (a :: take (S n) (b :: rest)) in *.
  change (take (S n) (b :: rest)) with (b :: take n rest) in *.
  cbn [single_underscores]. rewrite Hab. exact IH.
Qed.

(** Whatever the title of the conversation, the part of the file name made
    of it has at most 50 code units, each a letter or digit of ASCII, a
    hyphen or an underscore, with no two underscores in a row: no
    separator of paths, no dot and no control character comes from the
    title.  The name is that part, an underscore, the date and the
    extension of the format. *)
Theorem getDefaultFilename_safe (now title : jsstring) (format : ExportFormat) :
  length (sanitize title) <= 50
  /\ Forall (fun c => safe c = true) (sanitize title)
  /\ single_underscores (sanitize title) = true
  /\ getDefaultFilename now title format
     = sanitize title ++ lit "_" ++ default [] (head (split 84 now))
       ++ lit "." ++ match format with
                      | json => lit "json"
                      | markdown => lit "md"
                      end
  /\ 84%N ∉ default [] (head (split 84 now)).
Proof.
  unfold sanitize. split; [|split; [|split; [|split]]].
  - rewrite length_take. lia.
  - apply Forall_take, underscores_safe, strip_kept.
  - apply single_underscores_take, underscores_single, strip_kept.
  - reflexivity.
  - pose proof (StringFacts.split_parts 84%N now) as H.
    destruct (split 84 now) as [|d ds]; simpl.
    + intros Hin. inversion Hin.
    + exact (Forall_inv H).
Qed.

Example getDefaultFilename_example :
  getDefaultFilename (lit "2025-01-31T10:20:30.000Z")
    (lit "../My  chat: a_b/c?") json
  = lit "My_chat_abc_2025-01-31.json".
Proof. vm_compute. reflexivity. Qed.

End ChatExportFacts.

(* ===================================================================== *)
(** ** The MCP service: what a tool call and the events leave alone *)
(* ===================================================================== *)

Module ServiceFacts.
Import Mcp ProgFacts McpFacts CorrelatorFacts.

Local Open Scope nat_scope.

(** The part of a session object that requests and events do not write. *)
Definition session_frame (s : ServerState) :=
  (server_transport s, unlistenStdout s, unlistenStderr s, eventSource s,
   url s, headers s).

(** The registry of the sessions, the store and the listeners are the
    same, and every session object is there as before. *)
Record framed (w w' : World) : Prop := {
  f_active : activeServers w' = activeServers w;
  f_states : serverStates w' = serverStates w;
  f_servers : servers w' = servers w;
  f_listeners : listeners w' = listeners w;
  f_sessions : forall h,
    session_frame <$> heap w' !! h = session_frame <$> heap w !! h
}.

Lemma framed_refl w : framed w w.
Proof. split; reflexivity. Qed.

Lemma framed_trans a b c : framed a b -> framed b c -> framed a c.
Proof.
  intros [A1 A2 A3 A4 A5] [B1 B2 B3 B4 B5].
  split; try congruence; intros h; rewrite B5; apply A5.
Qed.

Lemma framed_same w w' :
  activeServers w' = activeServers w -> serverStates w' = serverStates w ->
  servers w' = servers w -> listeners w' = listeners w -> heap w' = heap w ->
  framed w w'.
Proof.
  intros H1 H2 H3 H4 H5. split; try assumption; intros h; rewrite H5;
    reflexivity.
Qed.

Lemma framed_settle p st w : framed w (settle p st w).
Proof.
  unfold settle. destruct (promises w !! p) as [[| |]|];
    apply framed_same; reflexivity.
Qed.

Lemma framed_update_server server f w :
  (forall s, session_frame (f s) = session_frame s) ->
  framed w (update_server server f w).
Proof.
  intros Hf. split; try reflexivity; intros h.
  unfold update_server. simpl.
  destruct (heap w !! server) as [s|] eqn:Hs; [|reflexivity].
  destruct (decide (h = server)) as [->|Hne].
  - rewrite lookup_insert_eq, Hs. simpl. rewrite Hf. reflexivity.
  - rewrite lookup_insert_ne by congruence. reflexivity.
Qed.

Lemma framed_delete_pending server k w : framed w (delete_pending server k w).
Proof. apply framed_update_server. intros s. reflexivity. Qed.

Lemma framed_call_pending src pending st w :
  framed w (call_pending src pending st w).
Proof.
  unfold call_pending.
  eapply framed_trans; [|apply framed_settle].
  destruct (timeout pending); apply framed_same; reflexivity.
Qed.

Lemma framed_request_timeout server req p method w :
  framed w (request_timeout server req p method w).
Proof.
  unfold request_timeout.
  eapply framed_trans; [|apply framed_settle].
  eapply framed_trans; [apply (framed_delete_pending server (IdNum req))|].
  apply framed_same; reflexivity.
Qed.

Lemma framed_transmission_failed server req p e w :
  framed w (transmission_failed server req p e w).
Proof.
  unfold transmission_failed.
  eapply framed_trans; [|apply framed_settle].
  eapply framed_trans; [apply (framed_delete_pending server (IdNum req))|].
  apply framed_same; reflexivity.
Qed.

Lemma framed_handleResponse serverId response :
  preserves framed (handleResponse serverId response).
Proof.
  intros env w.
  destruct (pending_for serverId response w) as [[[server k] pending]|] eqn:H.
  - rewrite (handleResponse_found _ _ _ _ _ _ _ H). cbn [snd].
    eapply framed_trans; [apply framed_delete_pending|].
    apply framed_call_pending.
  - rewrite (handleResponse_discarded _ _ _ _ H). apply framed_refl.
Qed.

Lemma framed_set_readyState es r w : framed w (set_readyState es r w).
Proof. apply framed_same; reflexivity. Qed.

Ltac framed_leaf :=
  first
    [ apply framed_handleResponse
    | apply framed_settle
    | apply framed_request_timeout
    | apply framed_transmission_failed
    | apply framed_set_readyState
    | apply framed_update_server; intros ?; reflexivity
    | apply framed_same; reflexivity ].

Ltac framing := preserve framed_refl framed_trans framed_leaf.

Lemma framed_stdout_line config_id line :
  preserves framed (stdout_line config_id line).
Proof. unfold stdout_line. framing. Qed.

Lemma framed_on_stdout config_id server server_id data :
  preserves framed (on_stdout config_id server server_id data).
Proof. unfold on_stdout. framing; try apply framed_stdout_line. Qed.

Lemma framed_close_eventSource es : preserves framed (close_eventSource es).
Proof. unfold close_eventSource, perform. framing. Qed.

Lemma framed_on_sse_message e data : preserves framed (on_sse_message e data).
Proof. unfold on_sse_message. framing. Qed.

Lemma framed_on_post_reply server_id req body :
  preserves framed (on_post_reply server_id req body).
Proof. unfold on_post_reply. framing. Qed.

Lemma framed_dispatch ev : preserves framed (dispatch ev).
Proof.
  destruct ev; unfold dispatch; framing;
    try first [ apply framed_on_stdout | apply framed_close_eventSource
              | apply framed_on_post_reply | apply framed_on_sse_message ].
Qed.

Lemma framed_run_event env w ev : framed w (run_event env w ev).
Proof. apply framed_dispatch. Qed.

Lemma framed_run_events env evs w : framed w (run_events env evs w).
Proof.
  revert w. induction evs as [|ev evs IH]; intros w; [apply framed_refl|].
  simpl. eapply framed_trans; [apply framed_run_event | apply IH].
Qed.

Lemma framed_wait : preserves framed wait.
Proof.
  intros env w. unfold wait. simpl.
  eapply framed_trans; [|apply framed_run_events].
  apply framed_same; reflexivity.
Qed.

Lemma framed_await_host : preserves framed await_host.
Proof. unfold await_host. framing; apply framed_wait. Qed.

Lemma framed_await_promise pt : preserves framed (await_promise pt).
Proof.
  unfold await_promise. destruct pt as [p t].
  framing; first [ apply framed_wait | intros env w; apply framed_run_event ].
Qed.

Lemma framed_alloc : preserves framed alloc.
Proof. intros env w. apply framed_same; reflexivity. Qed.

Lemma framed_register_request server req method :
  preserves framed (register_request server req method).
Proof. unfold register_request. framing; try apply framed_alloc. Qed.

Lemma framed_sendStdioRequest serverId method params :
  preserves framed (sendStdioRequest serverId method params).
Proof.
  unfold sendStdioRequest, perform. framing;
    try first [ apply framed_register_request | apply framed_alloc ].
Qed.

Lemma framed_sendHttpRequest serverId method params :
  preserves framed (sendHttpRequest serverId method params).
Proof.
  unfold sendHttpRequest, perform. framing;
    try first [ apply framed_register_request | apply framed_alloc ].
Qed.

Lemma framed_callTool serverId toolName args :
  preserves framed (callTool serverId toolName args).
Proof.
  unfold callTool. framing;
    try first [ apply framed_sendStdioRequest | apply framed_sendHttpRequest
              | apply framed_await_promise ].
  match goal with |- context [server_transport ?s] =>
    destruct (server_transport s) end;
    first [ apply framed_sendStdioRequest | apply framed_sendHttpRequest ].
Qed.

(** *** A request that is sent *)

(** What sending a request leaves: the promise [fresh w] is pending, the
    timer [fresh w + 1] is set for it, the entry is under the new id, and
    one line was written (or one POST made). *)
Record sent (env : Env) (w w1 : World) (server : nat) (req : Z)
    (method : jsstring) (out : io) : Prop := {
  sent_promise : promises w1 !! fresh w = Some Pending;
  sent_timer : timers w1 !! S (fresh w)
               = Some (RequestTimeout server req (fresh w) method);
  sent_entry : pending_at w1 server (IdNum req)
               = Some {| promise := fresh w; timeout := Some (S (fresh w)) |};
  sent_awaited : awaited w1 = awaited w;
  sent_settlements : settlements w1 = settlements w;
  sent_trace : trace w1 = trace w ++ [out];
  sent_heap : forall s,
    heap w !! server = Some s ->
    heap w1
    = <[server :=
          set_server_pending
            <[IdNum req := {| promise := fresh w;
                              timeout := Some (S (fresh w)) |}]>
            (set_server_requestId req s)]> (heap w)
}.

Lemma send_run server s req method (out : (json -> jsstring) -> io)
    (tr : nat -> Transmission) env w :
  heap w !! server = Some s ->
  exists w1,
    (modify (update_server server (set_server_requestId req));;
     let! pt := register_request server req method in
     let '(p, t) := pt in
     let! stringify := asks JSON_stringify in
     let! h := alloc in
     perform (out stringify);;
     modify (set_transmissions <[h := tr p]>);;
     ret (p, t)) env w = (Returned (fresh w, S (fresh w)), w1)
    /\ sent env w w1 server req method (out (JSON_stringify env)).
Proof.
  intros Hs. eexists. split; [reflexivity|].
  split; cbn; try reflexivity.
  - apply lookup_insert_eq.
  - apply lookup_insert_eq.
  - unfold pending_at, update_server. cbn. rewrite Hs. cbn.
    rewrite lookup_insert_eq. cbn. rewrite !lookup_insert_eq. cbn.
    rewrite !lookup_insert_eq. reflexivity.
  - intros s' Hs'. rewrite Hs in Hs'. injection Hs' as <-.
    unfold update_server. cbn. rewrite Hs. cbn.
    rewrite lookup_insert_eq. cbn. rewrite !lookup_insert_eq. cbn.
    rewrite !insert_insert_eq. unfold set_server_pending. cbn.
    rewrite insert_insert_eq. reflexivity.
Qed.

Lemma active_server_heap serverId w server s :
  active_server serverId w = Some (server, s) -> heap w !! server = Some s.
Proof.
  unfold active_server. intros H.
  destruct (activeServers w !! serverId) as [h|]; [|discriminate].
  simpl in H. destruct (heap w !! h) as [x|] eqn:Hx; [|discriminate].
  injection H as <- <-. exact Hx.
Qed.

(** The action by which a request leaves: a line for the process, or a
    POST. *)
Definition request_out (env : Env) (serverId : jsstring) (s : ServerState)
    (method : jsstring) (params : unknown) : io :=
  let request :=
    JSON_stringify env (JsonRpcRequest (increment (requestId s)) method params)
  in
  match server_transport s with
  | stdio => WriteMcpStdin serverId (request ++ [LF])
  | http => HttpPost (url s) request
  end.

Lemma sendStdioRequest_run env w serverId method params server s :
  active_server serverId w = Some (server, s) -> server_transport s = stdio ->
  exists w1,
    sendStdioRequest serverId method params env w
    = (Returned (fresh w, S (fresh w)), w1)
    /\ sent env w w1 server (increment (requestId s)) method
         (request_out env serverId s method params).
Proof.
  intros Ha Ht. unfold sendStdioRequest, request_out.
  unfold bind at 1, gets at 1. rewrite Ha, Ht. cbv beta iota zeta.
  exact (send_run server s (increment (requestId s)) method
           (fun stringify =>
              WriteMcpStdin serverId
                (stringify (JsonRpcRequest (increment (requestId s))
                              method params) ++ [LF]))
           (StdinWrite server (increment (requestId s))) env w
           (active_server_heap _ _ _ _ Ha)).
Qed.

Lemma sendHttpRequest_run env w serverId method params server s :
  active_server serverId w = Some (server, s) -> server_transport s = http ->
  exists w1,
    sendHttpRequest serverId method params env w
    = (Returned (fresh w, S (fresh w)), w1)
    /\ sent env w w1 server (increment (requestId s)) method
         (request_out env serverId s method params).
Proof.
  intros Ha Ht. unfold sendHttpRequest, request_out.
  unfold bind at 1, gets at 1. rewrite Ha, Ht. cbv beta iota zeta.
  exact (send_run server s (increment (requestId s)) method
           (fun stringify =>
              HttpPost (url s)
                (stringify (JsonRpcRequest (increment (requestId s))
                              method params)))
           (Post serverId server (increment (requestId s))) env w
           (active_server_heap _ _ _ _ Ha)).
Qed.

(** *** The result of a tool call *)

(** How an await of a request ends is read off its promise. *)
Lemma await_promise_ends env w p t r w' :
  await_promise (p, t) env w = (r, w') ->
  r = match promises w' !! p with
      | Some (Fulfilled v) => Returned v
      | Some (Rejected e) => Threw e
      | _ => Hung
      end.
Proof.
  unfold await_promise.
  rewrite (bind_Returned _ _ env w tt (snd (wait env w)) eq_refl).
  set (w2 := snd (wait env w)).
  rewrite (bind_Returned _ _ _ _ _ _ (eq_refl : gets promises env w2 = _)).
  assert (Htail : forall w3,
             match promises w3 !! p with
             | Some (Fulfilled v) => (Returned v, w3)
             | Some (Rejected e) => (Threw e, w3)
             | _ => (Hung, w3)
             end = (r, w') ->
             r = match promises w' !! p with
                 | Some (Fulfilled v) => Returned v
                 | Some (Rejected e) => Threw e
                 | _ => Hung
                 end).
  { intros w3 H. destruct (promises w3 !! p) as [[|v|e]|] eqn:Hp;
      injection H as <- <-; rewrite Hp; reflexivity. }
  destruct (promises w2 !! p) as [[|v|e]|] eqn:Hp.
  - rewrite (bind_Returned _ _ _ _ _ _
               (eq_refl : (fun env w => (Returned tt,
                                         run_event env w (TimerFires t)))
                            env w2 = _)).
    rewrite await_result. apply Htail.
  - rewrite (bind_Returned _ _ _ _ _ _ (eq_refl : ret tt env w2 = _)).
    rewrite await_result. apply Htail.
  - rewrite (bind_Returned _ _ _ _ _ _ (eq_refl : ret tt env w2 = _)).
    rewrite await_result. apply Htail.
  - rewrite (bind_Returned _ _ _ _ _ _ (eq_refl : ret tt env w2 = _)).
    rewrite await_result. apply Htail.
Qed.

Definition tool_request (toolName : jsstring) (args : json) : unknown :=
  Some (JObj [(lit "name", JStr toolName); (lit "arguments", args)]).

(** [callTool] behind its first check: the request is sent and awaited. *)
Lemma callTool_run env w serverId toolName args server s :
  active_server serverId w = Some (server, s) ->
  exists w1,
    sent env w w1 server (increment (requestId s)) (lit "tools/call")
      (request_out env serverId s (lit "tools/call")
         (tool_request toolName args))
    /\ callTool serverId toolName args env w
       = match await_promise (fresh w, S (fresh w)) env w1 with
         | (Threw e, w') =>
             (Returned (Some (error_result (lit "Error: " ++ error_message e))),
              w')
         | r => r
         end.
Proof.
  intros Ha. unfold callTool. unfold bind at 1, gets at 1. rewrite Ha.
  cbv beta iota zeta. unfold try_catch.
  destruct (server_transport s) eqn:Ht.
  - destruct (sendStdioRequest_run env w serverId (lit "tools/call")
                (tool_request toolName args) server s Ha Ht)
      as (w1 & Hrun & Hsent).
    exists w1. split; [exact Hsent|].
    unfold tool_request in Hrun. rewrite (bind_Returned _ _ _ _ _ _ Hrun).
    destruct (await_promise (fresh w, S (fresh w)) env w1) as [[v|e|] w'];
      reflexivity.
  - destruct (sendHttpRequest_run env w serverId (lit "tools/call")
                (tool_request toolName args) server s Ha Ht)
      as (w1 & Hrun & Hsent).
    exists w1. split; [exact Hsent|].
    unfold tool_request in Hrun. rewrite (bind_Returned _ _ _ _ _ _ Hrun).
    destruct (await_promise (fresh w, S (fresh w)) env w1) as [[v|e|] w'];
      reflexivity.
Qed.

(** [callTool] never rejects.  Whatever happens, it does not throw; from a
    world whose correlator is in order it returns; and what it returns is
    the result carried by the response to its request, or else a result
    made of an error: [Error: Server ... not running] when there is no
    session, [Error: ] and the message of the error otherwise (a JSON-RPC
    error, a timeout, a failed transmission). *)
Theorem callTool_never_rejects env w serverId toolName args :
  (forall e, fst (callTool serverId toolName args env w) <> Threw e)
  /\ (correlated w ->
      exists v, fst (callTool serverId toolName args env w) = Returned v)
  /\ (forall v w',
        callTool serverId toolName args env w = (Returned v, w') ->
        (active_server serverId w = None /\ w' = w
         /\ v = Some (error_result (lit "Error: Server " ++ serverId
                                    ++ lit " not running")))
        \/ (exists e,
              promises w' !! fresh w = Some (Rejected e)
              /\ v = Some (error_result (lit "Error: " ++ error_message e)))
        \/ promises w' !! fresh w = Some (Fulfilled v))
  /\ opt_get (Some (error_result [])) (lit "isError") = Some (JBool true).
Proof.
  split; [|split; [|split]].
  - intros e. destruct (active_server serverId w) as [[server s]|] eqn:Ha.
    + destruct (callTool_run env w serverId toolName args server s Ha)
        as (w1 & _ & ->).
      destruct (await_promise _ env w1) as [[v|e'|] w']; discriminate.
    + unfold callTool, bind, gets. rewrite Ha. discriminate.
  - intros C. destruct (callTool_returns env w serverId toolName args C)
      as (v & w' & ->). eauto.
  - intros v w' H.
    destruct (active_server serverId w) as [[server s]|] eqn:Ha.
    + right.
      destruct (callTool_run env w serverId toolName args server s Ha)
        as (w1 & _ & Hrun).
      rewrite Hrun in H.
      destruct (await_promise (fresh w, S (fresh w)) env w1) as [r w2] eqn:Hw.
      pose proof (await_promise_ends _ _ _ _ _ _ Hw) as Hr.
      destruct (promises w2 !! fresh w) as [[|v'|e]|] eqn:Hp; subst r;
        try discriminate.
      * right. injection H as <- <-. exact Hp.
      * left. injection H as <- <-. exists e. auto.
    + left. unfold callTool, bind, gets in H. rewrite Ha in H.
      injection H as <- <-. auto.
  - reflexivity.
Qed.

(** A tool call that is not answered: when nothing arrives while it is
    awaited, the request timer ends it.  The request was sent, its entry is
    removed, its promise is rejected, and [callTool] returns the result
    [Error: Request timeout for tools/call]. *)
Theorem callTool_times_out env w serverId toolName args server s :
  active_server serverId w = Some (server, s) ->
  during env (awaited w) = [] ->
  exists w',
    callTool serverId toolName args env w
    = (Returned (Some (error_result
                         (lit "Error: Request timeout for tools/call"))), w')
    /\ trace w' = trace w ++ [request_out env serverId s (lit "tools/call")
                                (tool_request toolName args)]
    /\ pending_at w' server (IdNum (increment (requestId s))) = None
    /\ timers w' !! S (fresh w) = None
    /\ promises w' !! fresh w
       = Some (Rejected (Error (lit "Request timeout for tools/call")))
    /\ settlements w' = settlements w ++ [(fresh w, ByTimeout)].
Proof.
  intros Ha Hquiet.
  destruct (callTool_run env w serverId toolName args server s Ha)
    as (w1 & [Hp Ht He Haw Hse Htr _] & ->).
  unfold await_promise.
  assert (Hw : wait env w1 = (Returned tt, set_awaited S w1)).
  { unfold wait. rewrite Haw, Hquiet. reflexivity. }
  rewrite (bind_Returned _ _ _ _ _ _ Hw).
  set (w2 := set_awaited S w1).
  rewrite (bind_Returned _ _ _ _ _ _ (eq_refl : gets promises env w2 = _)).
  change (promises w2) with (promises w1). rewrite Hp.
  rewrite (bind_Returned _ _ _ _ _ _
             (eq_refl : (fun env0 w0 =>
                           (Returned tt,
                            run_event env0 w0 (TimerFires (S (fresh w)))))
                          env w2 = _)).
  assert (Ht2 : timers w2 !! S (fresh w)
                = Some (RequestTimeout server (increment (requestId s))
                          (fresh w) (lit "tools/call"))) by exact Ht.
  rewrite await_result, (run_event_request_timer _ _ _ _ _ _ _ Ht2).
  set (w' := request_timeout server (increment (requestId s)) (fresh w)
               (lit "tools/call") (clearTimeout (S (fresh w)) w2)).
  assert (Hrej : promises w' !! fresh w
                 = Some (Rejected (Error (lit "Request timeout for tools/call")))).
  { subst w'. apply promises_request_timeout. exact Hp. }
  rewrite Hrej.
  destruct (removes_request_timeout w2 (S (fresh w)) server
              (increment (requestId s)) (fresh w) (lit "tools/call"))
    as (Hpend & Htimers & Hsett & _).
  fold w' in Hpend, Htimers, Hsett.
  exists w'. split; [reflexivity|]. split; [|split; [|split; [|split]]].
  - subst w'. unfold request_timeout. rewrite trace_settle. exact Htr.
  - rewrite Hpend, bool_decide_true; reflexivity.
  - rewrite Htimers. apply lookup_delete_eq.
  - exact Hrej.
  - rewrite Hsett. f_equal. exact Hse.
Qed.

Lemma callTool_times_out_witness :
  active_server Examples.s Examples.running = Some (0, Examples.session)
  /\ exists w',
      callTool Examples.s (lit "echo") (JObj []) Examples.quiet
        Examples.running
      = (Returned (Some (error_result
                           (lit "Error: Request timeout for tools/call"))), w')
      /\ pending_at w' 0 (IdNum 1) = None.
Proof.
  assert (Ha : active_server Examples.s Examples.running
               = Some (0, Examples.session)) by (vm_compute; reflexivity).
  split; [exact Ha|].
  destruct (callTool_times_out Examples.quiet Examples.running Examples.s
              (lit "echo") (JObj []) 0 Examples.session Ha eq_refl)
    as (w' & Hrun & _ & Hgone & _).
  exists w'. split; [exact Hrun | exact Hgone].
Defined.

(** A tool call and the events of the services leave the registry of the
    sessions, the servers and server states of the store, and the
    listeners as they are, and with them what [findToolServer] finds: also
    a tool call that fails or times out changes no status. *)
Theorem tool_calls_change_no_status env w serverId toolName args evs :
  let after := fun w' =>
    activeServers w' = activeServers w /\ serverStates w' = serverStates w
    /\ servers w' = servers w /\ listeners w' = listeners w
    /\ (forall h, session_frame <$> heap w' !! h
                  = session_frame <$> heap w !! h)
    /\ forall name, findToolServer name w' = findToolServer name w in
  after (snd (callTool serverId toolName args env w))
  /\ after (run_events env evs w).
Proof.
  assert (H : forall w', framed w w' ->
                activeServers w' = activeServers w
                /\ serverStates w' = serverStates w
                /\ servers w' = servers w /\ listeners w' = listeners w
                /\ (forall h, session_frame <$> heap w' !! h
                              = session_frame <$> heap w !! h)
                /\ forall name, findToolServer name w' = findToolServer name w).
  { intros w' [H1 H2 H3 H4 H5]. repeat split; try assumption.
    intros name. unfold findToolServer. rewrite H2, H3. reflexivity. }
  split; apply H; [apply framed_callTool | apply framed_run_events].
Qed.

(** *** The ids of the requests *)

(** Every pending entry of a session is under a number that its counter
    has reached. *)
Definition ids_issued (w : World) : Prop :=
  forall server s k pr,
    heap w !! server = Some s -> pendingRequests s !! k = Some pr ->
    exists n, k = IdNum n /\ (n <= requestId s)%Z.

(** The invariant is kept, and no counter goes back. *)
Definition keeps_ids (w w' : World) : Prop :=
  (ids_issued w -> ids_issued w')
  /\ forall h s, heap w !! h = Some s ->
       exists s', heap w' !! h = Some s' /\ (requestId s <= requestId s')%Z.

Lemma keeps_ids_refl w : keeps_ids w w.
Proof. split; [auto|]. intros h s Hs. exists s. split; [exact Hs|lia]. Qed.

Lemma keeps_ids_trans a b c : keeps_ids a b -> keeps_ids b c -> keeps_ids a c.
Proof.
  intros [A1 A2] [B1 B2]. split; [auto|]. intros h s Hs.
  destruct (A2 h s Hs) as (s1 & Hs1 & Hle1).
  destruct (B2 h s1 Hs1) as (s2 & Hs2 & Hle2).
  exists s2. split; [exact Hs2|lia].
Qed.

Lemma keeps_ids_same w w' : heap w' = heap w -> keeps_ids w w'.
Proof.
  intros H. split.
  - intros Hi server s k pr. rewrite H. apply Hi.
  - intros h s Hs. exists s. rewrite H. split; [exact Hs|lia].
Qed.

Lemma keeps_ids_settle p st w : keeps_ids w (settle p st w).
Proof.
  unfold settle. destruct (promises w !! p) as [[| |]|];
    apply keeps_ids_same; reflexivity.
Qed.

Lemma keeps_ids_update_server server f w :
  (forall s k pr, pendingRequests (f s) !! k = Some pr ->
                  pendingRequests s !! k = Some pr) ->
  (forall s, (requestId s <= requestId (f s))%Z) ->
  keeps_ids w (update_server server f w).
Proof.
  intros Hp Hr. unfold update_server. split.
  - intros Hi server' s' k pr. simpl.
    destruct (heap w !! server) as [s|] eqn:Hs; [|apply Hi].
    destruct (decide (server' = server)) as [->|Hne].
    + rewrite lookup_insert_eq. intros [= <-] Hk.
      destruct (Hi server s k pr Hs (Hp _ _ _ Hk)) as (n & -> & Hn).
      exists n. split; [reflexivity|]. specialize (Hr s). lia.
    + rewrite lookup_insert_ne by congruence. apply Hi.
  - intros h s' Hs'. simpl.
    destruct (heap w !! server) as [s|] eqn:Hs;
      [|exists s'; split; [exact Hs'|lia]].
    destruct (decide (h = server)) as [->|Hne].
    + rewrite lookup_insert_eq. rewrite Hs in Hs'. injection Hs' as <-.
      eexists. split; [reflexivity | apply Hr].
    + rewrite lookup_insert_ne by congruence.
      exists s'. split; [exact Hs'|lia].
Qed.

Lemma keeps_ids_delete_pending server k w :
  keeps_ids w (delete_pending server k w).
Proof.
  apply keeps_ids_update_server.
  - intros s k' pr H. simpl in H. apply lookup_delete_Some in H as [_ H].
    exact H.
  - intros s. simpl. lia.
Qed.

Lemma keeps_ids_call_pending src pending st w :
  keeps_ids w (call_pending src pending st w).
Proof.
  unfold call_pending.
  eapply keeps_ids_trans; [|apply keeps_ids_settle].
  destruct (timeout pending); apply keeps_ids_same; reflexivity.
Qed.

Lemma keeps_ids_request_timeout server req p method w :
  keeps_ids w (request_timeout server req p method w).
Proof.
  unfold request_timeout.
  eapply keeps_ids_trans; [|apply keeps_ids_settle].
  eapply keeps_ids_trans; [apply (keeps_ids_delete_pending server (IdNum req))|].
  apply keeps_ids_same; reflexivity.
Qed.

Lemma keeps_ids_transmission_failed server req p e w :
  keeps_ids w (transmission_failed server req p e w).
Proof.
  unfold transmission_failed.
  eapply keeps_ids_trans; [|apply keeps_ids_settle].
  eapply keeps_ids_trans; [apply (keeps_ids_delete_pending server (IdNum req))|].
  apply keeps_ids_same; reflexivity.
Qed.

Lemma keeps_ids_handleResponse serverId response :
  preserves keeps_ids (handleResponse serverId response).
Proof.
  intros env w.
  destruct (pending_for serverId response w) as [[[server k] pending]|] eqn:H.
  - rewrite (handleResponse_found _ _ _ _ _ _ _ H). cbn [snd].
    eapply keeps_ids_trans; [apply keeps_ids_delete_pending|].
    apply keeps_ids_call_pending.
  - rewrite (handleResponse_discarded _ _ _ _ H). apply keeps_ids_refl.
Qed.

Ltac ids_leaf :=
  first
    [ apply keeps_ids_handleResponse
    | apply keeps_ids_settle
    | apply keeps_ids_request_timeout
    | apply keeps_ids_transmission_failed
    | apply keeps_ids_update_server;
      [ intros ? ? ? H; exact H | intros ?; simpl; lia ]
    | apply keeps_ids_same; reflexivity ].

Ltac ids := preserve keeps_ids_refl keeps_ids_trans ids_leaf.

Lemma keeps_ids_stdout_line config_id line :
  preserves keeps_ids (stdout_line config_id line).
Proof. unfold stdout_line. ids. Qed.

Lemma keeps_ids_on_stdout config_id server server_id data :
  preserves keeps_ids (on_stdout config_id server server_id data).
Proof. unfold on_stdout. ids; try apply keeps_ids_stdout_line. Qed.

Lemma keeps_ids_close_eventSource es :
  preserves keeps_ids (close_eventSource es).
Proof. unfold close_eventSource, perform. ids. Qed.

Lemma keeps_ids_on_sse_message e data :
  preserves keeps_ids (on_sse_message e data).
Proof. unfold on_sse_message. ids. Qed.

Lemma keeps_ids_on_post_reply server_id req body :
  preserves keeps_ids (on_post_reply server_id req body).
Proof. unfold on_post_reply. ids. Qed.

Lemma keeps_ids_dispatch ev : preserves keeps_ids (dispatch ev).
Proof.
  destruct ev; unfold dispatch; ids;
    try first [ apply keeps_ids_on_stdout | apply keeps_ids_close_eventSource
              | apply keeps_ids_on_post_reply | apply keeps_ids_on_sse_message ].
Qed.

Lemma keeps_ids_run_events env evs w : keeps_ids w (run_events env evs w).
Proof.
  revert w. induction evs as [|ev evs IH]; intros w; [apply keeps_ids_refl|].
  simpl. eapply keeps_ids_trans; [apply keeps_ids_dispatch | apply IH].
Qed.

Lemma increment_le n : (n <= increment n)%Z.
Proof. unfold increment. destruct (n <? 2 ^ 53)%Z; lia. Qed.

Lemma increment_exact n : (n < 2 ^ 53)%Z -> increment n = (n + 1)%Z.
Proof.
  intros H. unfold increment.
  destruct (Z.ltb_spec n (2 ^ 53)); [reflexivity | lia].
Qed.

(** Sending keeps the invariant: the entry is under the new value of the
    counter. *)
Lemma keeps_ids_sent env w w1 server s method out :
  heap w !! server = Some s ->
  sent env w w1 server (increment (requestId s)) method out ->
  keeps_ids w w1.
Proof.
  intros Hs Hsent. pose proof (sent_heap _ _ _ _ _ _ _ Hsent s Hs) as Hh.
  split.
  - intros Hi server' s' k pr. rewrite Hh.
    destruct (decide (server' = server)) as [->|Hne].
    + rewrite lookup_insert_eq. intros [= <-]. simpl.
      destruct (decide (k = IdNum (increment (requestId s)))) as [->|Hk].
      * intros _. eexists. split; [reflexivity | lia].
      * rewrite lookup_insert_ne by congruence. intros Hk'.
        destruct (Hi server s k pr Hs Hk') as (n & -> & Hn).
        exists n. split; [reflexivity|].
        pose proof (increment_le (requestId s)). lia.
    + rewrite lookup_insert_ne by congruence. apply Hi.
  - intros h s' Hs'. rewrite Hh.
    destruct (decide (h = server)) as [->|Hne].
    + rewrite lookup_insert_eq. rewrite Hs in Hs'. injection Hs' as <-.
      eexists. split; [reflexivity|]. simpl. apply increment_le.
    + rewrite lookup_insert_ne by congruence.
      exists s'. split; [exact Hs'|lia].
Qed.

Lemma keeps_ids_sendStdioRequest serverId method params :
  preserves keeps_ids (sendStdioRequest serverId method params).
Proof.
  intros env w.
  destruct (active_server serverId w) as [[server s]|] eqn:Ha.
  - destruct (server_transport s) eqn:Ht.
    + destruct (sendStdioRequest_run env w serverId method params server s
                  Ha Ht) as (w1 & -> & Hsent).
      eapply keeps_ids_sent; [eapply active_server_heap; eauto | exact Hsent].
    + unfold sendStdioRequest, bind, gets. rewrite Ha, Ht.
      apply keeps_ids_refl.
  - unfold sendStdioRequest, bind, gets. rewrite Ha. apply keeps_ids_refl.
Qed.

Lemma keeps_ids_sendHttpRequest serverId method params :
  preserves keeps_ids (sendHttpRequest serverId method params).
Proof.
  intros env w.
  destruct (active_server serverId w) as [[server s]|] eqn:Ha.
  - destruct (server_transport s) eqn:Ht.
    + unfold sendHttpRequest, bind, gets. rewrite Ha, Ht.
      apply keeps_ids_refl.
    + destruct (sendHttpRequest_run env w serverId method params server s
                  Ha Ht) as (w1 & -> & Hsent).
      eapply keeps_ids_sent; [eapply active_server_heap; eauto | exact Hsent].
  - unfold sendHttpRequest, bind, gets. rewrite Ha. apply keeps_ids_refl.
Qed.

Lemma keeps_ids_deliver env w i : keeps_ids w (deliver env w i).
Proof.
  destruct i; simpl.
  - apply keeps_ids_sendStdioRequest.
  - apply keeps_ids_sendHttpRequest.
  - apply keeps_ids_handleResponse.
  - apply keeps_ids_dispatch.
Qed.

Lemma keeps_ids_deliver_all env inputs w :
  keeps_ids w (deliver_all env inputs w).
Proof.
  revert w. induction inputs as [|i inputs IH]; intros w;
    [apply keeps_ids_refl|].
  simpl. eapply keeps_ids_trans; [apply keeps_ids_deliver | apply IH].
Qed.

(** [sendStdioRequest] or [sendHttpRequest], by the transport of the
    session, as [callTool] chooses. *)
Definition sendFn (s : ServerState)
  : jsstring -> jsstring -> unknown -> M (nat * nat) :=
  match server_transport s with
  | stdio => sendStdioRequest
  | http => sendHttpRequest
  end.

Lemma sendFn_run env w serverId method params server s :
  active_server serverId w = Some (server, s) ->
  exists w1,
    sendFn s serverId method params env w
    = (Returned (fresh w, S (fresh w)), w1)
    /\ sent env w w1 server (increment (requestId s)) method
         (request_out env serverId s method params).
Proof.
  intros Ha. unfold sendFn. destruct (server_transport s) eqn:Ht.
  - apply sendStdioRequest_run; assumption.
  - apply sendHttpRequest_run; assumption.
Qed.

Lemma ids_issued_running : ids_issued Examples.running.
Proof.
  intros server s k pr Hs Hk. simpl in Hs.
  apply lookup_singleton_Some in Hs as [_ <-]. simpl in Hk.
  rewrite lookup_empty in Hk. discriminate.
Qed.

(** The ids of a session are new.  Over every run of the correlator (from
    a state where every pending entry is under a number its counter has
    reached), that stays so and no counter goes back; and a request sent
    then, while the counter is below 2^53, gets the id counter + 1, under
    which no entry is pending: the entry of the request is added, every
    other entry stays, and the counter is the new id. *)
Theorem request_ids_are_new env w inputs serverId method params server s :
  ids_issued w ->
  active_server serverId (deliver_all env inputs w) = Some (server, s) ->
  (requestId s < 2 ^ 53)%Z ->
  let w0 := deliver_all env inputs w in
  ids_issued w0
  /\ (forall h s0, heap w !! h = Some s0 ->
        exists s', heap w0 !! h = Some s' /\ (requestId s0 <= requestId s')%Z)
  /\ exists w1,
      sendFn s serverId method params env w0
      = (Returned (fresh w0, S (fresh w0)), w1)
      /\ pending_at w0 server (IdNum (requestId s + 1)) = None
      /\ pending_at w1 server (IdNum (requestId s + 1))
         = Some {| promise := fresh w0; timeout := Some (S (fresh w0)) |}
      /\ (forall server' k,
            (server', k) <> (server, IdNum (requestId s + 1)) ->
            pending_at w1 server' k = pending_at w0 server' k)
      /\ (exists s1, heap w1 !! server = Some s1
                     /\ requestId s1 = (requestId s + 1)%Z)
      /\ ids_issued w1.
Proof.
  intros Hi Ha Hlt w0. fold w0 in Ha.
  destruct (keeps_ids_deliver_all env inputs w) as [Hkeep Hmono].
  fold w0 in Hkeep, Hmono. specialize (Hkeep Hi).
  split; [exact Hkeep|]. split; [exact Hmono|].
  pose proof (active_server_heap _ _ _ _ Ha) as Hs.
  destruct (sendFn_run env w0 serverId method params server s Ha)
    as (w1 & Hrun & Hsent).
  pose proof (keeps_ids_sent _ _ _ _ _ _ _ Hs Hsent) as [Hkeep1 _].
  rewrite (increment_exact _ Hlt) in Hsent.
  pose proof (sent_heap _ _ _ _ _ _ _ Hsent s Hs) as Hh.
  exists w1. split; [exact Hrun|]. split; [|split; [|split; [|split]]].
  - unfold pending_at. rewrite Hs. simpl.
    destruct (pendingRequests s !! IdNum (requestId s + 1)) as [pr|] eqn:Hp;
      [|reflexivity].
    destruct (Hkeep server s _ pr Hs Hp) as (n & [= <-] & Hn). lia.
  - exact (sent_entry _ _ _ _ _ _ _ Hsent).
  - intros server' k Hne. unfold pending_at. rewrite Hh.
    destruct (decide (server' = server)) as [->|Hs'].
    + rewrite lookup_insert_eq, Hs. simpl.
      apply lookup_insert_ne. congruence.
    + rewrite lookup_insert_ne by congruence. reflexivity.
  - rewrite Hh, lookup_insert_eq. eexists. split; reflexivity.
  - apply Hkeep1, Hkeep.
Qed.

Lemma request_ids_are_new_witness :
  ids_issued Examples.running
  /\ active_server Examples.s
       (deliver_all Examples.quiet
          [RequestStdio Examples.s (lit "tools/list") None] Examples.running)
     = Some (0, Examples.requested_session)
  /\ exists w1,
      pending_at
        (deliver_all Examples.quiet
           [RequestStdio Examples.s (lit "tools/list") None] Examples.running)
        0 (IdNum 2) = None
      /\ pending_at w1 0 (IdNum 2)
         = Some {| promise := 6; timeout := Some 7 |}.
Proof.
  split; [exact ids_issued_running|].
  assert (Ha : active_server Examples.s
                 (deliver_all Examples.quiet
                    [RequestStdio Examples.s (lit "tools/list") None]
                    Examples.running)
               = Some (0, Examples.requested_session))
    by (vm_compute; reflexivity).
  split; [exact Ha|].
  destruct (request_ids_are_new Examples.quiet Examples.running
              [RequestStdio Examples.s (lit "tools/list") None]
              Examples.s (lit "tools/call") None 0 Examples.requested_session
              ids_issued_running Ha ltac:(simpl; lia))
    as (_ & _ & w1 & _ & Hnone & Hsome & _).
  assert (Hf : fresh (deliver_all Examples.quiet
                        [RequestStdio Examples.s (lit "tools/list") None]
                        Examples.running) = 6)
    by (vm_compute; reflexivity).
  rewrite Hf in Hsome.
  exists w1. split; [exact Hnone | exact Hsome].
Defined.

End ServiceFacts.

(* ===================================================================== *)
(** ** The MCP service: stopping and starting a server *)
(* ===================================================================== *)

Module LifecycleFacts.
Import Mcp ProgFacts McpFacts CorrelatorFacts ServiceFacts.

Local Open Scope nat_scope.

(** *** Stopping *)

Lemma await_host_run env w :
  await_host env w
  = (match host env (awaited w) with
     | HostOk => Returned tt
     | HostFails e => Threw e
     end, snd (wait env w)).
Proof.
  unfold await_host, bind, gets, asks, wait. cbn.
  destruct (host env (awaited w)); reflexivity.
Qed.

(** The listeners left when the two listeners of a session are removed. *)
Definition without (h : option nat) (ls : list (nat * Listener))
  : list (nat * Listener) :=
  match h with
  | Some h => filter (fun '(h', _) => h' <> h) ls
  | None => ls
  end.

Lemma without_removed h l ls : (h, l) ∉ without (Some h) ls.
Proof.
  unfold without. intros H. apply list_elem_of_filter in H as [H _].
  apply H. reflexivity.
Qed.

Lemma without_subset h ls x : x ∈ without h ls -> x ∈ ls.
Proof.
  destruct h as [h|]; [|auto]. unfold without. intros H.
  apply list_elem_of_filter in H as [_ H]. exact H.
Qed.

(** The state after the two [unlisten] calls and the [kill_mcp_server]
    call of [stopStdioServer], before the call is awaited. *)
Lemma stop_prefix_run env w serverId (s : ServerState) :
  exists w1,
    (unlisten (unlistenStdout s);;
     unlisten (unlistenStderr s);;
     perform (KillMcpServer serverId)) env w = (Returned tt, w1)
    /\ activeServers w1 = activeServers w
    /\ serverStates w1 = serverStates w
    /\ awaited w1 = awaited w
    /\ listeners w1
       = without (unlistenStderr s) (without (unlistenStdout s) (listeners w)).
Proof.
  unfold unlisten, without.
  destruct (unlistenStdout s) as [h1|], (unlistenStderr s) as [h2|];
    eexists; (split; [reflexivity|]); repeat split.
Qed.

(** [stopMCPServer] of a running server never fails.  An HTTP session is
    always removed: it is no more in the registry, and its state is
    cleared.  A stdio session is removed in the same way when the host
    kills the process; when the host call fails, the session stays in the
    registry, with the status [error] and the message of the failure.  In
    both cases of a stdio session its two listeners are removed first, so
    that a session that could not be stopped no longer hears its server. *)
Theorem stopMCPServer_outcome env w serverId server s :
  active_server serverId w = Some (server, s) ->
  exists w',
    stopMCPServer serverId env w = (Returned tt, w')
    /\ match server_transport s, host env (awaited w) with
       | stdio, HostFails e =>
           activeServers w' !! serverId = Some server
           /\ exists st, serverStates w' !! serverId = Some st
                         /\ status st = error
                         /\ state_error st = Some (error_message e)
       | _, _ =>
           activeServers w' !! serverId = None
           /\ serverStates w' !! serverId = None
       end
    /\ (server_transport s = stdio ->
        listeners w'
        = without (unlistenStderr s) (without (unlistenStdout s) (listeners w))).
Proof.
  intros Ha. unfold stopMCPServer. unfold bind at 1, gets at 1. rewrite Ha.
  cbv beta iota.
  assert (Hreg : activeServers w !! serverId = Some server).
  { unfold active_server in Ha.
    destruct (activeServers w !! serverId) as [h|]; [|discriminate].
    simpl in Ha. destruct (heap w !! h); [|discriminate].
    injection Ha as <- _. reflexivity. }
  destruct (server_transport s) eqn:Ht.
  - unfold stopStdioServer, try_catch.
    destruct (stop_prefix_run env w serverId s)
      as (w1 & Hpre & Hact & Hst & Haw & Hls).
    assert (Hbody :
              (unlisten (unlistenStdout s);;
               unlisten (unlistenStderr s);;
               perform (KillMcpServer serverId);;
               await_host;;
               modify (set_activeServers (delete serverId));;
               clearServerState serverId) env w
              = (await_host;;
                 modify (set_activeServers (delete serverId));;
                 clearServerState serverId) env w1).
    { unfold bind in Hpre |- *.
      destruct (unlisten (unlistenStdout s) env w) as [[[]|e|] wa];
        try discriminate.
      destruct (unlisten (unlistenStderr s) env wa) as [[[]|e|] wb];
        try discriminate.
      destruct (perform (KillMcpServer serverId) env wb) as [[[]|e|] wc]
        eqn:Hc; try discriminate.
      injection Hpre as <-. reflexivity. }
    rewrite Hbody. unfold bind at 1. rewrite await_host_run, Haw.
    pose proof (framed_wait env w1) as [F1 F2 _ F4 _].
    set (w2 := snd (wait env w1)) in *.
    destruct (host env (awaited w)) as [|e].
    + eexists. split; [reflexivity|]. split; [|intros _].
      * split; simpl; apply lookup_delete_eq.
      * simpl. rewrite F4. exact Hls.
    + eexists. split; [reflexivity|]. split; [|intros _].
      * simpl. rewrite F1, Hact. split; [exact Hreg|].
        eexists. rewrite lookup_insert_eq. split; [reflexivity|].
        split; reflexivity.
      * simpl. rewrite F4. exact Hls.
  - unfold stopHttpServer.
    assert (Hclose : exists wa,
               (match eventSource s with
                | Some es => close_eventSource es
                | None => ret tt
                end) env w = (Returned tt, wa)).
    { destruct (eventSource s); eexists; reflexivity. }
    destruct Hclose as (wa & Hclose).
    rewrite (bind_Returned _ _ _ _ _ _ Hclose).
    eexists. split; [reflexivity|]. split; [|discriminate].
    destruct (host env (awaited w)); split; simpl; apply lookup_delete_eq.
Qed.

Lemma stopMCPServer_outcome_witness :
  active_server Examples.s Examples.running = Some (0, Examples.session)
  /\ exists w',
      stopMCPServer Examples.s Examples.quiet Examples.running
      = (Returned tt, w')
      /\ activeServers w' !! Examples.s = None
      /\ serverStates w' !! Examples.s = None
      /\ listeners w' = [].
Proof.
  assert (Ha : active_server Examples.s Examples.running
               = Some (0, Examples.session)) by (vm_compute; reflexivity).
  split; [exact Ha|].
  destruct (stopMCPServer_outcome Examples.quiet Examples.running Examples.s
              0 Examples.session Ha) as (w' & Hrun & [H1 H2] & Hls).
  exists w'. split; [exact Hrun|]. split; [exact H1|]. split; [exact H2|].
  rewrite (Hls eq_refl). vm_compute. reflexivity.
Defined.

(** *** Starting: what every step keeps *)































(** *** Starting: the steps come to an end *)




Lemma steps_same w w' :
  heap w' = heap w -> timers w' = timers w -> settlements w' = settlements w ->
  promises w' = promises w -> fresh w <= fresh w' -> steps w w'.
Proof.
  intros Hh Ht Hs Hp Hf. apply steps_quiet, quiet_same; try assumption.
  intros s k. unfold pending_at. rewrite Hh. reflexivity.
Qed.

Ltac start_leaf :=
  first
    [ apply steps_alloc
    | apply steps_await_host
    | apply steps_sendStdioRequest
    | apply steps_await_promise
    | apply steps_quiet, quiet_update_server; intros ?; reflexivity
    | apply steps_same; first [ reflexivity | simpl; lia ] ].

Ltac start_stepping := preserve steps_refl steps_trans start_leaf.


Lemma steps_unlisten h : preserves steps (unlisten h).
Proof. unfold unlisten, perform. start_stepping. Qed.








(** *** Starting a stdio server *)























End LifecycleFacts.
